(** * Architector: calculation executor, NEB set-up, symmetry enumerator and
      vibrational analysis, as a shallow embedding.

    The Python sources are [architector/io_calc.py], [architector/io_neb.py],
    [architector/io_symmetry.py] and [architector/vibrations_free_energy.py].
    External engines (xTB, OpenBabel, ASE optimizers, numpy's LAPACK calls)
    are oracles: they are the fields of a boundary record, and every theorem
    holds for all of them. *)

From Stdlib Require Import List ZArith QArith String Ascii Bool Lia Arith Permutation
  Sorted.
Import ListNotations.

Local Open Scope string_scope.
Local Open Scope list_scope.
Local Open Scope Z_scope.

(** ** Python strings: [str.lower] and the substring test [needle in hay]
    (ASCII only, which covers every method name the executor inspects). *)
Module PyStr.

Definition lower_ascii (c : ascii) : ascii :=
  let n := nat_of_ascii c in
  if (65 <=? n)%nat && (n <=? 90)%nat then ascii_of_nat (n + 32) else c.

Fixpoint lower (s : string) : string :=
  match s with
  | EmptyString => EmptyString
  | String c r => String (lower_ascii c) (lower r)
  end.

(** [contains needle hay] is Python's [needle in hay]. *)
Fixpoint contains (needle hay : string) : bool :=
  if prefix needle hay then true
  else match hay with
       | EmptyString => false
       | String _ r => contains needle r
       end.

End PyStr.

(** ** Exceptions and results *)

Inductive exc : Type :=
| ValueError (msg : string)
| AttributeError (attr : string)
| IndexError
| AxisError
| ReshapeError
| KeyError
| TypeError
| OverflowError
| EngineError (tag : nat).   (* whatever an external engine raised *)

Inductive result (A : Type) : Type :=
| Ok (a : A)
| Raise (e : exc).
Arguments Ok {A} a.
Arguments Raise {A} e.

Definition bind {A B} (r : result A) (k : A -> result B) : result B :=
  match r with
  | Ok a => k a
  | Raise e => Raise e
  end.

Notation "x <- c ;; k" := (bind c (fun x => k))
  (at level 61, c at next level, right associativity).

(** ** io_calc.py *)
Module IoCalc.

(** A Cartesian coordinate as numpy holds it: a finite number, an infinity
    or NaN.  Finite floats are stood for by rationals. *)
Inductive coord : Type :=
| Finite (q : Q)
| Inf (negative : bool)
| NaN.

Definition isnan (c : coord) : bool :=
  match c with NaN => true | _ => false end.


Definition position : Type := (coord * coord * coord)%type.

Definition position_any (p : coord -> bool) (x : position) : bool :=
  let '(a, b, c) := x in p a || p b || p c.

(** [np.any(np.isnan(positions))] *)
Definition any_isnan (ps : list position) : bool :=
  existsb (position_any isnan) ps.


(** The calculator object attached to an [ase.Atoms]. *)
Inductive Calc : Type :=
| XTB (method : string)
| CustomCalc.

Record Atoms : Type := mkAtoms {
  symbols : list string;
  positions : list position;
  initial_charges : list Z;
  initial_magmoms : list Z;
  calc : option Calc;
  constraint : option (list nat)
}.

Definition set_positions (a : Atoms) (ps : list position) : Atoms :=
  mkAtoms (symbols a) ps (initial_charges a) (initial_magmoms a) (calc a) (constraint a).
Definition set_symbols (a : Atoms) (sy : list string) : Atoms :=
  mkAtoms sy (positions a) (initial_charges a) (initial_magmoms a) (calc a) (constraint a).
Definition set_initial_charges (a : Atoms) (v : list Z) : Atoms :=
  mkAtoms (symbols a) (positions a) v (initial_magmoms a) (calc a) (constraint a).
Definition set_initial_magnetic_moments (a : Atoms) (v : list Z) : Atoms :=
  mkAtoms (symbols a) (positions a) (initial_charges a) v (calc a) (constraint a).
Definition set_calc (a : Atoms) (c : option Calc) : Atoms :=
  mkAtoms (symbols a) (positions a) (initial_charges a) (initial_magmoms a) c (constraint a).
Definition set_constraint (a : Atoms) (c : option (list nat)) : Atoms :=
  mkAtoms (symbols a) (positions a) (initial_charges a) (initial_magmoms a) (calc a) c.

(** [architector.io_molecule.Molecule], the fields the executor reads or
    writes. *)
Record Mol : Type := mkMol {
  ase_atoms : Atoms;
  charge : Z;
  xtb_charge : Z;
  uhf : Z;
  xtb_uhf : Z;
  dists_sane : bool;
  graph_sane : bool;
  actinides : list nat;
  actinides_swapped : bool
}.

Definition with_atoms (m : Mol) (a : Atoms) : Mol :=
  mkMol a (charge m) (xtb_charge m) (uhf m) (xtb_uhf m) (dists_sane m)
        (graph_sane m) (actinides m) (actinides_swapped m).
Definition with_spin (m : Mol) (u xu : Z) : Mol :=
  mkMol (ase_atoms m) (charge m) (xtb_charge m) u xu (dists_sane m)
        (graph_sane m) (actinides m) (actinides_swapped m).
Definition with_dists_sane (m : Mol) (b : bool) : Mol :=
  mkMol (ase_atoms m) (charge m) (xtb_charge m) (uhf m) (xtb_uhf m) b
        (graph_sane m) (actinides m) (actinides_swapped m).
Definition with_graph_sane (m : Mol) (b : bool) : Mol :=
  mkMol (ase_atoms m) (charge m) (xtb_charge m) (uhf m) (xtb_uhf m) (dists_sane m)
        b (actinides m) (actinides_swapped m).
Definition with_actinides (m : Mol) (l : list nat) (sw : bool) : Mol :=
  mkMol (ase_atoms m) (charge m) (xtb_charge m) (uhf m) (xtb_uhf m) (dists_sane m)
        (graph_sane m) l sw.

(** The caller's [parameters] mapping.  A key that is absent is [None].
    Every key of the mapping is also promoted to an attribute of the executor
    ([setattr(self,key,val)]), so the same record carries the overrides of the
    constructor's own flags.  [p_other_keys] says that the mapping holds keys
    the executor never reads (they only count for [len(parameters) > 0]). *)
Record Parameters : Type := mkParameters {
  (* read through self.parameters, after the merge with the defaults *)
  p_debug : option bool;
  p_assemble_sanity_checks : option bool;
  p_freeze_molecule_add_species : option bool;
  p_save_trajectories : option bool;
  p_dump_ase_atoms : option bool;
  (* read as attributes; they exist only when the mapping has the key *)
  p_assemble_method : option string;
  p_species_intermediate_method : option string;
  p_species_method : option string;
  p_species_intermediate_relax : option bool;
  p_species_relax : option bool;
  p_full_method : option string;
  p_override_oxo_opt : option bool;
  p_calculator_kwargs : option unit;
  p_ase_opt_kwargs : option unit;
  (* overrides of attributes the constructor has already set *)
  p_method : option string;
  p_init_sanity_check : option bool;
  p_final_sanity_check : option bool;
  p_relax : option bool;
  p_assembly : option bool;
  p_ff_preopt_run : option bool;
  p_fix_m_neighbors : option bool;
  p_species_run : option bool;
  p_skip_spin_assign : option bool;
  p_force_generation : option bool;
  p_force_oxo_relax : option bool;
  p_calculator : option bool;   (* [Some false]: the key is there, holding None *)
  p_other_keys : bool
}.

Definition is_some {A} (o : option A) : bool :=
  match o with Some _ => true | None => false end.

(** [len(parameters) > 0] *)
Definition parameters_nonempty (p : Parameters) : bool :=
  is_some (p_debug p) || is_some (p_assemble_sanity_checks p)
  || is_some (p_freeze_molecule_add_species p) || is_some (p_save_trajectories p)
  || is_some (p_dump_ase_atoms p) || is_some (p_assemble_method p)
  || is_some (p_species_intermediate_method p) || is_some (p_species_method p)
  || is_some (p_species_intermediate_relax p) || is_some (p_species_relax p)
  || is_some (p_full_method p) || is_some (p_override_oxo_opt p)
  || is_some (p_calculator_kwargs p) || is_some (p_ase_opt_kwargs p)
  || is_some (p_method p) || is_some (p_init_sanity_check p)
  || is_some (p_final_sanity_check p) || is_some (p_relax p)
  || is_some (p_assembly p) || is_some (p_ff_preopt_run p)
  || is_some (p_fix_m_neighbors p) || is_some (p_species_run p)
  || is_some (p_skip_spin_assign p) || is_some (p_force_generation p)
  || is_some (p_force_oxo_relax p) || is_some (p_calculator p) || p_other_keys p.

Definition empty_parameters : Parameters :=
  mkParameters None None None None None None None None None None None None None
               None None None None None None None None None None None None None false.

(** An override wins over the value the constructor assigned. *)
Definition overridden {A} (o : option A) (dflt : A) : A :=
  match o with Some v => v | None => dflt end.

(** Reading an attribute that only [setattr] can have created. *)
Definition getattr {A} (name : string) (o : option A) : result A :=
  match o with Some v => Ok v | None => Raise (AttributeError name) end.

(** A structure-like input of [convert_io_molecule]. *)
Inductive Structure : Type :=
| OfAtoms (a : Atoms)
| OfMol (m : Mol)
| OfText (s : string).

(** What the executor calls outside this file.  Energies are rationals; an
    engine either returns or raises.  [opt_run] is [dyn.run(fmax, steps)] of
    the ASE optimizer: it moves the atoms in place, so it yields the geometry
    and the trajectory frames it reached together with the exception, if any,
    that ended it. *)
Record Boundary : Type := mkBoundary {
  convert_io_molecule : Structure -> Mol;
  dist_sanity_checks : Parameters -> bool -> Mol -> bool;
  graph_sanity_checks : Parameters -> bool -> Mol -> bool;
  calc_suggested_spin : Parameters -> Mol -> Z * Z;
  swap_actinide : Mol -> list string;
  is_lanthanide : string -> bool;
  find_component_indices : Mol -> list nat;
  get_total_energy : Atoms -> result Q;
  opt_run : Atoms -> list position * list (list position) * option exc;
  rmsd_align : Atoms -> Atoms -> result (Q * list position);
  obmol_energy : Mol -> result Q;
  obmol_opt : Mol -> bool -> result (list position * Q)
}.

(** An entry of [self.errors]: a caught exception or a message. *)
Inductive error_entry : Type :=
| Caught (e : exc)
| Message (s : string).

(** Calls into a numerical engine, in the order they were made. *)
Inductive engine_call : Type :=
| CallTotalEnergy
| CallOptimizer
| CallObmolEnergy
| CallObmolOpt.

(** A row appended to the structure database [parameters['ase_db']]. *)
Record db_entry : Type := mkDbEntry {
  db_positions : list position;
  db_geo_step : option nat;
  db_relaxed : bool
}.

(** Output properties of the executor. *)
Record Outcome : Type := mkOutcome {
  energy : option Q;
  init_energy : option Q;
  errors : list error_entry;
  successful : bool;
  trajectory : option (list (list position));
  rmsd : option Q;
  done : bool
}.

Definition set_energy (o : Outcome) (e : option Q) : Outcome :=
  mkOutcome e (init_energy o) (errors o) (successful o) (trajectory o) (rmsd o) (done o).
Definition set_init_energy (o : Outcome) (e : option Q) : Outcome :=
  mkOutcome (energy o) e (errors o) (successful o) (trajectory o) (rmsd o) (done o).
Definition errors_append (o : Outcome) (e : error_entry) : Outcome :=
  mkOutcome (energy o) (init_energy o) (errors o ++ [e]) (successful o) (trajectory o)
            (rmsd o) (done o).
Definition set_successful (o : Outcome) (b : bool) : Outcome :=
  mkOutcome (energy o) (init_energy o) (errors o) b (trajectory o) (rmsd o) (done o).
Definition set_trajectory (o : Outcome) (t : option (list (list position))) : Outcome :=
  mkOutcome (energy o) (init_energy o) (errors o) (successful o) t (rmsd o) (done o).
Definition set_rmsd (o : Outcome) (r : option Q) : Outcome :=
  mkOutcome (energy o) (init_energy o) (errors o) (successful o) (trajectory o) r (done o).
Definition set_done (o : Outcome) (b : bool) : Outcome :=
  mkOutcome (energy o) (init_energy o) (errors o) (successful o) (trajectory o) (rmsd o) b.

(** The flags [__init__] resolves and [calculate] only reads. *)
Record Flags : Type := mkFlags {
  debug : bool;
  init_sanity_check : bool;
  final_sanity_check : bool;
  assembly : bool;
  ff_preopt_run : bool;
  fix_m_neighbors : bool;
  species_run : bool;
  skip_spin_assign : bool;
  force_generation : bool;
  force_oxo_relax : bool;
  calculator : bool            (* [self.calculator is not None] *)
}.

(** The executor object.  [engine_calls] and [ase_db] record its effects on
    the engines and on the structure database. *)
Record Self : Type := mkSelf {
  flags : Flags;
  in_struct : Structure;
  parameters : Parameters;
  mol : Mol;
  method : string;
  relax : bool;
  out : Outcome;
  engine_calls : list engine_call;
  ase_db : list db_entry
}.

Definition set_mol (s : Self) (m : Mol) : Self :=
  mkSelf (flags s) (in_struct s) (parameters s) m (method s) (relax s) (out s)
         (engine_calls s) (ase_db s).
Definition set_method (s : Self) (m : string) : Self :=
  mkSelf (flags s) (in_struct s) (parameters s) (mol s) m (relax s) (out s)
         (engine_calls s) (ase_db s).
Definition set_relax (s : Self) (b : bool) : Self :=
  mkSelf (flags s) (in_struct s) (parameters s) (mol s) (method s) b (out s)
         (engine_calls s) (ase_db s).
Definition set_out (s : Self) (o : Outcome) : Self :=
  mkSelf (flags s) (in_struct s) (parameters s) (mol s) (method s) (relax s) o
         (engine_calls s) (ase_db s).
Definition called (s : Self) (c : engine_call) : Self :=
  mkSelf (flags s) (in_struct s) (parameters s) (mol s) (method s) (relax s) (out s)
         (engine_calls s ++ [c]) (ase_db s).
Definition db_write (s : Self) (es : list db_entry) : Self :=
  mkSelf (flags s) (in_struct s) (parameters s) (mol s) (method s) (relax s) (out s)
         (engine_calls s) (ase_db s ++ es).

Definition set_atoms (s : Self) (a : Atoms) : Self := set_mol s (with_atoms (mol s) a).
Definition atoms (s : Self) : Atoms := ase_atoms (mol s).

(** Reads of [self.parameters], the defaults updated by the caller's
    mapping ([debug] defaults to the constructor's argument). *)
Definition param_debug (s : Self) : bool :=
  overridden (p_debug (parameters s)) (debug (flags s)).
Definition param_assemble_sanity_checks (s : Self) : bool :=
  overridden (p_assemble_sanity_checks (parameters s)) true.
Definition param_freeze_molecule_add_species (s : Self) : bool :=
  overridden (p_freeze_molecule_add_species (parameters s)) false.
Definition param_save_trajectories (s : Self) : bool :=
  overridden (p_save_trajectories (parameters s)) false.
Definition param_dump_ase_atoms (s : Self) : bool :=
  overridden (p_dump_ase_atoms (parameters s)) false.

(** The arguments of [CalcExecutor.__init__] that steer the control flow.
    ([intermediate] is [False] or a string.)  The xTB settings, [fmax],
    [maxsteps] and the optimizer class are passed on to the engines and are
    part of the oracles. *)
Record Args : Type := mkArgs {
  a_structure : Structure;
  a_parameters : Parameters;
  a_init_sanity_check : bool;
  a_final_sanity_check : bool;
  a_relax : bool;
  a_assembly : bool;
  a_method : string;
  a_ff_preopt_run : bool;
  a_fix_m_neighbors : bool;
  a_species_run : bool;
  a_intermediate : option string;
  a_skip_spin_assign : bool;
  a_calculator : bool;
  a_debug : bool
}.

Definition sentinel : Q := 10000 # 1.

Definition min_dist_message : string := "Min dist checks failed. Not evaluated".

(** [v = np.zeros(n)] *)
Definition zeros (n : nat) : list Z := repeat 0 n.

(** [v = np.zeros(n); v[0] = x] *)
Definition zeros_first (n : nat) (x : Z) : result (list Z) :=
  match n with
  | O => Raise IndexError
  | S k => Ok (x :: zeros k)
  end.

(** Indices [i] with [symbols[i]] in [io_ptable.lanthanides]. *)
Fixpoint lanthanide_indices (f : string -> bool) (i : nat) (sy : list string) : list nat :=
  match sy with
  | [] => []
  | x :: r => if f x then i :: lanthanide_indices f (S i) r
              else lanthanide_indices f (S i) r
  end.

(** [dump_traj]: every frame but the last is written as unrelaxed. *)
Fixpoint traj_entries (i : nat) (t : list (list position)) : list db_entry :=
  match t with
  | [] => []
  | [f] => [mkDbEntry f (Some i) true]
  | f :: r => mkDbEntry f (Some i) false :: traj_entries (S i) r
  end.

Section Executor.

Variable B : Boundary.

(** Method resolution of [__init__], lines 172-197: the resolved
    (method, relax, init_sanity_check, force_oxo_relax). *)
Definition resolve (a : Args) : result (string * bool * bool * bool) :=
  let p := a_parameters a in
  let method0 := overridden (p_method p) (a_method a) in
  let relax0 := overridden (p_relax p) (a_relax a) in
  let isc0 := overridden (p_init_sanity_check p) (a_init_sanity_check a) in
  let ff := overridden (p_ff_preopt_run p) (a_ff_preopt_run a) in
  let fo0 := overridden (p_force_oxo_relax p) false in
  if a_assembly a then
    m <- getattr "assemble_method" (p_assemble_method p) ;;
    Ok (m, false, true, fo0)
  else if a_species_run a then
    match a_intermediate a with
    | Some i =>
        if (i =? "rotation")%string then
          m <- getattr "species_intermediate_method" (p_species_intermediate_method p) ;;
          Ok (m, false, isc0, fo0)
        else if (i =? "main")%string then
          m <- getattr "species_method" (p_species_method p) ;;
          r <- getattr "species_intermediate_relax" (p_species_intermediate_relax p) ;;
          Ok (m, r, isc0, true)
        else Ok (method0, relax0, isc0, fo0)
    | None =>
        m <- getattr "species_method" (p_species_method p) ;;
        r <- getattr "species_relax" (p_species_relax p) ;;
        Ok (m, r, isc0, fo0)
    end
  else if parameters_nonempty p then
    if ff then Ok ("UFF", true, isc0, fo0)
    else m <- getattr "full_method" (p_full_method p) ;; Ok (m, relax0, isc0, fo0)
  else
    if ff then Ok ("UFF", true, isc0, fo0) else Ok (method0, relax0, isc0, fo0).

(** [__init__] up to the call of [self.calculate()]. *)
Definition init (a : Args) : result Self :=
  let p := a_parameters a in
  r <- resolve a ;;
  let '(m, rl, isc, fo) := r in
  Ok (mkSelf
        (mkFlags (a_debug a) isc
                 (overridden (p_final_sanity_check p) (a_final_sanity_check a))
                 (overridden (p_assembly p) (a_assembly a))
                 (overridden (p_ff_preopt_run p) (a_ff_preopt_run a))
                 (overridden (p_fix_m_neighbors p) (a_fix_m_neighbors a))
                 (overridden (p_species_run p) (a_species_run a))
                 (overridden (p_skip_spin_assign p) (a_skip_spin_assign a))
                 (overridden (p_force_generation p) false)
                 fo
                 (overridden (p_calculator p) (a_calculator a)))
        (a_structure a) p (convert_io_molecule B (a_structure a)) m rl
        (mkOutcome None None [] false None None false) [] []).

(** [dist_sanity_checks] then [graph_sanity_checks] on [self.mol]. *)
Definition sanity_checks (s : Self) : Self :=
  let asm := assembly (flags s) in
  let m1 := with_dists_sane (mol s) (dist_sanity_checks B (parameters s) asm (mol s)) in
  set_mol s (with_graph_sane m1 (graph_sanity_checks B (parameters s) asm m1)).

(** [self.mol.swap_actinide()] relabels elements. *)
Definition do_swap_actinide (s : Self) : Self :=
  set_atoms s (set_symbols (atoms s) (swap_actinide B (mol s))).

(** The [except Exception as e] clause of the engine paths, lines 308-317
    and 330-339. *)
Definition engine_handler (s : Self) (e : exc) : Self :=
  set_out s (set_init_energy
               (set_energy (errors_append (out s) (Caught e)) (Some sentinel))
               (Some sentinel)).

(** The [except] clause of the force-field paths: the error is kept, the
    energies are left as they are. *)
Definition ff_handler (s : Self) (e : exc) : Self :=
  set_out s (errors_append (out s) (Caught e)).

(** Engine selection, lines 227-267: the executor after the state vectors
    are assigned, and the calculator ([None] when the OpenBabel force field
    was requested). *)
Definition select_engine (s : Self) : result (Self * option Calc) :=
  let n := List.length (positions (atoms s)) in
  if calculator (flags s) && PyStr.contains "custom" (method s) then
    _ <- getattr "calculator_kwargs" (p_calculator_kwargs (parameters s)) ;;
    uhf_vect <- zeros_first n (uhf (mol s)) ;;
    charge_vect <- zeros_first n (charge (mol s)) ;;
    let a1 := set_initial_magnetic_moments
                (set_initial_charges (atoms s) charge_vect) uhf_vect in
    let m1 := with_actinides (with_atoms (mol s) a1)
                (lanthanide_indices (is_lanthanide B) 0 (symbols a1)) true in
    Ok (do_swap_actinide (set_mol s m1), Some CustomCalc)
  else if PyStr.contains "gfn" (PyStr.lower (method s)) then
    let c := XTB (method s) in
    s1 <- (if 1 <? Z.abs (xtb_charge (mol s) - charge (mol s)) then
             ov <- getattr "override_oxo_opt" (p_override_oxo_opt (parameters s)) ;;
             if (negb ov || assembly (flags s)) && negb (force_oxo_relax (flags s))
             then Ok (set_relax s false)
             else if assembly (flags s) then Ok (set_method s "GFN-FF")
             else Ok s
           else Ok s) ;;
    uhf_vect <- (if (method s1 =? "GFN-FF")%string then Ok (zeros n)
                 else zeros_first n (xtb_uhf (mol s1))) ;;
    charge_vect <- (if (method s1 =? "GFN-FF")%string then Ok (zeros n)
                    else zeros_first n (xtb_charge (mol s1))) ;;
    Ok (set_atoms s1 (set_initial_magnetic_moments
                        (set_initial_charges (atoms s1) charge_vect) uhf_vect),
        Some c)
  else if PyStr.contains "uff" (PyStr.lower (method s))
          || PyStr.contains "mmff" (PyStr.lower (method s)) then
    Ok (s, None)
  else Raise (ValueError "Warning - no known method or calculator requested.").

(** The calculator is attached to the atoms, line 269. *)
Definition attach (s : Self) (cl : Calc) : Self :=
  set_atoms s (set_calc (atoms s) (Some cl)).

(** A [try] body: the state it reached and the exception that ended it. *)
Definition try_except (body : Self * option exc) (handler : Self -> exc -> Self) : Self :=
  match body with
  | (s, Some e) => handler s e
  | (s, None) => s
  end.

(** The [try] body of the relaxation, lines 280-307. *)
Definition engine_relax_try (s : Self) : Self * option exc :=
  let s1 := called s CallTotalEnergy in
  match get_total_energy B (atoms s1) with
  | Raise e => (s1, Some e)
  | Ok e0 =>
    let s2 := set_out s1 (set_init_energy (out s1) (Some e0)) in
    match p_ase_opt_kwargs (parameters s2) with
    | None => (s2, Some (AttributeError "ase_opt_kwargs"))
    | Some _ =>
      let '(ps, traj, r) := opt_run B (atoms s2) in
      let s3 := set_atoms (called s2 CallOptimizer) (set_positions (atoms s2) ps) in
      match r with
      | Some e => (s3, Some e)
      | None =>
        let s4 := if param_save_trajectories s3
                  then set_out s3 (set_trajectory (out s3) (Some traj))
                  else s3 in
        let s5 := called s4 CallTotalEnergy in
        match get_total_energy B (atoms s5) with
        | Raise e => (s5, Some e)
        | Ok e1 =>
          let s6 := set_out s5 (set_energy (out s5) (Some e1)) in
          match rmsd_align B (atoms s6)
                  (ase_atoms (convert_io_molecule B (in_struct s6))) with
          | Raise e => (s6, Some e)
          | Ok (r, ps') =>
            let s7 := set_atoms s6 (set_positions (atoms s6) ps') in
            (set_out s7 (set_successful (set_rmsd (out s7) (Some r)) true), None)
          end
        end
      end
    end
  end.

(** The state the relaxation starts from: the first component is frozen on
    request, lines 271-276. *)
Definition freeze_first_component (s : Self) : Self :=
  if param_freeze_molecule_add_species s && negb (PyStr.contains "custom" (method s))
  then set_atoms s (set_constraint (atoms s) (Some (find_component_indices B (mol s))))
  else s.

(** Relaxation with an attached calculator, lines 270-322. *)
Definition engine_relax (s : Self) : Self :=
  let s' := try_except (engine_relax_try (freeze_first_component s)) engine_handler in
  if param_freeze_molecule_add_species s
  then set_atoms s' (set_constraint (atoms s') None) else s'.

(** The [try] body of the single point, lines 327-329. *)
Definition engine_single_point_try (s : Self) : Self * option exc :=
  let s1 := called s CallTotalEnergy in
  match get_total_energy B (atoms s1) with
  | Raise e => (s1, Some e)
  | Ok e0 =>
    (set_out s1 (set_successful
                   (set_init_energy (set_energy (out s1) (Some e0)) (Some e0)) true),
     None)
  end.

(** Single point with an attached calculator, lines 324-339. *)
Definition engine_single_point (s : Self) : Self :=
  try_except (engine_single_point_try s) engine_handler.


(** OpenBabel force-field relaxation, lines 341-357. *)
Definition ff_relax (s : Self) : Self :=
  let s1 := called s CallObmolEnergy in
  match obmol_energy B (mol s1) with
  | Raise e => ff_handler s1 e
  | Ok e0 =>
    let s2 := called (set_out s1 (set_init_energy (out s1) (Some e0))) CallObmolOpt in
    match obmol_opt B (mol s2) (fix_m_neighbors (flags s2)) with
    | Raise e => ff_handler s2 e
    | Ok (ps, e1) =>
      let s3 := set_out s2 (set_energy (set_successful (out s2) true) (Some e1)) in
      let s4 := set_atoms s3 (set_positions (atoms s3) ps) in
      match rmsd_align B (atoms s4)
              (ase_atoms (convert_io_molecule B (in_struct s4))) with
      | Raise e => ff_handler s4 e
      | Ok (r, ps') =>
        let s5 := set_atoms s4 (set_positions (atoms s4) ps') in
        set_out s5 (set_rmsd (out s5) (Some r))
      end
    end
  end.

(** OpenBabel single point, lines 359-366 (and the fallback, lines 368-375). *)
Definition ff_single_point (s : Self) : Self :=
  let s1 := called s CallObmolEnergy in
  match obmol_energy B (mol s1) with
  | Raise e => ff_handler s1 e
  | Ok e0 =>
    set_out s1 (set_successful
                  (set_init_energy (set_energy (out s1) (Some e0)) (Some e0)) true)
  end.

(** The primary protocol for the selected engine, lines 268-366. *)
Definition run_protocol (s : Self) (c : option Calc) : Self :=
  match c with
  | Some cl =>
    if relax (attach s cl) then engine_relax (attach s cl)
    else engine_single_point (attach s cl)
  | None =>
    if relax s then ff_relax s else ff_single_point s
  end.

(** Lines 367-375. *)
Definition fallback (s : Self) : Self :=
  if negb (successful (out s)) && force_generation (flags s)
  then ff_single_point s else s.

(** Lines 225-226. *)
Definition assign_spin (s : Self) : Self :=
  if negb (species_run (flags s)) && negb (skip_spin_assign (flags s))
  then let '(u, xu) := calc_suggested_spin B (parameters s) (mol s) in
       set_mol s (with_spin (mol s) u xu)
  else s.

(** The branch taken when [self.mol.dists_sane] holds, lines 225-377. *)
Definition evaluate (s : Self) : result Self :=
  sel <- select_engine (assign_spin s) ;;
  let '(s2, c) := sel in
  let s3 := fallback (run_protocol s2 c) in
  Ok (set_out s3 (set_done (out s3) true)).

(** Lines 391-397. *)
Definition persist (s : Self) : Self :=
  if param_save_trajectories s then
    match trajectory (out s) with
    | Some t => db_write s (traj_entries 0 t)
    | None => s
    end
  else if param_dump_ase_atoms s && is_some (calc (atoms s)) && negb (assembly (flags s))
  then db_write s [mkDbEntry (positions (atoms s)) None (relax s)]
  else s.

(** Lines 380-389: restore the element labels, run the final checks and
    reset a geometry that holds a NaN. *)
Definition finish (s : Self) : Self :=
  let s1 := do_swap_actinide s in
  let s2 := if final_sanity_check (flags s1) then sanity_checks s1 else s1 in
  if any_isnan (positions (atoms s2)) then
    let m := convert_io_molecule B (in_struct s2) in
    let '(u, xu) := calc_suggested_spin B (parameters s2) m in
    set_mol s2 (with_spin m u xu)
  else s2.

(** Lines 221-223. *)
Definition pre_checks (s : Self) : Self :=
  if init_sanity_check (flags s) && param_assemble_sanity_checks s
  then sanity_checks s else s.

(** Lines 221-379: the executor when the evaluation is over, before the
    "check after done". *)
Definition evaluated (s : Self) : result Self :=
  let s1 := pre_checks s in
  if dists_sane (mol s1) then evaluate s1
  else Ok (set_out s1 (errors_append (out s1) (Message min_dist_message))).

(** [CalcExecutor.calculate] *)
Definition calculate (s : Self) : result Self :=
  s2 <- evaluated s ;;
  Ok (persist (finish s2)).

(** Constructing a [CalcExecutor]: [__init__] ends by calling [calculate]. *)
Definition CalcExecutor (a : Args) : result Self :=
  s <- init a ;; calculate s.

End Executor.

(** A small boundary for worked examples: structures convert to a molecule
    around the given atoms, the sanity checks answer [dist_ok], spin and
    element labels are left alone, and the engines are the given functions. *)
Definition example_mol (a : Atoms) (q xq : Z) : Mol :=
  mkMol a q xq 0 0 true true [] false.

Definition example_boundary (q xq : Z) (dist_ok : bool)
           (energy_of : Atoms -> result Q)
           (run_of : Atoms -> list position * list (list position) * option exc)
           (ff_energy_of : Mol -> result Q) : Boundary :=
  mkBoundary
    (fun st => match st with
               | OfAtoms a => example_mol a q xq
               | OfMol m => m
               | OfText _ => example_mol (mkAtoms [] [] [] [] None None) q xq
               end)
    (fun _ _ _ => dist_ok)
    (fun _ _ _ => true)
    (fun _ m => (uhf m, xtb_uhf m))
    (fun m => symbols (ase_atoms m))
    (fun _ => false)
    (fun _ => [])
    energy_of
    run_of
    (fun a _ => Ok (0%Q, positions a))
    ff_energy_of
    (fun m _ => Ok (positions (ase_atoms m), 0%Q)).

Definition origin : position := (Finite 0, Finite 0, Finite 0).

(** One hydrogen atom at the origin. *)
Definition one_atom : Atoms := mkAtoms ["H"] [origin] [0] [0] None None.

Definition example_args (p : Parameters) (init_check final_check relax0 assembly0 : bool)
           (m : string) : Args :=
  mkArgs (OfAtoms one_atom) p init_check final_check relax0 assembly0 m
         false false false None false false false.

(** An engine that returns and an engine that raises. *)
Definition sound_engine : Boundary :=
  example_boundary 0 0 true (fun _ => Ok (5 # 1)%Q)
                   (fun a => (positions a, [], None)) (fun _ => Ok (7 # 1)%Q).






(** The engine-specific charge is 3, the formal charge 0. *)
Definition mismatched : Boundary :=
  example_boundary 0 3 true (fun _ => Ok (5 # 1)%Q)
                   (fun a => (positions a, [], None)) (fun _ => Ok (7 # 1)%Q).


Definition assembly_parameters : Parameters :=
  mkParameters None None None None None (Some "GFN2-xTB") None None None None
               (Some "GFN2-xTB") (Some false) None (Some tt) None None None None None
               None None None None None None None false.


(** A parameter mapping that only switches the debug output on. *)
Definition debug_parameters : Parameters :=
  mkParameters (Some true) None None None None None None None None None None
               None None None None None None None None None None None None
               None None None false.


(** *** Statements about a run *)

(** What a stage of [calculate] leaves alone. *)
Record same_run (s s' : Self) : Prop := mkSameRun {
  same_flags : flags s' = flags s;
  same_in_struct : in_struct s' = in_struct s;
  same_parameters : parameters s' = parameters s
}.

(** The invariant of the outcome: a success has an energy. *)
Definition energy_recorded (o : Outcome) : Prop :=
  successful o = true -> energy o <> None.




End IoCalc.

(** ** io_symmetry.py *)
Module IoSymmetry.

(** A core-site index, a site pattern (one row of a connection array) and
    the list of patterns a ligand may take. *)
Abbreviation site := Z.
Abbreviation row := (list Z).
Abbreviation con_list := (list (list Z)).

Definition mem (x : Z) (l : list Z) : bool := existsb (Z.eqb x) l.

Definition present {A} (o : option A) : bool :=
  match o with Some _ => true | None => false end.

Definition len {A} (l : list A) : Z := Z.of_nat (List.length l).

Fixpoint sumZ (l : list Z) : Z :=
  match l with
  | [] => 0
  | x :: r => x + sumZ r
  end.

(** [a[i]] for [0 <= i]; out of range raises. *)
Definition index {A} (l : list A) (i : nat) : result A :=
  match nth_error l i with
  | Some x => Ok x
  | None => Raise IndexError
  end.

(** [np.array(rows)] for a list of integer rows: the rows of the array.  The
    empty list gives the one-dimensional empty array, which is the empty list
    here too; rows of unequal length do not form an integer array. *)
Definition rectangular (rows : con_list) : bool :=
  match rows with
  | [] => true
  | r :: t => forallb (fun r' => Nat.eqb (List.length r') (List.length r)) t
  end.

Definition np_array (rows : con_list) : result con_list :=
  if rectangular rows then Ok rows
  else Raise (ValueError "inhomogeneous shape").

(** [test_combos]: the rows of [combs] with no site in [occupied].  On the
    one-dimensional empty array [np.any(..., axis=1)] raises. *)
Definition test_combos (combs : con_list) (occupied : list Z) : result con_list :=
  match combs with
  | [] => Raise AxisError
  | _ => Ok (filter (fun r => negb (existsb (fun x => mem x occupied) r)) combs)
  end.

(** The nested list [generate_good_combos] returns: at the leaves the list
    of rows chosen so far ([prev_lig]), above them the lists [all_lig]. *)
#[warnings="-register-all"]
Inductive nested : Type :=
| Leaf (prev_lig : list row)
| Node (all_lig : list nested).

(** [len(lst)] of such a nested list. *)
Definition nested_len (t : nested) : Z :=
  match t with
  | Leaf rows => len rows
  | Node ch => len ch
  end.

(** [flatten]: all integers of the nested list, left to right. *)
Fixpoint flatten (t : nested) : list Z :=
  match t with
  | Leaf rows => List.concat rows
  | Node ch =>
      (fix go (l : list nested) : list Z :=
         match l with
         | [] => []
         | x :: r => flatten x ++ go r
         end) ch
  end.

(** The lists of rows at the leaves, left to right. *)
Fixpoint leaves (t : nested) : list (list row) :=
  match t with
  | Leaf rows => [rows]
  | Node ch =>
      (fix go (l : list nested) : list (list row) :=
         match l with
         | [] => []
         | x :: r => leaves x ++ go r
         end) ch
  end.

(** Lines 71-74: the sites taken by the rows chosen so far.  [np.hstack]
    raises when the rows are there but hold no site at all. *)
Definition occupied_of (prev_lig : list row) : result (list Z) :=
  match prev_lig with
  | [] => Ok []
  | _ => if forallb (fun r => Nat.eqb (List.length r) 0) prev_lig
         then Raise (ValueError "need at least one array to concatenate")
         else Ok (List.concat prev_lig)
  end.

(** The loop of lines 78-87 over the rows [res]; [recurse r] is the
    recursive call for the row [r] appended to [prev_lig]. *)
Fixpoint combos_loop (recurse : row -> result nested) (res : list row)
  : result (list nested) :=
  match res with
  | [] => Ok []
  | r :: rs =>
      lst <- recurse r ;;
      tl <- combos_loop recurse rs ;;
      Ok (if 0 <? nested_len lst then lst :: tl else tl)
  end.

(** [generate_good_combos(sel_input_lst, sel_ind, prev_lig, occupied_max)],
    with [rest = sel_input_lst[sel_ind:]]: the recursion only ever moves
    [sel_ind] one step forward. *)
Fixpoint good_combos_from (rest : list con_list) (prev_lig : list row)
         (occupied_max : Z) : result nested :=
  occupied <- occupied_of prev_lig ;;
  if len occupied <? occupied_max then
    match rest with
    | [] => Raise IndexError
    | combs :: rest' =>
        res <- test_combos combs occupied ;;
        all_lig <- combos_loop
                     (fun r => good_combos_from rest' (prev_lig ++ [r]) occupied_max)
                     res ;;
        Ok (Node all_lig)
    end
  else Ok (Leaf prev_lig).

Definition generate_good_combos (sel_input_lst : list con_list) (sel_ind : nat)
           (prev_lig : list row) (occupied_max : Z) : result nested :=
  good_combos_from (skipn sel_ind sel_input_lst) prev_lig occupied_max.

(** [itertools.combinations(l, n)] *)
Fixpoint combinations {A} (n : nat) (l : list A) : list (list A) :=
  match n with
  | O => [[]]
  | S k =>
      match l with
      | [] => []
      | x :: r => map (cons x) (combinations k r) ++ combinations (S k) r
      end
  end.

(** [item.sort()] on integers. *)
Fixpoint insert_sorted (x : Z) (l : list Z) : list Z :=
  match l with
  | [] => [x]
  | y :: r => if x <=? y then x :: y :: r else y :: insert_sorted x r
  end.

Fixpoint sort (l : list Z) : list Z :=
  match l with
  | [] => []
  | x :: r => insert_sorted x (sort r)
  end.

(** [not np.any(counts > 1)] for the counts of [np.unique(item)] *)
Fixpoint no_repeats (l : list Z) : bool :=
  match l with
  | [] => true
  | x :: r => negb (mem x r) && no_repeats r
  end.

(** [k] rows of width [w] cut from a flat list. *)
Fixpoint rows_of (k w : nat) (l : list Z) : list row :=
  match k with
  | O => []
  | S k' => firstn w l :: rows_of k' w (skipn w l)
  end.

(** [np.array(flat).reshape(int(len(flat)/w), w)]: dividing by zero, or a
    length that [w] does not divide, raises.  ([np.int], which line 117 calls,
    is read as the builtin [int], as in the numpy releases that still have
    it.) *)
Definition reshape (flat : list Z) (w : Z) : result (list row) :=
  if w <=? 0 then Raise OverflowError
  else
    let k := len flat / w in
    if k * w =? len flat then Ok (rows_of (Z.to_nat k) (Z.to_nat w) flat)
    else Raise ReshapeError.

(** [np.argsort(keys)]: ascending, ties in the order of the input (numpy
    sorts the short arrays met here by insertion). *)
Fixpoint argsort_insert (lt : nat -> nat -> bool) (i : nat) (l : list nat) : list nat :=
  match l with
  | [] => [i]
  | j :: r => if lt i j then i :: j :: r else j :: argsort_insert lt i r
  end.

Definition argsort_by (lt : nat -> nat -> bool) (n : nat) : list nat :=
  fold_left (fun acc i => argsort_insert lt i acc) (seq 0 n) [].

Definition argsort (keys : list Z) : list nat :=
  argsort_by (fun i j => nth i keys 0 <? nth j keys 0) (List.length keys).

(** A Python dict with tuple keys: the binding added last is found first. *)
Abbreviation refdict := (list (list Z * list (list Z))).

Definition row_eqb (a b : row) : bool :=
  Nat.eqb (List.length a) (List.length b)
  && forallb (fun p => fst p =? snd p) (combine a b).

Fixpoint dict_get (d : refdict) (k : row) : result (list row) :=
  match d with
  | [] => Raise KeyError
  | (k', v) :: r => if row_eqb k k' then Ok v else dict_get r k
  end.

(** The loop of [map_repeat_to_highdent], lines 124-129, over the rows
    [out[i:]] of the reshaped array. *)
Fixpoint highdent_loop (highdents : list (list row)) (i : nat) (out : list row)
         (reshape_out : list row) (d : refdict) : result (list row * refdict) :=
  match out with
  | [] => Ok (reshape_out, d)
  | item0 :: out' =>
      let item := sort item0 in
      if no_repeats item then
        v <- index highdents i ;;
        highdent_loop highdents (S i) out' (reshape_out ++ [item]) ((item, v) :: d)
      else highdent_loop highdents (S i) out' reshape_out d
  end.

(** [map_repeat_to_highdent(sel_con_list, nlig, denticity)] *)
Definition map_repeat_to_highdent (sel_con_list : con_list) (nlig : Z) (denticity : Z)
  : result (list row * refdict * Z) :=
  let all_combos := combinations (Z.to_nat nlig) sel_con_list in
  let flat := List.concat (map (@List.concat Z) all_combos) in
  out <- reshape flat (nlig * denticity) ;;
  r <- highdent_loop all_combos 0 out [] [] ;;
  Ok (fst r, snd r, nlig * denticity).

(** [x in hist] / [hist[x]] of lines 193-198: how often [x] came before. *)
Definition occurrences_before (x : nat) (before : list nat) : nat :=
  List.length (filter (Nat.eqb x) before).

(** [dent_order.index(item)] *)
Fixpoint list_index (x : nat) (l : list nat) : result nat :=
  match l with
  | [] => Raise (ValueError "is not in list")
  | y :: r => if Nat.eqb x y then Ok O
              else i <- list_index x r ;; Ok (S i)
  end.

(** One entry [item, dent_order.index(item), hist[item]] of [inv_inds]. *)
Abbreviation inv_ind := (nat * nat * nat)%type.

Fixpoint inv_inds_loop (dent_order : list nat) (before uinv : list nat)
  : result (list inv_ind) :=
  match uinv with
  | [] => Ok []
  | item :: r =>
      pos <- list_index item dent_order ;;
      tl <- inv_inds_loop dent_order (before ++ [item]) r ;;
      Ok ((item, pos, occurrences_before item before) :: tl)
  end.

(** The first loop of [map_all_repeat_to_highdent], lines 170-181. *)
Fixpoint intermediate_loop (ucounts : list Z) (denticities : list Z)
         (selected_con_lists : list con_list) (i : nat) (uinds : list nat)
  : result (list con_list * list Z * list (option refdict)) :=
  match uinds with
  | [] => Ok ([], [], [])
  | ind :: r =>
      c <- index ucounts i ;;
      here <-
        (if c =? 1 then
           sel <- index selected_con_lists ind ;;
           d <- index denticities ind ;;
           Ok (sel, d, None)
         else
           sel <- index selected_con_lists ind ;;
           d <- index denticities ind ;;
           m <- map_repeat_to_highdent sel c d ;;
           let '(reshape_out, rd, pseudo_dent) := m in
           Ok (reshape_out, pseudo_dent, Some rd)) ;;
      tl <- intermediate_loop ucounts denticities selected_con_lists (S i) r ;;
      let '(sel, d, rd) := here in
      let '(sels, ds, rds) := tl in
      Ok (sel :: sels, d :: ds, rd :: rds)
  end.

(** [for i,j in enumerate(dent_order)], lines 186-189. *)
Fixpoint reorder_loop (pseudo : list Z) (inter : list con_list) (dent_order : list nat)
  : result (list Z * list con_list) :=
  match dent_order with
  | [] => Ok ([], [])
  | j :: r =>
      d <- index pseudo j ;;
      sel <- index inter j ;;
      a <- np_array sel ;;
      tl <- reorder_loop pseudo inter r ;;
      Ok (d :: fst tl, a :: snd tl)
  end.

(** [map_all_repeat_to_highdent].  [inv_dicts_out] maps [i] to
    [inv_dicts_intermediate[i]] for every position [i] of [dent_order]: it
    is the list [inv_dicts_intermediate] itself, read by position. *)
Definition map_all_repeat_to_highdent (uinds uinv : list nat) (ucounts : list Z)
           (denticities : list Z) (selected_con_lists : list con_list)
  : result (option (list (option refdict)) * list con_list * list Z
            * option (list inv_ind)) :=
  if negb (existsb (fun c => 1 <? c) ucounts) then
    Ok (None, selected_con_lists, denticities, None)
  else
    im <- intermediate_loop ucounts denticities selected_con_lists 0 uinds ;;
    let '(inter, pseudo, dicts) := im in
    let dent_order := rev (argsort pseudo) in
    ro <- reorder_loop pseudo inter dent_order ;;
    inv_inds <- inv_inds_loop dent_order [] uinv ;;
    Ok (Some (firstn (List.length dent_order) dicts), snd ro, fst ro, Some inv_inds).

(** The body of the loop of [inv_map_highdent_to_repeat], lines 225-228,
    for [item = [g, pos, occ]]. *)
Definition inv_entry (incombo : list row) (inv_dicts : list (option refdict))
           (item : inv_ind) : result row :=
  let '(g, pos, occ) := item in
  d <- match nth_error inv_dicts g with
       | Some d => Ok d
       | None => Raise KeyError
       end ;;
  match d with
  | Some rd =>
      key <- index incombo pos ;;
      rows <- dict_get rd key ;;
      index rows occ
  | None => index incombo pos
  end.

(** [inv_map_highdent_to_repeat(incombo, inv_dicts, inv_inds)] *)
Fixpoint inv_map_highdent_to_repeat (incombo : list row)
         (inv_dicts : list (option refdict)) (inv_inds : list inv_ind)
  : result (list row) :=
  match inv_inds with
  | [] => Ok []
  | item :: r =>
      here <- inv_entry incombo inv_dicts item ;;
      tl <- inv_map_highdent_to_repeat incombo inv_dicts r ;;
      Ok (here :: tl)
  end.

(** The sites the ligands of group [g] hold in [fixed], in the order the
    ligands occur ([uinv] gives the group of each ligand). *)
Definition group_sites (g : nat) (uinv : list nat) (fixed : list row) : list Z :=
  List.concat (map snd (filter (fun p => Nat.eqb (fst p) g) (combine uinv fixed))).

(** An entry of a ligand's [coordList]: an atom index, or the pair
    [[atom, site]] of an atom the caller pinned to a core site. *)
Inductive coord_entry : Type :=
| Atom (i : Z)
| Pinned (i : Z) (s : site).

(** A ligand input dictionary.  [other] stands for whatever else the
    dictionary holds (it only shows in [str(x)]).  The dictionaries of one call
    are taken to be distinct objects, so that the updates the loop makes to one
    of them are not seen through another. *)
Record LigInput : Type := mkLigInput {
  smiles : string;
  coordList : list coord_entry;
  ligType : string;
  possible_core_cons : option con_list;
  ligCharge : option Z;
  other : string
}.

Definition set_possible_core_cons (l : LigInput) (c : con_list) : LigInput :=
  mkLigInput (smiles l) (coordList l) (ligType l) (Some c) (ligCharge l) (other l).
Definition set_coordList (l : LigInput) (c : list coord_entry) : LigInput :=
  mkLigInput (smiles l) c (ligType l) (possible_core_cons l) (ligCharge l) (other l).
Definition set_ligCharge (l : LigInput) (c : Z) : LigInput :=
  mkLigInput (smiles l) (coordList l) (ligType l) (possible_core_cons l) (Some c) (other l).

(** [core_geo_class]: the coordination numbers and the admissible site
    patterns per ligand class and core.  (The site vectors of
    [geometry_dict] only enter the score, which is an oracle.) *)
Record Geometry : Type := mkGeometry {
  geo_cn_dict : list (string * Z);
  liglist_geo_map_dict : list (string * list (string * con_list))
}.

Fixpoint assoc {A} (k : string) (d : list (string * A)) : option A :=
  match d with
  | [] => None
  | (k', v) :: r => if (k =? k')%string then Some v else assoc k r
  end.

Record SymParams : Type := mkSymParams {
  fill_ligand : LigInput;
  secondary_fill_ligand : LigInput;
  force_trans_oxos : bool;
  n_symmetries : nat;
  sym_debug : bool
}.

(** What [select_cons] calls outside this file: OpenBabel's total charge
    and atom count of a SMILES string, the rounded placement score of lines
    414-435 (floating point over the core's site vectors), and the order of
    the strings [str(x)] of two ligand dictionaries.  ([str] itself is not
    needed: two dictionaries have the same string exactly when they have the
    same content.) *)
Record SymBoundary : Type := mkSymBoundary {
  get_total_charge : string -> Z;
  num_atoms : string -> Z;
  out_energy : string -> list row -> list Z -> list Z -> Q;
  str_before : LigInput -> LigInput -> bool
}.

Definition coord_entry_eq_dec (a b : coord_entry) : {a = b} + {a <> b}.
Proof. decide equality; apply Z.eq_dec. Defined.

Definition option_eq_dec {A} (dec : forall a b : A, {a = b} + {a <> b})
           (a b : option A) : {a = b} + {a <> b}.
Proof. decide equality. Defined.

Definition LigInput_eq_dec (a b : LigInput) : {a = b} + {a <> b}.
Proof.
  decide equality.
  - apply string_dec.
  - apply option_eq_dec, Z.eq_dec.
  - apply option_eq_dec, list_eq_dec, list_eq_dec, Z.eq_dec.
  - apply string_dec.
  - apply list_eq_dec, coord_entry_eq_dec.
  - apply string_dec.
Defined.

Definition is_sandwich (l : LigInput) : bool :=
  ((ligType l =? "sandwich") || (ligType l =? "haptic"))%string.


(** [val[0]] and [val[1]] of a [coordList] entry; an integer entry has no
    items. *)
Definition val0 (c : coord_entry) : result coord_entry :=
  match c with Pinned i _ => Ok (Atom i) | Atom _ => Raise TypeError end.
Definition val1 (c : coord_entry) : result site :=
  match c with Pinned _ s => Ok s | Atom _ => Raise TypeError end.

Fixpoint mapM {A C} (f : A -> result C) (l : list A) : result (list C) :=
  match l with
  | [] => Ok []
  | x :: r => y <- f x ;; tl <- mapM f r ;; Ok (y :: tl)
  end.

(** Lines 265-287: the ligands with the fill ligands appended. *)
Definition add_fill_ligands (ligInputDicts : list LigInput) (tmp_cn : Z)
           (params : SymParams) : result (list LigInput) :=
  let nsand := len (filter is_sandwich ligInputDicts) in
  let n_fill_ligs :=
    if 0 <? nsand
    then tmp_cn
         - sumZ (map (fun x => len (coordList x))
                     (filter (fun x => negb (is_sandwich x)) ligInputDicts))
         - 3 * nsand
    else tmp_cn - sumZ (map (fun x => len (coordList x)) ligInputDicts) in
  let f := len (coordList (fill_ligand params)) in
  if n_fill_ligs <? 0
  then Raise (ValueError "Error - the requested complex is over-coordinated!")
  else if 0 <? n_fill_ligs then
    if f =? 0 then Raise OverflowError
    else Ok (ligInputDicts
             ++ repeat (fill_ligand params) (Z.to_nat (n_fill_ligs / f))
             ++ repeat (secondary_fill_ligand params) (Z.to_nat (n_fill_ligs mod f)))
  else Ok ligInputDicts.

(** What the loop of lines 292-345 appends for one ligand. *)
Record resolved : Type := mkResolved {
  r_lig : LigInput;
  r_cons : con_list;
  r_denticity : Z;
  r_good : bool;
  r_charge : Z;
  r_num_atoms : Z
}.

(** [len(possible_core_cons[0])] *)
Definition first_row_len (c : con_list) : result Z :=
  match c with
  | [] => Raise IndexError
  | r :: _ => Ok (len r)
  end.

Section Enumerator.

Variable B : SymBoundary.

(** The body of the loop for one ligand: the ligand as updated, its
    patterns, its denticity, whether it maps to the core, and the new value
    of [trans]. *)
Definition resolve_ligand (geo : Geometry) (coreType : string) (tmp_cn : Z)
           (params : SymParams) (trans : Z) (ligInput : LigInput)
  : result (LigInput * con_list * Z * bool * Z) :=
  let n := len (coordList ligInput) in
  if (1 <? n) && present (assoc (ligType ligInput) (liglist_geo_map_dict geo)) then
    match assoc (ligType ligInput) (liglist_geo_map_dict geo) with
    | Some per_core =>
        match assoc coreType per_core with
        | Some possible =>
            d <- first_row_len possible ;;
            Ok (ligInput, possible, d, true, trans)
        | None => Ok (ligInput, [], 0, false, trans)
        end
    | None => Raise KeyError
    end
  else if n =? 1 then
    match coordList ligInput with
    | Pinned _ st :: _ =>
        cl <- mapM val0 (coordList ligInput) ;;
        Ok (set_coordList (set_possible_core_cons ligInput [[st]]) cl,
            [[st]], 1, true, trans)
    | _ =>
        if ((smiles ligInput =? "[O-2]")%string) && force_trans_oxos params then
          if trans =? 0 then
            Ok (set_possible_core_cons ligInput [[0]], [[0]], 1, true, trans + 1)
          else if 0 <? trans then
            Ok (set_possible_core_cons ligInput [[1]], [[1]], 1, true, trans + 1)
          else Raise (ValueError "possible_core_cons referenced before assignment")
        else
          match possible_core_cons ligInput with
          | Some possible => Ok (ligInput, possible, 1, true, trans)
          | None =>
              Ok (ligInput, map (fun x => [Z.of_nat x]) (seq 0 (Z.to_nat tmp_cn)),
                  1, true, trans)
          end
    end
  else if ((ligType ligInput =? "mono")%string) && (1 <? n) then
    r <- match coordList ligInput with
         | Pinned _ _ :: _ =>
             sites <- mapM val1 (coordList ligInput) ;;
             cl <- mapM val0 (coordList ligInput) ;;
             Ok (set_coordList (set_possible_core_cons ligInput [sites]) cl, [sites])
         | _ =>
             match possible_core_cons ligInput with
             | Some possible => Ok (ligInput, possible)
             | None => Raise KeyError
             end
         end ;;
    d <- first_row_len (snd r) ;;
    Ok (fst r, snd r, d, true, trans)
  else Raise (ValueError "not in known ligTypes").

(** The loop of lines 292-345. *)
Fixpoint resolve_loop (geo : Geometry) (coreType : string) (tmp_cn : Z)
         (params : SymParams) (trans : Z) (ligs : list LigInput)
  : result (list resolved) :=
  match ligs with
  | [] => Ok []
  | ligInput :: r =>
      one <- resolve_ligand geo coreType tmp_cn params trans ligInput ;;
      let '(lig', possible, d, good, trans') := one in
      tl <- resolve_loop geo coreType tmp_cn params trans' r ;;
      Ok (mkResolved lig' possible d good
                     (get_total_charge B (smiles lig')) (num_atoms B (smiles lig')) :: tl)
  end.

End Enumerator.

(** [l[i] for i in order] *)
Definition reorder {A} (l : list A) (order : list nat) : list A :=
  flat_map (fun i => match nth_error l i with Some x => [x] | None => [] end) order.

(** [np.unique(strs, return_index=True, return_inverse=True,
    return_counts=True)] without the sorted strings themselves.  The strings
    are stood for by values of a type with decidable equality; [before x y]
    says that the string of [x] sorts before that of [y]. *)
Section Unique.

Context {A : Type}.
Variable eq_dec : forall a b : A, {a = b} + {a <> b}.
Variable before : A -> A -> bool.

Definition same (x y : A) : bool := if eq_dec x y then true else false.

Fixpoint insert_ordered (x : A) (l : list A) : list A :=
  match l with
  | [] => [x]
  | y :: r => if before x y then x :: l else y :: insert_ordered x r
  end.

(** The distinct strings, in ascending order. *)
Definition unique_sorted (strs : list A) : list A :=
  fold_left (fun acc x => if existsb (same x) acc then acc
                          else insert_ordered x acc) strs [].

Fixpoint first_index (x : A) (l : list A) : nat :=
  match l with
  | [] => O
  | y :: r => if same x y then O else S (first_index x r)
  end.

Definition np_unique (strs : list A) : list nat * list nat * list Z :=
  let u := unique_sorted strs in
  (map (fun x => first_index x strs) u,
   map (fun x => first_index x u) strs,
   map (fun x => len (filter (same x) strs)) u).

End Unique.

(** [combo[sum(d[0:j]) : sum(d[0:j]) + d] for j, d in enumerate(denticities)] *)
Fixpoint split_by (denticities : list Z) (combo : list Z) : list row :=
  match denticities with
  | [] => []
  | d :: r => firstn (Z.to_nat d) combo :: split_by r (skipn (Z.to_nat d) combo)
  end.

(** [np.argsort(out_energies)] *)
Definition argsort_energies (es : list Q) : list nat :=
  argsort_by (fun i j => negb (Qle_bool (nth j es 0%Q) (nth i es 0%Q))) (List.length es).

(** One entry [[atom, site]] of a returned ligand list, or, for a sandwich
    or haptic ligand, [[atom, sites]]. *)
Inductive tlig_entry : Type :=
| AtomSite (a : coord_entry) (s : site)
| AtomSites (a : coord_entry) (s : list site).

(** Lines 453-459 for a ligand that is not a sandwich. *)
Fixpoint pair_up (coords : list coord_entry) (i : nat) (selected : row)
  : result (list tlig_entry) :=
  match selected with
  | [] => Ok []
  | x :: r =>
      a <- index coords i ;;
      tl <- pair_up coords (S i) r ;;
      Ok (AtomSite a x :: tl)
  end.

(** Lines 451-460: one returned candidate from a combination. *)
Fixpoint expand (ligs : list LigInput) (j : nat) (out_combo : list row)
  : result (list (list tlig_entry)) :=
  match out_combo with
  | [] => Ok []
  | selected :: r =>
      lig <- index ligs j ;;
      here <- (if is_sandwich lig
               then Ok (map (fun a => AtomSites a selected) (coordList lig))
               else pair_up (coordList lig) 0 selected) ;;
      tl <- expand ligs (S j) r ;;
      Ok (here :: tl)
  end.

Section Selection.

Variable B : SymBoundary.

(** The loop of lines 406-444 over the enumerated combinations: the
    combinations kept and their scores. *)
Fixpoint score_loop (coreType : string) (denticities : list Z)
         (inverse : option (list (option refdict) * list inv_ind))
         (lig_charges lig_num_atoms : list Z)
         (combos : list row) (out_combos : list (list row)) (out_energies : list Q)
  : result (list (list row) * list Q) :=
  match combos with
  | [] => Ok (out_combos, out_energies)
  | combo0 :: r =>
      let tmp_combo := split_by denticities combo0 in
      combo <- match inverse with
               | Some (inv_dicts, inv_inds) =>
                   inv_map_highdent_to_repeat tmp_combo inv_dicts inv_inds
               | None => Ok tmp_combo
               end ;;
      let e := out_energy B coreType combo lig_charges lig_num_atoms in
      if existsb (Qeq_bool e) out_energies
      then score_loop coreType denticities inverse lig_charges lig_num_atoms r
                      out_combos out_energies
      else score_loop coreType denticities inverse lig_charges lig_num_atoms r
                      (out_combos ++ [combo]) (out_energies ++ [e])
  end.

(** The first part of [select_cons], lines 254-345: the coordination
    number of the core and the ligands, fill ligands included, resolved. *)
Definition resolved_ligands (ligInputDicts : list LigInput) (coreType : string)
           (core_geo_class : Geometry) (params : SymParams)
  : result (Z * list resolved) :=
  tmp_cn <- match assoc coreType (geo_cn_dict core_geo_class) with
            | Some cn => Ok cn
            | None => Raise KeyError
            end ;;
  ligs <- add_fill_ligands ligInputDicts tmp_cn params ;;
  res <- resolve_loop B core_geo_class coreType tmp_cn params 0 ligs ;;
  Ok (tmp_cn, res).

(** The second part of [select_cons], lines 347-471: ordering, repeat
    compaction, the search and the selection by score. *)
Definition place_ligands (coreType : string) (params : SymParams) (tmp_cn : Z)
           (res : list resolved)
  : result (list LigInput * list (list (list tlig_entry)) * bool) :=
  let dent_order := rev (argsort (map r_denticity res)) in
  let ordered := reorder res dent_order in
  let denticities := map r_denticity ordered in
  let lig_charges := map r_charge ordered in
  let lig_num_atoms := map r_num_atoms ordered in
  selected_con_lists <- mapM np_array (map r_cons ordered) ;;
  let newLigInputDicts := map (fun r => set_ligCharge (r_lig r) (r_charge r)) ordered in
  let '(uinds, uinv, ucounts) :=
    np_unique LigInput_eq_dec (str_before B) newLigInputDicts in
  m <- map_all_repeat_to_highdent uinds uinv ucounts denticities selected_con_lists ;;
  let '(inv_dicts, selected_con_lists', denticities', inv_inds) := m in
  let inverse := match inv_dicts, inv_inds with
                 | Some d, Some i => Some (d, i)
                 | _, _ => None
                 end in
  if forallb r_good res then
    good_combos <- generate_good_combos selected_con_lists' 0 [] tmp_cn ;;
    if 0 <? nested_len good_combos then
      tmp <- reshape (flatten good_combos) (sumZ denticities') ;;
      kept <- score_loop coreType denticities' inverse lig_charges lig_num_atoms
                         (firstn (Z.to_nat 10000) tmp) [] [] ;;
      let '(out_combos, out_energies) := kept in
      match out_combos with
      | [] => Ok (newLigInputDicts, [], false)
      | _ =>
          let sort_order := firstn (n_symmetries params) (argsort_energies out_energies) in
          out_liglists <- mapM (expand newLigInputDicts 0) (reorder out_combos sort_order) ;;
          Ok (newLigInputDicts, out_liglists, true)
      end
    else Ok (newLigInputDicts, [], false)
  else Ok (newLigInputDicts, [], false).

(** [select_cons]: the ligands with the fill ligands, in placement order;
    the returned candidates; and the flag [good]. *)
Definition select_cons (ligInputDicts : list LigInput) (coreType : string)
           (core_geo_class : Geometry) (params : SymParams)
  : result (list LigInput * list (list (list tlig_entry)) * bool) :=
  r <- resolved_ligands ligInputDicts coreType core_geo_class params ;;
  place_ligands coreType params (fst r) (snd r).

End Selection.

(** The sites a returned ligand list claims: the sites of its
    [[atom, site]] pairs, or, for a sandwich or haptic ligand, the site list
    all its atoms share. *)
Definition entry_sites (e : tlig_entry) : list site :=
  match e with
  | AtomSite _ x => [x]
  | AtomSites _ l => l
  end.

Definition ligand_sites (entries : list tlig_entry) : list site :=
  match entries with
  | AtomSites _ l :: _ => l
  | _ => flat_map entry_sites entries
  end.

(** The sites a candidate claims, over all its ligands. *)
Definition claimed_sites (candidate : list (list tlig_entry)) : list site :=
  List.concat (map ligand_sites candidate).

(** The patterns and the denticity the loop resolves for a ligand, read
    off the ligand dictionary as the loop leaves it. *)
Definition first_row_len' (c : con_list) : Z :=
  match c with
  | [] => 0
  | r :: _ => len r
  end.

Definition uses_template (geo : Geometry) (l : LigInput) : bool :=
  (1 <? len (coordList l)) && present (assoc (ligType l) (liglist_geo_map_dict geo)).

Definition patterns_of (geo : Geometry) (coreType : string) (tmp_cn : Z) (l : LigInput)
  : con_list :=
  if uses_template geo l then
    match assoc (ligType l) (liglist_geo_map_dict geo) with
    | Some per_core =>
        match assoc coreType per_core with
        | Some possible => possible
        | None => []
        end
    | None => []
    end
  else if len (coordList l) =? 1 then
    match possible_core_cons l with
    | Some possible => possible
    | None => map (fun x => [Z.of_nat x]) (seq 0 (Z.to_nat tmp_cn))
    end
  else match possible_core_cons l with
       | Some possible => possible
       | None => []
       end.

Definition denticity_of (geo : Geometry) (coreType : string) (tmp_cn : Z) (l : LigInput)
  : Z :=
  if uses_template geo l then first_row_len' (patterns_of geo coreType tmp_cn l)
  else if len (coordList l) =? 1 then 1
  else first_row_len' (patterns_of geo coreType tmp_cn l).

(** The resolved ligands fit the core: every pattern has as many sites as
    the ligand's denticity, which is positive, and the denticities add up to
    the coordination number. *)
Definition coordinated (cn : Z) (res : list resolved) : Prop :=
  Forall (fun r => 0 < r_denticity r
                   /\ Forall (fun pattern => len pattern = r_denticity r) (r_cons r)) res
  /\ sumZ (map r_denticity res) = cn.

(** No pattern lists a site twice. *)
Definition duplicate_free (res : list resolved) : Prop :=
  Forall (fun r => Forall (@NoDup Z) (r_cons r)) res.

(** An oxo ligand: the SMILES string [[O-2]] with one coordinating atom. *)
Definition oxo (l : LigInput) : bool :=
  ((smiles l =? "[O-2]")%string) && (len (coordList l) =? 1).



(** Lines 313-318: the pattern of an oxo when [trans] oxos came before. *)
Definition trans_pattern (trans : Z) : con_list :=
  if trans =? 0 then [[0]] else [[1]].

(** *** Example inputs *)

Definition example_sym_boundary : SymBoundary :=
  mkSymBoundary (fun _ => 0) (fun _ => 1)
                (fun _ combo _ _ => inject_Z (sumZ (List.concat combo)))
                (fun a b => String.ltb (smiles a ++ other a) (smiles b ++ other b)).

Definition example_geometry : Geometry :=
  mkGeometry [("linear", 2); ("trigonal_planar", 3)]
             [("bi_cis", [("trigonal_planar", [[0; 1]; [1; 2]; [0; 2]])])].

Definition water : LigInput := mkLigInput "O" [Atom 0] "mono" None None "".

Definition example_sym_params (trans_oxos : bool) : SymParams :=
  mkSymParams water water trans_oxos 10 false.

Definition chloride : LigInput := mkLigInput "[Cl-]" [Atom 0] "mono" None None "".
Definition ammonia : LigInput := mkLigInput "N" [Atom 0] "mono" None None "".

(** A 'mono' ligand whose two atoms the caller pinned to the same site. *)
Definition pinned_twice : LigInput :=
  mkLigInput "OCCO" [Pinned 0 1; Pinned 3 1] "mono" None None "".



(** *** [flatten] on any nested list *)

(** A Python value as [flatten] sees it: a list, or anything else (an
    integer here). *)
#[warnings="-register-all"]
Inductive pyval : Type :=
| PInt (z : Z)
| PList (l : list pyval).

(** What one item of the list contributes to [flatten(S)]: itself, or the
    flattened list it is. *)
Fixpoint flatten_item (v : pyval) : list pyval :=
  match v with
  | PInt _ => [v]
  | PList l =>
      (fix go (l : list pyval) : list pyval :=
         match l with
         | [] => []
         | x :: r => flatten_item x ++ go r
         end) l
  end.

(** [flatten(S)], lines 30-48.  (The recursion is that of the source, one
    call per item; the interpreter's recursion limit is not modelled.) *)
Definition py_flatten (S : list pyval) : list pyval := flat_map flatten_item S.

(** The Python list [generate_good_combos] returns. *)
Fixpoint as_pylist (t : nested) : list pyval :=
  match t with
  | Leaf rows => map (fun r => PList (map PInt r)) rows
  | Node ch =>
      (fix go (l : list nested) : list pyval :=
         match l with
         | [] => []
         | x :: r => PList (as_pylist x) :: go r
         end) ch
  end.

(** The sites the ligands ask for, lines 265-269: three for a sandwich or
    haptic ligand, one per coordinating atom otherwise. *)
Definition sites_needed (ligInputDicts : list LigInput) : Z :=
  sumZ (map (fun x => if is_sandwich x then 3 else len (coordList x)) ligInputDicts).

(** *** Statements about the enumeration *)

(** What the reverse map holds: every key is the sorted, repeat-free
    content of the combination it maps to. *)
Definition dict_sound (highdents : list (list row)) (d : refdict) : Prop :=
  forall k v, In (k, v) d -> In v highdents /\ k = sort (List.concat v) /\ NoDup k.

Definition rows_mapped (reshape_out : list row) (d : refdict) : Prop :=
  forall r, In r reshape_out -> exists v, In (r, v) d.

(** What the first loop of [map_all_repeat_to_highdent] leaves for the
    group at position [j]. *)
Definition group_compacted (ucounts denticities : list Z) (selected_con_lists : list con_list)
           (inter : list con_list) (pseudo : list Z) (dicts : list (option refdict))
           (i j ind : nat) : Prop :=
  exists c sel d,
    nth_error ucounts (i + j) = Some c
    /\ nth_error selected_con_lists ind = Some sel
    /\ nth_error denticities ind = Some d
    /\ ((c = 1 /\ nth_error inter j = Some sel /\ nth_error dicts j = Some None
         /\ nth_error pseudo j = Some d)
        \/ (c <> 1 /\ exists ro rd,
               map_repeat_to_highdent sel c d = Ok (ro, rd, c * d)
               /\ nth_error inter j = Some ro
               /\ nth_error dicts j = Some (Some rd)
               /\ nth_error pseudo j = Some (c * d))).

(** What [np.unique] returns: the group of every string is a valid group,
    and the count of a group is the number of strings in it. *)
Definition unique_data (n : nat) (uinds uinv : list nat) (ucounts : list Z) : Prop :=
  List.length ucounts = List.length uinds
  /\ List.length uinv = n
  /\ (forall g, In g uinv -> (g < List.length uinds)%nat)
  /\ (forall g, (g < List.length uinds)%nat ->
                nth_error ucounts g = Some (Z.of_nat (occurrences_before g uinv))).

(** A leaf of the search from [prev]: rows picked one per ligand, each
    free of the sites picked before, until [cn] sites are taken. *)
Inductive picked (cn : Z) : list con_list -> list row -> list row -> Prop :=
| picked_done rest prev :
    cn <= len (List.concat prev) -> picked cn rest prev prev
| picked_step combs rest prev r L :
    len (List.concat prev) < cn ->
    In r combs ->
    (forall x, In x r -> ~ In x (List.concat prev)) ->
    picked cn rest (prev ++ [r]) L ->
    picked cn (combs :: rest) prev L.

(** The lists the search runs over fit their denticities: every row of
    the [i]-th list has [dents[i] > 0] sites. *)
Definition patterns_fit (rest : list con_list) (dents : list Z) : Prop :=
  Forall2 (fun sel d => 0 < d /\ Forall (fun r => len r = d) sel) rest dents.

(** What the resolution loop fixes for each ligand. *)
Definition determined (geo : Geometry) (ct : string) (cn : Z) (r : resolved) : Prop :=
  r_cons r = patterns_of geo ct cn (r_lig r)
  /\ r_denticity r = denticity_of geo ct cn (r_lig r)
  /\ coordList (r_lig r) <> [].

(** What [place_ligands] runs the search over, for resolved ligands in
    placement order: the groups of equal dictionaries and the compacted
    lists. *)
Record placement (B : SymBoundary) (res ordered : list resolved) (uinds uinv : list nat) (ucounts : list Z)
       (invd : option (list (option refdict))) (sel' : list con_list) (dents' : list Z)
       (invi : option (list inv_ind)) : Prop := mkPlacement {
  placed_perm : Permutation res ordered;
  placed_unique :
    np_unique LigInput_eq_dec (str_before B)
              (map (fun r => set_ligCharge (r_lig r) (r_charge r)) ordered)
    = (uinds, uinv, ucounts);
  placed_compacted :
    map_all_repeat_to_highdent uinds uinv ucounts (map r_denticity ordered)
                               (map r_cons ordered)
    = Ok (invd, sel', dents', invi)
}.

(** C3 as the specification words it: every candidate [select_cons]
    returns claims no site twice, and as many sites as the core has. *)
Definition sites_disjoint (B : SymBoundary) (ligs : list LigInput) (ct : string)
           (geo : Geometry) (ps : SymParams) : Prop :=
  forall l cands good cand,
    select_cons B ligs ct geo ps = Ok (l, cands, good) ->
    In cand cands ->
    NoDup (claimed_sites cand)
    /\ assoc ct (geo_cn_dict geo) = Some (len (claimed_sites cand)).

(** C10 as the specification words it: the first oxo gets the pattern
    {0}, every later one {1}, and with three oxos or more [select_cons]
    returns, with no candidate. *)
Definition trans_oxos (B : SymBoundary) (ligs : list LigInput) (ct : string)
           (geo : Geometry) (ps : SymParams) : Prop :=
  force_trans_oxos ps = true ->
  (forall cn res k l,
      resolved_ligands B ligs ct geo ps = Ok (cn, res) ->
      nth_error ligs k = Some l -> oxo l = true ->
      exists r, nth_error res k = Some r
                /\ r_cons r = trans_pattern (len (filter oxo (firstn k ligs))))
  /\ (3 <= len (filter oxo ligs) ->
      exists l good, select_cons B ligs ct geo ps = Ok (l, [], good)).

End IoSymmetry.

(** ** io_neb.py *)
Module IoNeb.
Import IoCalc.

(** The chain of images before the interpolation, lines 17-19. *)
Definition band (initial_atoms final_atoms : Atoms) (nimages : Z) : list Atoms :=
  [initial_atoms] ++ repeat initial_atoms (Z.to_nat (nimages - 2)) ++ [final_atoms].

(** What [NEB_setup] calls besides the executor: the path alignment of
    [io_align_mol] and ASE's [NEB].  [neb_raises] is the exception, if any,
    of building and interpolating the band; [interpolated] is the geometry
    ASE's [interpolate] gives the interior image of index [i] (ASE leaves the
    two end images as they are). *)
Record NebBoundary : Type := mkNebBoundary {
  neb_align : Atoms -> Atoms -> Atoms;
  neb_raises : bool -> string -> list Atoms -> option exc;
  interpolated : string -> list Atoms -> nat -> list position
}.

Record NEB : Type := mkNEB {
  images : list Atoms;
  climb : bool
}.

(** [CalcExecutor(image, method=neb_method)]: every other argument at its
    default. *)
Definition neb_args (image : Atoms) (neb_method : string) : Args :=
  mkArgs (OfAtoms image) empty_parameters false false false false neb_method
         false false false None false false false.

(** [neb.interpolate(method=interpolation)] on the images from index [i]. *)
Fixpoint interpolate_from (NB : NebBoundary) (interpolation : string) (all : list Atoms)
         (i : nat) (l : list Atoms) : list Atoms :=
  match l with
  | [] => []
  | a :: r =>
      (if (0 <? i)%nat && (S i <? List.length all)%nat
       then set_positions a (interpolated NB interpolation all i)
       else a) :: interpolate_from NB interpolation all (S i) r
  end.

Fixpoint evaluate_images (B : Boundary) (neb_method : string) (l : list Atoms)
  : result (list Atoms) :=
  match l with
  | [] => Ok []
  | image :: r =>
      out <- CalcExecutor B (neb_args image neb_method) ;;
      tl <- evaluate_images B neb_method r ;;
      Ok (ase_atoms (mol out) :: tl)
  end.

(** [NEB_setup(initial, final, nimages, neb_method, interpolation, climb)] *)
Definition NEB_setup (B : Boundary) (NB : NebBoundary) (initial final : Structure)
           (nimages : Z) (neb_method interpolation : string) (climb : bool)
  : result NEB :=
  let initial_mol := convert_io_molecule B initial in
  let final_mol := convert_io_molecule B final in
  let final_mol_ase := neb_align NB (ase_atoms initial_mol) (ase_atoms final_mol) in
  let images := band (ase_atoms initial_mol) final_mol_ase nimages in
  match neb_raises NB climb interpolation images with
  | Some e => Raise e
  | None =>
      neb_images <- evaluate_images B neb_method
                      (interpolate_from NB interpolation images 0 images) ;;
      Ok (mkNEB neb_images climb)
  end.

(** A band for worked examples: the alignment keeps the final structure
    and the interpolation puts every interior image at the origin. *)
Definition example_neb : NebBoundary :=
  mkNebBoundary (fun _ final_atoms => final_atoms) (fun _ _ _ => None)
                (fun _ _ _ => [origin]).

Definition far_atom : Atoms :=
  mkAtoms ["H"] [(Finite (2 # 1), Finite 0, Finite 0)] [0] [0] None None.

End IoNeb.

(** ** vibrations_free_energy.py *)
Module Vibrations.

(** Floating-point and complex arithmetic, numpy's [linalg.eigh] (which
    raises when the eigenvalue computation does not converge) and the two
    unit constants of [ase.units] the function uses. *)
Record Numerics : Type := mkNumerics {
  F : Type;
  C : Type;
  fzero : F;
  fone : F;
  fadd : F -> F -> F;
  fsub : F -> F -> F;
  fmul : F -> F -> F;
  fdiv : F -> F -> F;
  fneg : F -> F;
  fsqrt : F -> F;
  finv_sqrt : F -> F;                 (* [x**-0.5] *)
  is_zero : F -> bool;
  eigh : list (list F) -> result (list F * list (list F));
  to_complex : F -> C;                (* [astype(complex)] *)
  csqrt : C -> C;                     (* [z**0.5] *)
  cscale : F -> C -> C;               (* real times complex *)
  cdiv : C -> F -> C;
  unit_conversion : F;
  invcm : F
}.

Section Analysis.

Variable N : Numerics.

#[local] Abbreviation F := (F N).
#[local] Abbreviation C := (C N).

(** The atoms as the analysis reads them: masses and positions. *)
Record VAtoms : Type := mkVAtoms {
  get_masses : list F;
  get_positions : list (F * F * F)
}.

Record VibResult : Type := mkVibResult {
  energies : list C;
  modes : list (list (list F));
  fconstants : list C;
  rmasses : list F;
  frequencies : list C
}.

Definition fsum (l : list F) : F := fold_left (fadd N) l (fzero N).

Definition fsq (x : F) : F := fmul N x x.

(** [np.repeat(v, 3)] *)
Definition repeat3 (v : list F) : list F := flat_map (fun x => [x; x; x]) v.

(** [a * v] for a matrix [a] and a vector [v]: every row times [v],
    entry by entry. *)
Definition rows_times (a : list (list F)) (v : list F) : list (list F) :=
  map (fun r => map (fun p => fmul N (fst p) (snd p)) (combine r v)) a.

(** [v * a] is the same product with the factors in the other order. *)
Definition times_rows (v : list F) (a : list (list F)) : list (list F) :=
  map (fun r => map (fun p => fmul N (fst p) (snd p)) (combine v r)) a.

(** [a * v[:, np.newaxis]]: row [i] times [v[i]]. *)
Definition rows_scaled (a : list (list F)) (v : list F) : list (list F) :=
  map (fun p => map (fun x => fmul N x (snd p)) (fst p)) (combine a v).

Definition column (j : nat) (a : list (list F)) : list F :=
  map (fun r => nth j r (fzero N)) a.

(** [a.T] for a matrix of [w] columns. *)
Definition transpose (w : nat) (a : list (list F)) : list (list F) :=
  map (fun j => column j a) (seq 0 w).

(** [np.linalg.norm(a, axis=0)] for a matrix of [w] columns. *)
Definition column_norms (w : nat) (a : list (list F)) : list F :=
  map (fun j => fsqrt N (fsum (map fsq (column j a)))) (seq 0 w).

(** [row.reshape(n_atoms, 3)] *)
Fixpoint triples (n : nat) (r : list F) : list (list F) :=
  match n with
  | O => []
  | S k => firstn 3 r :: triples k (skipn 3 r)
  end.

Definition is_square (n : nat) (a : list (list F)) : bool :=
  Nat.eqb (List.length a) n && forallb (fun r => Nat.eqb (List.length r) n) a.

Definition dot3 (p : F * F * F) (r : list F) : F :=
  let '(x, y, z) := p in
  fadd N (fadd N (fmul N x (nth 0 r (fzero N))) (fmul N y (nth 1 r (fzero N))))
       (fmul N z (nth 2 r (fzero N))).

Definition entry (a : list (list F)) (i j : nat) : F :=
  nth j (nth i a []) (fzero N).

(** Lines 66-67: the positions relative to the centre of mass. *)
Definition centered_positions (atoms : VAtoms) : list (F * F * F) :=
  let ms := get_masses atoms in
  let mp := combine ms (get_positions atoms) in
  let total := fsum ms in
  let cx := fdiv N (fsum (map (fun q => fmul N (fst q) (fst (fst (snd q)))) mp)) total in
  let cy := fdiv N (fsum (map (fun q => fmul N (fst q) (snd (fst (snd q)))) mp)) total in
  let cz := fdiv N (fsum (map (fun q => fmul N (fst q) (snd (snd q))) mp)) total in
  map (fun p => let '(x, y, z) := p in (fsub N x cx, fsub N y cy, fsub N z cz))
      (get_positions atoms).

(** Lines 69-79: the inertia tensor. *)
Definition inertia_tensor (atoms : VAtoms) : list (list F) :=
  let mc := combine (get_masses atoms) (centered_positions atoms) in
  let acc (f : F -> F * F * F -> F) : F := fsum (map (fun q => f (fst q) (snd q)) mc) in
  let mxy := acc (fun m p => let '(x, y, z) := p in fmul N (fneg N m) (fmul N x y)) in
  let mxz := acc (fun m p => let '(x, y, z) := p in fmul N (fneg N m) (fmul N x z)) in
  let myz := acc (fun m p => let '(x, y, z) := p in fmul N (fneg N m) (fmul N y z)) in
  [ [ acc (fun m p => let '(x, y, z) := p in fmul N m (fadd N (fsq y) (fsq z))); mxy; mxz ];
    [ mxy; acc (fun m p => let '(x, y, z) := p in fmul N m (fadd N (fsq x) (fsq z))); myz ];
    [ mxz; myz; acc (fun m p => let '(x, y, z) := p in fmul N m (fadd N (fsq x) (fsq y))) ] ].

(** Lines 81-97: the rows [D[3*i+j, :]] of the six-column basis. *)
Definition basis_rows (X : list (list F)) (m : F) (c : F * F * F) : list (list F) :=
  let s := fsqrt N m in
  let rot (a b j : nat) : F :=
    fmul N s (fsub N (fmul N (dot3 c (nth a X [])) (entry X j b))
                     (fmul N (dot3 c (nth b X [])) (entry X j a))) in
  map (fun j =>
         [ if Nat.eqb j 0 then s else fzero N;
           if Nat.eqb j 1 then s else fzero N;
           if Nat.eqb j 2 then s else fzero N;
           rot 1%nat 2%nat j; rot 2%nat 0%nat j; rot 0%nat 1%nat j ])
      (seq 0 3).

(** Lines 64-99: the block run under [project_out_rot_trans]; its value is
    the basis [D]. *)
Definition projection_basis (atoms : VAtoms) : result (list (list F)) :=
  ev <- eigh N (inertia_tensor atoms) ;;
  let X := snd ev in
  Ok (flat_map (fun q => basis_rows X (fst q) (snd q))
               (combine (get_masses atoms) (centered_positions atoms))).

(** [vibration_analysis(atoms, hess, project_out_rot_trans, mode_type)],
    for a Hessian of shape (3N, 3N).  The value is what the function
    returns or raises; the shape it prints under the flag is not part of it. *)
Definition vibration_analysis (atoms : VAtoms) (hess : list (list F))
           (project_out_rot_trans : bool) (mode_type : string) : result VibResult :=
  let n_atoms := List.length (get_masses atoms) in
  let masses := get_masses atoms in
  if existsb (is_zero N) masses
  then Raise (ValueError "Zero mass encountered in one or more of the vibrated atoms.")
  else
    let mass_weights := repeat3 (map (finv_sqrt N) masses) in
    if negb (is_square (3 * n_atoms) hess)
    then Raise (ValueError "operands could not be broadcast together")
    else
      let mweight_H := rows_scaled (times_rows mass_weights hess) mass_weights in
      _ <- (if project_out_rot_trans
            then D <- projection_basis atoms ;; Ok tt
            else Ok tt) ;;
      ev <- eigh N mweight_H ;;
      let '(eig_values, eig_vectors) := ev in
      let w := (3 * n_atoms)%nat in
      let energies :=
        map (fun v => cscale N (unit_conversion N) (csqrt N (to_complex N v))) eig_values in
      let frequencies := map (fun e => cdiv N e (invcm N)) energies in
      let mw_normalized := transpose w eig_vectors in
      let md_unnormalized := rows_times mw_normalized mass_weights in
      let norm_factors := map (fdiv N (fone N)) (column_norms w md_unnormalized) in
      let md_normalized := rows_times md_unnormalized norm_factors in
      let rmasses := map fsq norm_factors in
      let fconstants :=
        map (fun p => cscale N (snd p) (to_complex N (fst p))) (combine eig_values rmasses) in
      modes <-
        (if (mode_type =? "direct_eigen_vectors")%string
         then Ok (map (triples n_atoms) mw_normalized)
         else if (mode_type =? "mass_weighted_unnormalized")%string
         then Ok (map (triples n_atoms) md_unnormalized)
         else if (mode_type =? "mass_weighted_normalized")%string
         then Ok (map (triples n_atoms) md_normalized)
         else Raise (ValueError "Mode Type requested unknown.")) ;;
      Ok (mkVibResult energies modes fconstants rmasses frequencies).

End Analysis.

(** Rational arithmetic for worked examples.  The roots are exact at 0 and
    1 and the eigendecomposition is exact on diagonal matrices, which is all
    the examples use. *)
Definition diagonal (m : list (list Q)) : list Q :=
  map (fun i => nth i (nth i m []) 0%Q) (seq 0 (List.length m)).

Definition identity (n : nat) : list (list Q) :=
  map (fun i => map (fun j => if Nat.eqb i j then 1%Q else 0%Q) (seq 0 n)) (seq 0 n).

Definition rational_numerics : Numerics :=
  mkNumerics Q Q 0%Q 1%Q Qplus Qminus Qmult Qdiv Qopp
             (fun x => x) (fun x => x) (Qeq_bool 0%Q)
             (fun m => Ok (diagonal m, identity (List.length m)))
             (fun x => x) (fun x => x) Qmult Qdiv 1%Q 1%Q.

(** One atom of mass 1 at the origin, with a vanishing Hessian. *)
Definition resting_atom : VAtoms rational_numerics :=
  mkVAtoms rational_numerics [1%Q] [(0%Q, 0%Q, 0%Q)].

Definition flat_hessian : list (list Q) :=
  [[0%Q; 0%Q; 0%Q]; [0%Q; 0%Q; 0%Q]; [0%Q; 0%Q; 0%Q]].

(** [np.linalg.eigh] of an [n] by [n] matrix returns [n] eigenvalues and an
    [n] by [n] matrix of eigenvectors. *)
Definition eigh_shaped (N : Numerics) : Prop :=
  forall m vals vecs,
    eigh N m = Ok (vals, vecs) ->
    List.length vals = List.length m
    /\ List.length vecs = List.length m
    /\ Forall (fun r => List.length r = List.length m) vecs.

End Vibrations.

(** * Properties *)

Lemma bind_ok {A C} (r : result A) (k : A -> result C) (c : C) :
  bind r k = Ok c -> exists a, r = Ok a /\ k a = Ok c.
Proof.
  destruct r as [a|e]; simpl; intros H; [exists a; auto | discriminate].
Qed.

Ltac inv_bind H :=
  let a := fresh "a" in
  let Ha := fresh "Ha" in
  apply bind_ok in H; destruct H as [a [Ha H]].

Ltac break_match :=
  match goal with
  | |- context [match ?x with _ => _ end] => destruct x eqn:?
  end.

Ltac break_match_hyp H :=
  match type of H with
  | context [match ?x with _ => _ end] => destruct x eqn:?
  end.

Ltac run_inv :=
  repeat match goal with
  | H : bind _ _ = Ok _ |- _ => inv_bind H
  | H : Ok _ = Ok _ |- _ => inversion H; subst; clear H
  | H : Raise _ = Ok _ |- _ => discriminate H
  | H : (_, _) = (_, _) |- _ => inversion H; subst; clear H
  | H : context [match ?x with _ => _ end] |- _ => destruct x eqn:?
  end.

(** ** The calculation executor *)
Module CalcProps.
Import IoCalc.

Lemma same_run_refl s : same_run s s.
Proof. split; reflexivity. Qed.

Lemma same_run_trans s1 s2 s3 : same_run s1 s2 -> same_run s2 s3 -> same_run s1 s3.
Proof. intros [a b c] [a' b' c']; split; congruence. Qed.

Section Stages.

Variable B : Boundary.

Lemma sanity_checks_keeps s :
  same_run s (sanity_checks B s)
  /\ out (sanity_checks B s) = out s
  /\ engine_calls (sanity_checks B s) = engine_calls s
  /\ ase_atoms (mol (sanity_checks B s)) = ase_atoms (mol s)
  /\ method (sanity_checks B s) = method s
  /\ relax (sanity_checks B s) = relax s.
Proof. repeat split. Qed.

Lemma pre_checks_keeps s :
  same_run s (pre_checks B s)
  /\ out (pre_checks B s) = out s
  /\ engine_calls (pre_checks B s) = engine_calls s
  /\ ase_atoms (mol (pre_checks B s)) = ase_atoms (mol s)
  /\ method (pre_checks B s) = method s
  /\ relax (pre_checks B s) = relax s.
Proof.
  unfold pre_checks. break_match; [apply sanity_checks_keeps | repeat split].
Qed.

Lemma assign_spin_keeps s :
  same_run s (assign_spin B s)
  /\ out (assign_spin B s) = out s
  /\ engine_calls (assign_spin B s) = engine_calls s
  /\ ase_atoms (mol (assign_spin B s)) = ase_atoms (mol s)
  /\ method (assign_spin B s) = method s
  /\ relax (assign_spin B s) = relax s.
Proof.
  unfold assign_spin. break_match; [|repeat split].
  destruct (calc_suggested_spin B (parameters s) (mol s)); repeat split.
Qed.

Lemma select_engine_keeps s s' c :
  select_engine B s = Ok (s', c) ->
  same_run s s'
  /\ out s' = out s
  /\ engine_calls s' = engine_calls s
  /\ positions (atoms s') = positions (atoms s).
Proof.
  unfold select_engine. intros H.
  run_inv; repeat split.
Qed.

Lemma finish_out s : out (finish B s) = out s.
Proof.
  unfold finish. repeat break_match; reflexivity.
Qed.

Lemma persist_out s : out (persist s) = out (s).
Proof.
  unfold persist. repeat break_match; reflexivity.
Qed.

Lemma persist_keeps s :
  mol (persist s) = mol s /\ engine_calls (persist s) = engine_calls s
  /\ method (persist s) = method s /\ relax (persist s) = relax s
  /\ flags (persist s) = flags s.
Proof.
  unfold persist. repeat break_match; repeat split.
Qed.

Lemma finish_keeps s :
  engine_calls (finish B s) = engine_calls s
  /\ method (finish B s) = method s /\ relax (finish B s) = relax s
  /\ flags (finish B s) = flags s.
Proof.
  unfold finish. repeat break_match; repeat split.
Qed.

Lemma try_except_cases (body : Self * option exc) (h : Self -> exc -> Self) :
  (exists s e, body = (s, Some e) /\ try_except body h = h s e)
  \/ (exists s, body = (s, None) /\ try_except body h = s).
Proof.
  destruct body as [s [e|]]; simpl; eauto.
Qed.

Lemma engine_relax_try_recorded s :
  energy_recorded (out s) ->
  energy_recorded (out (fst (engine_relax_try B s))).
Proof.
  unfold energy_recorded, engine_relax_try.
  repeat break_match; simpl; intros; try congruence; auto.
Qed.

Lemma engine_single_point_try_recorded s :
  energy_recorded (out s) ->
  energy_recorded (out (fst (engine_single_point_try B s))).
Proof.
  unfold energy_recorded, engine_single_point_try.
  repeat break_match; simpl; intros; try congruence; auto.
Qed.

Lemma engine_handler_recorded s e : energy_recorded (out (engine_handler s e)).
Proof. unfold energy_recorded; simpl; congruence. Qed.

Lemma ff_relax_recorded s :
  energy_recorded (out s) -> energy_recorded (out (ff_relax B s)).
Proof.
  unfold energy_recorded, ff_relax, ff_handler.
  repeat break_match; simpl; intros; try congruence; auto.
Qed.

Lemma ff_single_point_recorded s :
  energy_recorded (out s) -> energy_recorded (out (ff_single_point B s)).
Proof.
  unfold energy_recorded, ff_single_point, ff_handler.
  repeat break_match; simpl; intros; try congruence; auto.
Qed.

Lemma run_protocol_recorded s c :
  energy_recorded (out s) -> energy_recorded (out (run_protocol B s c)).
Proof.
  intros H. unfold run_protocol.
  destruct c as [cl|].
  - assert (H' : energy_recorded (out (attach s cl))) by exact H.
    break_match.
    + unfold engine_relax.
      set (s0 := freeze_first_component B (attach s cl)).
      assert (H0 : energy_recorded (out s0)).
      { unfold s0, freeze_first_component. break_match; exact H'. }
      pose proof (engine_relax_try_recorded s0 H0) as Ht.
      destruct (engine_relax_try B s0) as [s1 [e|]]; simpl in *;
        break_match; simpl; try apply engine_handler_recorded; try exact Ht;
        unfold energy_recorded; simpl; congruence.
    + unfold engine_single_point.
      pose proof (engine_single_point_try_recorded _ H') as Ht.
      destruct (engine_single_point_try B (attach s cl)) as [s1 [e|]]; simpl in *;
        [apply engine_handler_recorded | exact Ht].
  - break_match; [apply ff_relax_recorded | apply ff_single_point_recorded]; exact H.
Qed.

Lemma fallback_recorded s :
  energy_recorded (out s) -> energy_recorded (out (fallback B s)).
Proof.
  intros H. unfold fallback. break_match; [apply ff_single_point_recorded|]; exact H.
Qed.

Lemma init_out a s :
  init B a = Ok s ->
  out s = mkOutcome None None [] false None None false /\ engine_calls s = [].
Proof.
  unfold init. intros H. run_inv. split; reflexivity.
Qed.

Lemma evaluated_recorded s s' :
  energy_recorded (out s) -> evaluated B s = Ok s' -> energy_recorded (out s').
Proof.
  intros H He. unfold evaluated in He.
  destruct (pre_checks_keeps s) as [_ [Ho _]].
  destruct (dists_sane (mol (pre_checks B s))).
  - unfold evaluate in He. inv_bind He. destruct a as [s2 c].
    apply select_engine_keeps in Ha. destruct Ha as [_ [Ho2 _]].
    destruct (assign_spin_keeps (pre_checks B s)) as [_ [Ho1 _]].
    inversion He; subst; clear He.
    assert (Hf : energy_recorded (out (fallback B (run_protocol B s2 c)))).
    { apply fallback_recorded, run_protocol_recorded. rewrite Ho2, Ho1, Ho. exact H. }
    unfold energy_recorded in *; simpl. exact Hf.
  - inversion He; subst; clear He. unfold energy_recorded in *; simpl. rewrite Ho. exact H.
Qed.

Lemma engine_relax_try_flags s : same_run s (fst (engine_relax_try B s)).
Proof.
  unfold engine_relax_try. repeat break_match; split; reflexivity.
Qed.

Lemma engine_single_point_try_flags s : same_run s (fst (engine_single_point_try B s)).
Proof.
  unfold engine_single_point_try. repeat break_match; split; reflexivity.
Qed.

Lemma try_except_flags s body :
  same_run s (fst body) -> same_run s (try_except body engine_handler).
Proof.
  destruct body as [s1 [e|]]; simpl; intros [a b c]; split; simpl; assumption.
Qed.

Lemma run_protocol_flags s c : same_run s (run_protocol B s c).
Proof.
  unfold run_protocol. destruct c as [cl|].
  - assert (Ha : same_run s (attach s cl)) by (split; reflexivity).
    break_match.
    + unfold engine_relax.
      assert (Hf : same_run s (freeze_first_component B (attach s cl))).
      { unfold freeze_first_component. break_match; split; reflexivity. }
      pose proof (try_except_flags _ _
        (same_run_trans _ _ _ Hf (engine_relax_try_flags _))) as [a b c].
      break_match; split; simpl; assumption.
    + unfold engine_single_point.
      apply try_except_flags, (same_run_trans _ _ _ Ha), engine_single_point_try_flags.
  - unfold ff_relax, ff_single_point, ff_handler.
    repeat break_match; split; reflexivity.
Qed.

Lemma fallback_flags s : same_run s (fallback B s).
Proof.
  unfold fallback, ff_single_point, ff_handler. repeat break_match; split; reflexivity.
Qed.



Lemma evaluated_same_run s s' : evaluated B s = Ok s' -> same_run s s'.
Proof.
  unfold evaluated, evaluate. intros H.
  destruct (pre_checks_keeps s) as [H0 _].
  destruct (dists_sane (mol (pre_checks B s))).
  - inv_bind H. destruct a as [s2 c]. inversion H; subst; clear H.
    destruct (assign_spin_keeps (pre_checks B s)) as [H1 _].
    apply select_engine_keeps in Ha. destruct Ha as [H2 _].
    pose proof (run_protocol_flags s2 c) as H3.
    pose proof (fallback_flags (run_protocol B s2 c)) as H4.
    pose proof (same_run_trans _ _ _ H0 (same_run_trans _ _ _ H1
                  (same_run_trans _ _ _ H2 (same_run_trans _ _ _ H3 H4)))) as [a b c0].
    split; simpl; assumption.
  - inversion H; subst; clear H. destruct H0 as [a b c]. split; simpl; assumption.
Qed.

(** [finish] either keeps the geometry or, on a NaN, takes the geometry of
    the converted input. *)
Lemma finish_positions s :
  positions (atoms (finish B s))
  = if any_isnan (positions (atoms s))
    then positions (ase_atoms (convert_io_molecule B (in_struct s)))
    else positions (atoms s).
Proof.
  unfold finish.
  assert (Hp : positions (atoms (if final_sanity_check (flags (do_swap_actinide B s))
                                 then sanity_checks B (do_swap_actinide B s)
                                 else do_swap_actinide B s))
               = positions (atoms s)) by (break_match; reflexivity).
  assert (Hi : in_struct (if final_sanity_check (flags (do_swap_actinide B s))
                          then sanity_checks B (do_swap_actinide B s)
                          else do_swap_actinide B s)
               = in_struct s) by (break_match; reflexivity).
  rewrite Hp. destruct (any_isnan (positions (atoms s))).
  - rewrite Hi. break_match. reflexivity.
  - exact Hp.
Qed.

Lemma init_fields a s :
  init B a = Ok s ->
  in_struct s = a_structure a /\ mol s = convert_io_molecule B (a_structure a).
Proof.
  unfold init. intros H. run_inv. split; reflexivity.
Qed.

(** Without relaxation no stage of the evaluation moves an atom. *)
Lemma select_engine_relax s s' c :
  select_engine B s = Ok (s', c) -> relax s = false -> relax s' = false.
Proof.
  unfold select_engine. intros H Hr. run_inv; simpl; auto.
Qed.

Lemma single_point_positions s c :
  relax s = false ->
  positions (atoms (fallback B (run_protocol B s c))) = positions (atoms s).
Proof.
  intros Hr.
  assert (Hp : positions (atoms (run_protocol B s c)) = positions (atoms s)).
  { unfold run_protocol. destruct c as [cl|].
    - replace (relax (attach s cl)) with false by (symmetry; exact Hr).
      unfold engine_single_point, engine_single_point_try.
      break_match; reflexivity.
    - rewrite Hr. unfold ff_single_point, ff_handler. break_match; reflexivity. }
  unfold fallback. break_match; [|exact Hp].
  unfold ff_single_point, ff_handler. break_match; exact Hp.
Qed.

Lemma evaluated_single_point s s' :
  relax s = false -> evaluated B s = Ok s' ->
  positions (atoms s') = positions (atoms s).
Proof.
  unfold evaluated, evaluate. intros Hr H.
  destruct (pre_checks_keeps s) as [_ [_ [_ [Ha0 [_ Hr0]]]]].
  destruct (dists_sane (mol (pre_checks B s))).
  - inv_bind H. destruct a as [s2 c]. inversion H; subst; clear H.
    destruct (assign_spin_keeps (pre_checks B s)) as [_ [_ [_ [Ha1 [_ Hr1]]]]].
    pose proof (select_engine_relax _ _ _ Ha) as Hr2.
    apply select_engine_keeps in Ha. destruct Ha as [_ [_ [_ Hp2]]].
    simpl. change (positions (atoms (fallback B (run_protocol B s2 c)))
                   = positions (atoms s)).
    rewrite single_point_positions.
    + rewrite Hp2. unfold atoms. rewrite Ha1, Ha0. reflexivity.
    + apply Hr2. rewrite Hr1, Hr0. exact Hr.
  - inversion H; subst; clear H. simpl. unfold atoms in *. simpl. rewrite Ha0. reflexivity.
Qed.

End Stages.

(** C9.  At the end of every construction, on every path, a successful
    outcome has its energy set: [successful] starts false and each path sets
    it together with the energy. *)
Theorem successful_implies_energy (B : Boundary) (a : Args) (s : Self) :
  CalcExecutor B a = Ok s ->
  successful (out s) = true ->
  energy (out s) <> None.
Proof.
  unfold CalcExecutor, calculate. intros H.
  inv_bind H. inv_bind H. inversion H; subst; clear H.
  rewrite persist_out, finish_out.
  apply (evaluated_recorded B a0 a1); [|exact Ha0].
  apply init_out in Ha. destruct Ha as [Ho _]. rewrite Ho.
  unfold energy_recorded; simpl; discriminate.
Qed.

(** C9, at a run of the sound engine. *)
Lemma successful_implies_energy_witness :
  exists s, CalcExecutor sound_engine (example_args empty_parameters false false false false "GFN2-xTB") = Ok s
            /\ successful (out s) = true /\ energy (out s) <> None.
Proof.
  eexists. split; [reflexivity|]. split; [reflexivity|].
  apply (successful_implies_energy sound_engine
           (example_args empty_parameters false false false false "GFN2-xTB") _ eq_refl eq_refl).
Defined.










(** C5.  An assembly evaluation on the 'gfn' path whose engine charge (3)
    differs from the formal charge (0) by more than 1: relaxation is switched
    off, but the method stays 'GFN2-xTB' and the state vectors carry the
    engine charge; the branch that sets 'GFN-FF' is not reached. *)
Theorem assembly_mismatch_not_downgraded :
  exists s, CalcExecutor mismatched
              (example_args assembly_parameters false false false true "GFN2-xTB") = Ok s
            /\ assembly (flags s) = true
            /\ (1 <? Z.abs (xtb_charge (mol s) - charge (mol s))) = true
            /\ method s = "GFN2-xTB"
            /\ relax s = false
            /\ initial_charges (atoms s) = [3].
Proof.
  eexists. split; [vm_compute; reflexivity|]. vm_compute. repeat split.
Qed.

End CalcProps.

(** ** The NEB set-up *)
Module NebProps.
Import IoCalc IoNeb CalcProps.

Lemma neb_init_relax (B : Boundary) (image : Atoms) (m : string) (s : Self) :
  init B (neb_args image m) = Ok s -> relax s = false.
Proof.
  unfold init. cbn. intros H. inversion H. reflexivity.
Qed.

(** A single point through the executor returns the geometry of the
    converted image. *)
Lemma neb_image_positions (B : Boundary) (image : Atoms) (m : string) (s : Self) :
  CalcExecutor B (neb_args image m) = Ok s ->
  positions (atoms s) = positions (ase_atoms (convert_io_molecule B (OfAtoms image))).
Proof.
  unfold CalcExecutor, calculate. intros H.
  inv_bind H. inv_bind H. inversion H; subst; clear H.
  destruct (persist_keeps (finish B a0)) as [Hm _].
  unfold atoms at 1. rewrite Hm. fold (atoms (finish B a0)).
  rewrite finish_positions.
  pose proof (neb_init_relax B image m a Ha) as Hr.
  pose proof (evaluated_single_point B a a0 Hr Ha0) as Hp.
  pose proof (evaluated_same_run B a a0 Ha0) as [_ Hs _].
  destruct (init_fields B _ _ Ha) as [Hi Hmol].
  rewrite Hs, Hi, Hp. unfold atoms. rewrite Hmol. simpl.
  destruct (any_isnan _); reflexivity.
Qed.

Lemma evaluate_images_positions (B : Boundary) (m : string) :
  (forall a, positions (ase_atoms (convert_io_molecule B (OfAtoms a))) = positions a) ->
  forall l l', evaluate_images B m l = Ok l' -> map positions l' = map positions l.
Proof.
  intros Hc. induction l as [|x r IH]; simpl; intros l' H.
  - inversion H; reflexivity.
  - inv_bind H. inv_bind H. inversion H; subst; clear H. simpl.
    rewrite (IH _ Ha0). f_equal.
    rewrite <- (Hc x). apply (neb_image_positions B x m a Ha).
Qed.

Lemma interpolate_from_length NB ip all k l :
  List.length (interpolate_from NB ip all k l) = List.length l.
Proof.
  revert k. induction l as [|x r IH]; simpl; intros k; [reflexivity|].
  rewrite IH. reflexivity.
Qed.

Lemma interpolate_from_nth NB ip all l : forall k i x,
  nth_error l i = Some x ->
  nth_error (interpolate_from NB ip all k l) i
  = Some (if (0 <? k + i)%nat && (S (k + i) <? List.length all)%nat
          then set_positions x (interpolated NB ip all (k + i))
          else x).
Proof.
  induction l as [|y r IH]; intros k i x H.
  - destruct i; discriminate.
  - destruct i as [|i]; simpl in *.
    + inversion H; subst. rewrite Nat.add_0_r. reflexivity.
    + rewrite (IH (S k) i x H). rewrite <- plus_n_Sm. reflexivity.
Qed.

Lemma band_length a b n : 2 <= n -> List.length (band a b n) = Z.to_nat n.
Proof.
  intros H. unfold band. rewrite !length_app, repeat_length. simpl. lia.
Qed.

Lemma band_first a b n : nth_error (band a b n) 0 = Some a.
Proof. reflexivity. Qed.

Lemma band_last a b n :
  2 <= n -> nth_error (band a b n) (Z.to_nat n - 1) = Some b.
Proof.
  intros H. unfold band.
  change ([a] ++ repeat a (Z.to_nat (n - 2)) ++ [b])
    with ((a :: repeat a (Z.to_nat (n - 2))) ++ [b]).
  rewrite nth_error_app2; simpl; rewrite repeat_length; [|lia].
  replace (Z.to_nat n - 1 - S (Z.to_nat (n - 2)))%nat with 0%nat by lia.
  reflexivity.
Qed.

Lemma nth_error_map_positions (l l' : list Atoms) i :
  map positions l' = map positions l ->
  option_map positions (nth_error l' i) = option_map positions (nth_error l i).
Proof.
  intros H. rewrite <- !nth_error_map. rewrite H. reflexivity.
Qed.

(** C8.  A path built with [nimages >= 2] has [nimages] images; the first
    has the geometry of the initial structure, the last that of the final
    structure aligned onto the initial one, and each interior image the
    geometry the interpolation gave it.  (Structure conversion keeps the
    coordinates of an [Atoms] input.) *)
Theorem neb_chain_endpoints (B : Boundary) (NB : NebBoundary) (initial final : Structure)
        (nimages : Z) (neb_method interpolation : string) (climb0 : bool) (neb : NEB) :
  (forall a, positions (ase_atoms (convert_io_molecule B (OfAtoms a))) = positions a) ->
  2 <= nimages ->
  NEB_setup B NB initial final nimages neb_method interpolation climb0 = Ok neb ->
  let initial_atoms := ase_atoms (convert_io_molecule B initial) in
  let final_atoms := neb_align NB initial_atoms (ase_atoms (convert_io_molecule B final)) in
  List.length (images neb) = Z.to_nat nimages
  /\ option_map positions (nth_error (images neb) 0) = Some (positions initial_atoms)
  /\ option_map positions (nth_error (images neb) (Z.to_nat nimages - 1))
     = Some (positions final_atoms)
  /\ forall i, (0 < i)%nat -> (i < Z.to_nat nimages - 1)%nat ->
       option_map positions (nth_error (images neb) i)
       = Some (interpolated NB interpolation
                 (band initial_atoms final_atoms nimages) i).
Proof.
  intros Hc Hn H ia fa. unfold NEB_setup in H. fold ia in H. fold fa in H.
  destruct (neb_raises NB climb0 interpolation (band ia fa nimages)); [discriminate|].
  inv_bind H. inversion H; subst; clear H. cbn [images].
  pose proof (evaluate_images_positions B neb_method Hc _ _ Ha) as Hp.
  pose proof (band_length ia fa nimages Hn) as Hl.
  split.
  { rewrite <- (length_map positions), Hp, length_map, interpolate_from_length. exact Hl. }
  split.
  { rewrite (nth_error_map_positions _ _ 0 Hp).
    rewrite (interpolate_from_nth NB interpolation _ _ 0 0 ia (band_first ia fa nimages)).
    reflexivity. }
  split.
  { rewrite (nth_error_map_positions _ _ _ Hp).
    rewrite (interpolate_from_nth NB interpolation _ _ 0 _ fa (band_last ia fa nimages Hn)).
    cbn [option_map Nat.add]. rewrite Hl.
    replace (S (Z.to_nat nimages - 1) <? Z.to_nat nimages)%nat with false.
    - rewrite andb_false_r. reflexivity.
    - symmetry. apply Nat.ltb_ge. lia. }
  intros i Hi0 Hi1.
  rewrite (nth_error_map_positions _ _ _ Hp).
  destruct (nth_error (band ia fa nimages) i) as [x|] eqn:Hx.
  - rewrite (interpolate_from_nth NB interpolation _ _ 0 i x Hx).
    cbn [option_map Nat.add]. rewrite Hl.
    replace (0 <? i)%nat with true by (symmetry; apply Nat.ltb_lt; lia).
    replace (S i <? Z.to_nat nimages)%nat with true by (symmetry; apply Nat.ltb_lt; lia).
    reflexivity.
  - apply nth_error_None in Hx. lia.
Qed.

End NebProps.

(** C8, at a three-image band between two one-atom structures. *)
Lemma neb_chain_endpoints_witness :
  exists neb,
    IoNeb.NEB_setup IoCalc.sound_engine IoNeb.example_neb
      (IoCalc.OfAtoms IoCalc.one_atom) (IoCalc.OfAtoms IoNeb.far_atom)
      3 "GFN2-xTB" "idpp" true = Ok neb
    /\ List.length (IoNeb.images neb) = 3%nat
    /\ option_map IoCalc.positions (nth_error (IoNeb.images neb) 2)
       = Some (IoCalc.positions IoNeb.far_atom).
Proof.
  eexists. split; [reflexivity|].
  pose proof (NebProps.neb_chain_endpoints IoCalc.sound_engine IoNeb.example_neb
                (IoCalc.OfAtoms IoCalc.one_atom) (IoCalc.OfAtoms IoNeb.far_atom)
                3 "GFN2-xTB" "idpp" true _ (fun a => eq_refl)
                ltac:(intro H; discriminate H)
                eq_refl) as H.
  split; [exact (proj1 H) | exact (proj1 (proj2 (proj2 H)))].
Defined.

(** ** The vibrational analysis *)
Module VibProps.
Import Vibrations.



End VibProps.

(** ** The symmetry enumerator *)
Module SymProps.
Import IoSymmetry.

Lemma mem_In x l : mem x l = true <-> In x l.
Proof.
  unfold mem. rewrite existsb_exists. split.
  - intros [y [Hy He]]. apply Z.eqb_eq in He. subst. exact Hy.
  - intros H. exists x. split; [exact H | apply Z.eqb_refl].
Qed.

Lemma no_repeats_NoDup l : no_repeats l = true <-> NoDup l.
Proof.
  induction l as [|x r IH]; simpl.
  - split; [constructor | reflexivity].
  - rewrite andb_true_iff, negb_true_iff, IH. split.
    + intros [Hm Hr]. constructor; [|exact Hr].
      intros Hin. apply mem_In in Hin. congruence.
    + intros H. inversion H; subst. split; [|assumption].
      destruct (mem x r) eqn:Hm; [|reflexivity].
      apply mem_In in Hm. contradiction.
Qed.

Lemma insert_sorted_perm x l : Permutation (insert_sorted x l) (x :: l).
Proof.
  induction l as [|y r IH]; simpl; [apply Permutation_refl|].
  destruct (x <=? y); [apply Permutation_refl|].
  eapply Permutation_trans; [apply perm_skip, IH | apply perm_swap].
Qed.

Lemma sort_perm l : Permutation (sort l) l.
Proof.
  induction l as [|x r IH]; simpl; [constructor|].
  eapply Permutation_trans; [apply insert_sorted_perm | apply perm_skip, IH].
Qed.

Lemma row_eqb_eq a : forall b, row_eqb a b = true <-> a = b.
Proof.
  unfold row_eqb. induction a as [|x r IH]; intros [|y t]; simpl;
    try (split; [discriminate | discriminate]); [split; reflexivity|].
  specialize (IH t). rewrite andb_true_iff in *. simpl. rewrite andb_true_iff.
  split.
  - intros [Hl [Hxy Hr]]. apply Z.eqb_eq in Hxy. subst.
    f_equal. apply IH. split; assumption.
  - intros H. inversion H; subst. destruct (proj2 IH eq_refl) as [Hl Hr].
    repeat split; [exact Hl | apply Z.eqb_refl | exact Hr].
Qed.

(** Combinations are made of rows of the list, as many as asked. *)
Lemma combinations_spec {A} (n : nat) : forall (l : list A) c,
  In c (combinations n l) -> List.length c = n /\ (forall x, In x c -> In x l).
Proof.
  induction n as [|n IH]; intros l c H.
  - destruct l; simpl in H; destruct H as [H|[]]; subst;
      (split; [reflexivity | intros x []]).
  - induction l as [|y r IHl]; simpl in H; [destruct H|].
    apply in_app_or in H. destruct H as [H|H].
    + apply in_map_iff in H. destruct H as [c' [Hc Hin]]. subst.
      destruct (IH r c' Hin) as [Hl Hs]. split; [simpl; congruence|].
      intros x [Hx|Hx]; [left; exact Hx | right; apply Hs; exact Hx].
    + destruct (IHl H) as [Hl Hs]. split; [exact Hl|].
      intros x Hx. right. apply Hs. exact Hx.
Qed.

Lemma rows_of_concat (w : nat) : forall cs : list (list Z),
  Forall (fun c => List.length c = w) cs ->
  rows_of (List.length cs) w (List.concat cs) = cs.
Proof.
  intros cs H. induction H as [|c r Hc Hr IH]; simpl; [reflexivity|].
  rewrite firstn_app, skipn_app.
  replace (w - List.length c)%nat with 0%nat by lia.
  rewrite firstn_O, app_nil_r, skipn_O.
  rewrite firstn_all2 by lia. rewrite skipn_all2 by lia.
  simpl. rewrite IH. reflexivity.
Qed.

Lemma concat_length_uniform (w : nat) (cs : list (list Z)) :
  Forall (fun c => List.length c = w) cs ->
  List.length (List.concat cs) = (List.length cs * w)%nat.
Proof.
  intros H. induction H as [|c r Hc Hr IH]; simpl; [reflexivity|].
  rewrite length_app, IH, Hc. reflexivity.
Qed.

Lemma index_ok {A} (l : list A) i x : index l i = Ok x <-> nth_error l i = Some x.
Proof.
  unfold index. destruct (nth_error l i); split; intros H; inversion H; reflexivity.
Qed.

Lemma dict_get_found (d : refdict) k v :
  In (k, v) d -> exists v', dict_get d k = Ok v' /\ In (k, v') d.
Proof.
  induction d as [|[k' w] r IH]; simpl; [intros []|].
  intros H. destruct (row_eqb k k') eqn:He.
  - apply row_eqb_eq in He. subst. exists w. split; [reflexivity | left; reflexivity].
  - destruct H as [H|H].
    + inversion H; subst. rewrite (proj2 (row_eqb_eq k k) eq_refl) in He. discriminate.
    + destruct (IH H) as [v' [Hg Hin]]. exists v'. split; [exact Hg | right; exact Hin].
Qed.

Lemma highdent_loop_spec : forall rest pre reshape_out d ro' d',
  highdent_loop (pre ++ rest) (List.length pre) (map (@List.concat Z) rest) reshape_out d
  = Ok (ro', d') ->
  dict_sound (pre ++ rest) d -> rows_mapped reshape_out d ->
  dict_sound (pre ++ rest) d' /\ rows_mapped ro' d'.
Proof.
  induction rest as [|c rest IH]; intros pre ro d ro' d' H Hs Hm.
  - simpl in H. inversion H; subst. split; assumption.
  - cbn [highdent_loop map] in H. cbv zeta in H.
    destruct (no_repeats (sort (@List.concat Z c))) eqn:Hn.
    + inv_bind H.
      apply index_ok in Ha. rewrite nth_error_app2 in Ha by lia.
      rewrite Nat.sub_diag in Ha. simpl in Ha. inversion Ha; subst a; clear Ha.
      replace (pre ++ c :: rest) with ((pre ++ [c]) ++ rest) in *
        by (rewrite <- app_assoc; reflexivity).
      replace (S (List.length pre)) with (List.length (pre ++ [c])) in H
        by (rewrite length_app; simpl; lia).
      apply IH in H; [exact H | |].
      * intros k v [Hkv|Hkv].
        -- inversion Hkv; subst. repeat split.
           ++ apply in_or_app. left. apply in_or_app. right. left. reflexivity.
           ++ apply no_repeats_NoDup. exact Hn.
        -- apply Hs. exact Hkv.
      * intros r Hr. apply in_app_or in Hr. destruct Hr as [Hr|[Hr|[]]].
        -- destruct (Hm r Hr) as [v Hv]. exists v. right. exact Hv.
        -- subst. exists c. left. reflexivity.
    + replace (pre ++ c :: rest) with ((pre ++ [c]) ++ rest) in *
        by (rewrite <- app_assoc; reflexivity).
      replace (S (List.length pre)) with (List.length (pre ++ [c])) in H
        by (rewrite length_app; simpl; lia).
      apply IH in H; assumption.
Qed.

Lemma combinations_nil {A} (n : nat) :
  List.concat (map (@List.concat A) (combinations n [])) = [].
Proof. destruct n; reflexivity. Qed.

(** [map_repeat_to_highdent]: every compacted row is repeat free and maps
    back to [nlig] rows of the original list that hold the same sites. *)
Lemma map_repeat_to_highdent_spec (sel : con_list) (nlig D : Z) ro rd pd :
  map_repeat_to_highdent sel nlig D = Ok (ro, rd, pd) ->
  0 <= nlig ->
  Forall (fun r => len r = D) sel ->
  pd = nlig * D
  /\ forall crow, In crow ro ->
       exists rows, dict_get rd crow = Ok rows
                    /\ List.length rows = Z.to_nat nlig
                    /\ (forall r, In r rows -> In r sel)
                    /\ Permutation (List.concat rows) crow
                    /\ NoDup crow
                    /\ len crow = nlig * D.
Proof.
  unfold map_repeat_to_highdent. intros H Hn Hrows.
  inv_bind H. inv_bind H. inversion H; subst; clear H.
  split; [reflexivity|].
  unfold reshape in Ha. destruct (nlig * D <=? 0) eqn:Hw; [discriminate|].
  apply Z.leb_gt in Hw.
  match type of Ha with context [if ?c then _ else _] => destruct c eqn:Hk end;
    [|discriminate].
  inversion Ha; subst a; clear Ha. apply Z.eqb_eq in Hk.
  destruct sel as [|r0 sel'].
  - rewrite combinations_nil in Ha0. simpl in Ha0. inversion Ha0; subst.
    intros crow [].
  - assert (HD : 0 < D /\ 0 < nlig).
    { inversion Hrows; subst. unfold len in *. nia. }
    destruct HD as [HD HN].
    set (sel := r0 :: sel') in *.
    set (combos := combinations (Z.to_nat nlig) sel) in *.
    assert (Hc : Forall (fun c => List.length c = Z.to_nat (nlig * D))
                        (map (@List.concat Z) combos)).
    { apply Forall_forall. intros x Hx. apply in_map_iff in Hx.
      destruct Hx as [c [Hx Hin]]. subst x.
      destruct (combinations_spec _ _ _ Hin) as [Hl Hs].
      rewrite (concat_length_uniform (Z.to_nat D)).
      - rewrite Hl. lia.
      - apply Forall_forall. intros r Hr. apply Hs in Hr.
        rewrite Forall_forall in Hrows. specialize (Hrows r Hr). unfold len in Hrows. lia. }
    assert (Hout : rows_of (Z.to_nat (len (List.concat (map (@List.concat Z) combos))
                                      / (nlig * D)))
                           (Z.to_nat (nlig * D))
                           (List.concat (map (@List.concat Z) combos))
                   = map (@List.concat Z) combos).
    { rewrite <- (rows_of_concat _ _ Hc) at 3. f_equal.
      unfold len. rewrite (concat_length_uniform _ _ Hc).
      rewrite Nat2Z.inj_mul, Z2Nat.id by lia.
      rewrite Z.div_mul by lia. rewrite Nat2Z.id. reflexivity. }
    rewrite Hout in Ha0. destruct a0 as [ro' rd']. simpl.
    apply (highdent_loop_spec combos [] [] [] ro' rd') in Ha0.
    + destruct Ha0 as [Hs Hm]. intros crow Hin.
      destruct (Hm crow Hin) as [v Hv].
      destruct (dict_get_found _ _ _ Hv) as [v' [Hg Hin']].
      destruct (Hs _ _ Hin') as [Hc' [Hk' Hnd]].
      destruct (combinations_spec _ _ _ Hc') as [Hl Hsub].
      exists v'. repeat split; auto.
      * rewrite Hk'. apply Permutation_sym, sort_perm.
      * rewrite Hk'. unfold len. rewrite (Permutation_length (sort_perm _)).
        rewrite (concat_length_uniform (Z.to_nat D)).
        -- rewrite Hl. lia.
        -- apply Forall_forall. intros r Hr. apply Hsub in Hr.
           rewrite Forall_forall in Hrows. specialize (Hrows r Hr).
           unfold len in Hrows. lia.
    + intros k v [].
    + intros r [].
Qed.

Lemma argsort_insert_perm lt i l : Permutation (argsort_insert lt i l) (i :: l).
Proof.
  induction l as [|j r IH]; simpl; [apply Permutation_refl|].
  destruct (lt i j); [apply Permutation_refl|].
  eapply Permutation_trans; [apply perm_skip, IH | apply perm_swap].
Qed.

Lemma argsort_by_perm lt n : Permutation (argsort_by lt n) (seq 0 n).
Proof.
  unfold argsort_by.
  assert (H : forall l acc,
             Permutation (fold_left (fun acc i => argsort_insert lt i acc) l acc)
                         (acc ++ l)).
  { induction l as [|x r IH]; intros acc; simpl.
    - rewrite app_nil_r. apply Permutation_refl.
    - eapply Permutation_trans; [apply IH|].
      eapply Permutation_trans;
        [apply Permutation_app_tail, argsort_insert_perm|].
      simpl. apply Permutation_middle. }
  apply (H (seq 0 n) []).
Qed.

(** The placement order is a permutation of the positions. *)
Lemma dent_order_perm keys :
  Permutation (rev (argsort keys)) (seq 0 (List.length keys)).
Proof.
  eapply Permutation_trans; [apply Permutation_sym, Permutation_rev|].
  apply argsort_by_perm.
Qed.

Lemma list_index_spec x l i : list_index x l = Ok i -> nth_error l i = Some x.
Proof.
  revert i. induction l as [|y r IH]; simpl; intros i H; [discriminate|].
  destruct (Nat.eqb x y) eqn:He.
  - inversion H; subst. apply Nat.eqb_eq in He. subst. reflexivity.
  - inv_bind H. inversion H; subst. simpl. apply IH. exact Ha.
Qed.

Lemma list_index_total x l : In x l -> exists i, list_index x l = Ok i.
Proof.
  induction l as [|y r IH]; simpl; [intros []|].
  intros H. destruct (Nat.eqb x y) eqn:He; [eexists; reflexivity|].
  destruct H as [H|H].
  - subst. rewrite Nat.eqb_refl in He. discriminate.
  - destruct (IH H) as [i Hi]. rewrite Hi. eexists. reflexivity.
Qed.

Lemma intermediate_loop_spec ucounts denticities sels : forall uinds i inter pseudo dicts,
  intermediate_loop ucounts denticities sels i uinds = Ok (inter, pseudo, dicts) ->
  List.length inter = List.length uinds
  /\ List.length pseudo = List.length uinds
  /\ List.length dicts = List.length uinds
  /\ forall j ind, nth_error uinds j = Some ind ->
        group_compacted ucounts denticities sels inter pseudo dicts i j ind.
Proof.
  induction uinds as [|ind0 r IH]; intros i inter pseudo dicts H.
  - simpl in H. inversion H; subst. repeat split. intros [|j] ind Hj; discriminate.
  - simpl in H. inv_bind H. inv_bind H. inv_bind H.
    destruct a0 as [[sel0 d0] rd0]. destruct a1 as [[sels' ds'] rds'].
    inversion H; subst; clear H.
    destruct (IH _ _ _ _ Ha1) as [Hl1 [Hl2 [Hl3 Hrest]]].
    simpl. repeat split; try congruence.
    intros [|j] ind Hj; simpl in Hj.
    + inversion Hj; subst ind0; clear Hj.
      apply index_ok in Ha. unfold group_compacted. rewrite Nat.add_0_r.
      destruct (a =? 1) eqn:Hc.
      * apply Z.eqb_eq in Hc. subst a.
        inv_bind Ha0. inv_bind Ha0. inversion Ha0; subst; clear Ha0.
        apply index_ok in Ha2, Ha3.
        exists 1, sel0, d0.
        split; [exact Ha|]. split; [exact Ha2|]. split; [exact Ha3|].
        left. repeat split.
      * apply Z.eqb_neq in Hc.
        inv_bind Ha0. inv_bind Ha0. inv_bind Ha0.
        destruct a2 as [[ro rd] pd]. inversion Ha0; subst; clear Ha0.
        apply index_ok in Ha2, Ha3.
        exists a, a0, a1.
        split; [exact Ha|]. split; [exact Ha2|]. split; [exact Ha3|].
        right. split; [exact Hc|].
        assert (Hpd : d0 = a * a1).
        { clear - Ha4. unfold map_repeat_to_highdent in Ha4. run_inv. reflexivity. }
        subst d0. exists sel0, rd. repeat split. exact Ha4.
    + destruct (Hrest j ind Hj) as [c [sel [d [Hc [Hs [Hd Hcase]]]]]].
      exists c, sel, d. rewrite <- plus_n_Sm.
      split; [exact Hc|]. split; [exact Hs|]. split; [exact Hd|]. exact Hcase.
Qed.

Lemma np_array_ok rows a : np_array rows = Ok a -> a = rows.
Proof.
  unfold np_array. destruct (rectangular rows); intros H; inversion H; reflexivity.
Qed.

Lemma reorder_loop_spec pseudo inter : forall order ds sels',
  reorder_loop pseudo inter order = Ok (ds, sels') ->
  List.length sels' = List.length order
  /\ List.length ds = List.length order
  /\ forall p j, nth_error order p = Some j ->
        exists sel d, nth_error inter j = Some sel /\ nth_error sels' p = Some sel
                      /\ nth_error pseudo j = Some d /\ nth_error ds p = Some d.
Proof.
  induction order as [|j0 r IH]; intros ds sels' H; simpl in H.
  - inversion H; subst. repeat split. intros [|p] j Hp; discriminate.
  - inv_bind H. inv_bind H. inv_bind H. inv_bind H.
    destruct a2 as [ds0 sels0]. inversion H; subst; clear H. simpl.
    destruct (IH _ _ Ha2) as [Hl [Hl' Hrest]].
    apply np_array_ok in Ha1. subst a1. apply index_ok in Ha, Ha0.
    repeat split; try congruence.
    intros [|p] j Hp; simpl in Hp.
    + inversion Hp; subst. exists a0, a. repeat split; assumption.
    + apply Hrest. exact Hp.
Qed.

Lemma inv_inds_loop_spec order : forall uinv before l,
  inv_inds_loop order before uinv = Ok l ->
  List.length l = List.length uinv
  /\ forall k g, nth_error uinv k = Some g ->
        exists pos, nth_error l k
                    = Some (g, pos, occurrences_before g (before ++ firstn k uinv))
                    /\ nth_error order pos = Some g.
Proof.
  induction uinv as [|x r IH]; intros before l H; simpl in H.
  - inversion H; subst. split; [reflexivity|]. intros [|k] g Hk; discriminate.
  - inv_bind H. inv_bind H. inversion H; subst; clear H.
    destruct (IH _ _ Ha0) as [Hl Hrest]. split; [simpl; congruence|].
    intros [|k] g Hk; simpl in Hk.
    + inversion Hk; subst. exists a. simpl. rewrite app_nil_r.
      split; [reflexivity | apply list_index_spec; exact Ha].
    + destruct (Hrest k g Hk) as [pos [Hn Ho]]. exists pos. simpl.
      rewrite <- app_assoc in Hn. simpl in Hn. split; assumption.
Qed.

Lemma inv_map_spec incombo dicts : forall inds fixed,
  inv_map_highdent_to_repeat incombo dicts inds = Ok fixed ->
  List.length fixed = List.length inds
  /\ forall k e, nth_error inds k = Some e ->
        exists r, nth_error fixed k = Some r /\ inv_entry incombo dicts e = Ok r.
Proof.
  induction inds as [|e0 r IH]; intros fixed H; simpl in H.
  - inversion H; subst. split; [reflexivity|]. intros [|k] e Hk; discriminate.
  - inv_bind H. inv_bind H. inversion H; subst; clear H.
    destruct (IH _ Ha0) as [Hl Hrest]. split; [simpl; congruence|].
    intros [|k] e Hk; simpl in Hk.
    + inversion Hk; subst. exists a. split; [reflexivity | exact Ha].
    + apply Hrest. exact Hk.
Qed.

Lemma inv_map_total incombo dicts : forall inds,
  (forall e, In e inds -> exists r, inv_entry incombo dicts e = Ok r) ->
  exists fixed, inv_map_highdent_to_repeat incombo dicts inds = Ok fixed.
Proof.
  induction inds as [|e0 r IH]; intros H; simpl.
  - eexists; reflexivity.
  - destruct (H e0 (or_introl eq_refl)) as [r0 Hr0]. rewrite Hr0. simpl.
    destruct (IH (fun e He => H e (or_intror He))) as [fixed Hf]. rewrite Hf. simpl.
    eexists; reflexivity.
Qed.

Lemma skipn_cons_nth {A} (l : list A) : forall m x,
  nth_error l m = Some x -> skipn m l = x :: skipn (S m) l.
Proof.
  induction l as [|y r IH]; intros [|m] x H; simpl in *; try discriminate.
  - inversion H; reflexivity.
  - apply IH. exact H.
Qed.

Lemma occurrences_before_app x a b :
  occurrences_before x (a ++ b)
  = (occurrences_before x a + occurrences_before x b)%nat.
Proof.
  unfold occurrences_before. rewrite filter_app, length_app. reflexivity.
Qed.

(** The rows of one group, in the order its ligands occur, are the rows
    [rows[0], rows[1], ...] the reverse map gave. *)
Lemma group_rows (rows : list row) (g : nat) : forall uinv before fixed,
  List.length fixed = List.length uinv ->
  (forall k, nth_error uinv k = Some g ->
             nth_error fixed k
             = nth_error rows (occurrences_before g (before ++ firstn k uinv))) ->
  (occurrences_before g before + occurrences_before g uinv <= List.length rows)%nat ->
  map snd (filter (fun p => Nat.eqb (fst p) g) (combine uinv fixed))
  = firstn (occurrences_before g uinv) (skipn (occurrences_before g before) rows).
Proof.
  induction uinv as [|x r IH]; intros before fixed Hl Hk Hb.
  - reflexivity.
  - destruct fixed as [|f fr]; [discriminate|]. simpl in Hl.
    assert (Hrest : forall k, nth_error r k = Some g ->
              nth_error fr k
              = nth_error rows (occurrences_before g ((before ++ [x]) ++ firstn k r))).
    { intros k Hg. rewrite <- app_assoc. apply (Hk (S k)). exact Hg. }
    simpl. destruct (Nat.eqb x g) eqn:He.
    + apply Nat.eqb_eq in He. subst x. simpl.
      assert (Hocc : occurrences_before g (g :: r) = S (occurrences_before g r)).
      { unfold occurrences_before. simpl. rewrite Nat.eqb_refl. reflexivity. }
      rewrite Hocc in *.
      specialize (Hk 0%nat eq_refl). simpl in Hk. rewrite app_nil_r in Hk.
      rewrite (skipn_cons_nth rows _ f (eq_sym Hk)). simpl. f_equal.
      rewrite (IH (before ++ [g]) fr); [| lia | exact Hrest |].
      * rewrite occurrences_before_app.
        assert (H1 : occurrences_before g [g] = 1%nat)
          by (unfold occurrences_before; simpl; rewrite Nat.eqb_refl; reflexivity).
        rewrite H1, Nat.add_1_r. reflexivity.
      * rewrite occurrences_before_app.
        assert (H1 : occurrences_before g [g] = 1%nat)
          by (unfold occurrences_before; simpl; rewrite Nat.eqb_refl; reflexivity).
        lia.
    + assert (Hocc : occurrences_before g (x :: r) = occurrences_before g r).
      { unfold occurrences_before. simpl. rewrite Nat.eqb_sym, He. reflexivity. }
      assert (H0 : occurrences_before g (before ++ [x]) = occurrences_before g before).
      { rewrite occurrences_before_app. unfold occurrences_before at 2. simpl.
        rewrite Nat.eqb_sym, He. simpl. lia. }
      rewrite Hocc in *.
      rewrite (IH (before ++ [x]) fr); [| lia | exact Hrest |]; rewrite H0;
        [reflexivity | exact Hb].
Qed.

Section UniqueProps.

Context {A : Type}.
Variable eq_dec : forall a b : A, {a = b} + {a <> b}.
Variable before : A -> A -> bool.

Lemma same_true x y : same eq_dec x y = true <-> x = y.
Proof.
  unfold same. destruct (eq_dec x y); split; intros H; congruence.
Qed.

Lemma same_refl x : same eq_dec x x = true.
Proof. apply same_true. reflexivity. Qed.

Lemma insert_ordered_perm x l : Permutation (insert_ordered before x l) (x :: l).
Proof.
  induction l as [|y r IH]; simpl; [apply Permutation_refl|].
  destruct (before x y); [apply Permutation_refl|].
  eapply Permutation_trans; [apply perm_skip, IH | apply perm_swap].
Qed.

Lemma existsb_same_In x l : existsb (same eq_dec x) l = true <-> In x l.
Proof.
  rewrite existsb_exists. split.
  - intros [y [Hy He]]. apply same_true in He. subst. exact Hy.
  - intros H. exists x. split; [exact H | apply same_refl].
Qed.

Lemma unique_sorted_spec strs :
  NoDup (unique_sorted eq_dec before strs)
  /\ forall x, In x (unique_sorted eq_dec before strs) <-> In x strs.
Proof.
  unfold unique_sorted.
  set (step := fun acc x => if existsb (same eq_dec x) acc then acc
                            else insert_ordered before x acc).
  assert (H : forall l acc, NoDup acc ->
    NoDup (fold_left step l acc)
    /\ forall x, In x (fold_left step l acc) <-> In x acc \/ In x l).
  { induction l as [|y r IH]; intros acc Hnd; simpl.
    - split; [exact Hnd | intros x; tauto].
    - unfold step at 2 4. destruct (existsb (same eq_dec y) acc) eqn:He.
      + apply existsb_same_In in He. destruct (IH acc Hnd) as [H1 H2].
        split; [exact H1|]. intros x. rewrite H2. split; [tauto|].
        intros [H|[H|H]]; subst; auto.
      + assert (Hni : ~ In y acc).
        { intros Hin. apply existsb_same_In in Hin. congruence. }
        assert (Hnd' : NoDup (insert_ordered before y acc)).
        { apply (Permutation_NoDup (Permutation_sym (insert_ordered_perm y acc))).
          constructor; assumption. }
        destruct (IH _ Hnd') as [H1 H2]. split; [exact H1|].
        intros x. rewrite H2. split.
        * intros [H|H]; [|tauto].
          apply (Permutation_in _ (insert_ordered_perm y acc)) in H.
          destruct H as [H|H]; subst; tauto.
        * intros [H|[H|H]]; subst; [left | left | tauto].
          -- apply (Permutation_in _ (Permutation_sym (insert_ordered_perm y acc))).
             right. exact H.
          -- apply (Permutation_in _ (Permutation_sym (insert_ordered_perm x acc))).
             left. reflexivity. }
  destruct (H strs [] (NoDup_nil _)) as [H1 H2]. split; [exact H1|].
  intros x. rewrite H2. simpl. tauto.
Qed.

Lemma first_index_nth x l : In x l -> nth_error l (first_index eq_dec x l) = Some x.
Proof.
  induction l as [|y r IH]; simpl; [intros []|].
  intros H. destruct (same eq_dec x y) eqn:He.
  - apply same_true in He. subst. reflexivity.
  - destruct H as [H|H]; [subst; rewrite same_refl in He; discriminate|].
    simpl. apply IH. exact H.
Qed.

Lemma first_index_lt x l : In x l -> (first_index eq_dec x l < List.length l)%nat.
Proof.
  intros H. apply nth_error_Some. rewrite (first_index_nth x l H). discriminate.
Qed.

Lemma first_index_unique l : NoDup l -> forall g x,
  nth_error l g = Some x -> first_index eq_dec x l = g.
Proof.
  induction 1 as [|y r Hy Hnd IH]; intros [|g] x Hg; simpl in *; try discriminate.
  - inversion Hg; subst. rewrite same_refl. reflexivity.
  - destruct (same eq_dec x y) eqn:He.
    + apply same_true in He. subst. apply nth_error_In in Hg. contradiction.
    + f_equal. apply IH. exact Hg.
Qed.

Lemma count_by_index (u : list A) (x : A) (g : nat) :
  NoDup u -> nth_error u g = Some x ->
  forall l, (forall y, In y l -> In y u) ->
    List.length (filter (same eq_dec x) l)
    = List.length (filter (Nat.eqb g) (map (fun y => first_index eq_dec y u) l)).
Proof.
  intros Hnd Hx. induction l as [|y r IH]; intros Hin; [reflexivity|].
  simpl.
  assert (He : same eq_dec x y = Nat.eqb g (first_index eq_dec y u)).
  { destruct (same eq_dec x y) eqn:He.
    - apply same_true in He. subst y.
      rewrite (first_index_unique u Hnd g x Hx). symmetry. apply Nat.eqb_refl.
    - symmetry. apply Nat.eqb_neq. intros Hg.
      pose proof (first_index_nth y u (Hin y (or_introl eq_refl))) as Hy.
      rewrite <- Hg, Hx in Hy. inversion Hy; subst.
      rewrite same_refl in He. discriminate. }
  rewrite <- He.
  destruct (same eq_dec x y); simpl; rewrite IH;
    try reflexivity; intros z Hz; apply Hin; right; exact Hz.
Qed.

Lemma np_unique_data strs uinds uinv ucounts :
  np_unique eq_dec before strs = (uinds, uinv, ucounts) ->
  unique_data (List.length strs) uinds uinv ucounts.
Proof.
  unfold np_unique. intros H. inversion H; subst; clear H.
  destruct (unique_sorted_spec strs) as [Hnd Hin].
  set (u := unique_sorted eq_dec before strs) in *.
  unfold unique_data. rewrite !length_map. repeat split.
  - intros g Hg. apply in_map_iff in Hg. destruct Hg as [x [Hx Hs]]. subst g.
    apply first_index_lt, Hin, Hs.
  - intros g Hg.
    destruct (nth_error u g) as [x|] eqn:Hx; [|apply nth_error_None in Hx; lia].
    rewrite nth_error_map, Hx. simpl. f_equal. unfold len. f_equal.
    unfold occurrences_before.
    apply (count_by_index u x g Hnd Hx). intros y Hy. apply Hin. exact Hy.
Qed.

End UniqueProps.

Lemma occurrences_before_member g : forall uinv k,
  nth_error uinv k = Some g ->
  (occurrences_before g (firstn k uinv) < occurrences_before g uinv)%nat.
Proof.
  induction uinv as [|x r IH]; intros [|k] H; simpl in H; try discriminate.
  - inversion H; subst. unfold occurrences_before. simpl. rewrite Nat.eqb_refl. simpl. lia.
  - specialize (IH k H). unfold occurrences_before in *. simpl.
    destruct (Nat.eqb g x); simpl; lia.
Qed.

Lemma Forall2_nth {A C} (R : A -> C -> Prop) l l' :
  Forall2 R l l' ->
  forall i y, nth_error l' i = Some y -> exists x, nth_error l i = Some x /\ R x y.
Proof.
  induction 1 as [|x y l l' Hxy H IH]; intros [|i] z Hz; simpl in *; try discriminate.
  - inversion Hz; subst. exists x. split; [reflexivity | exact Hxy].
  - apply IH. exact Hz.
Qed.

(** One group, resolved: the rows the inverse map hands to its ligands. *)
Lemma group_resolution (ucounts denticities : list Z) (sels : list con_list)
      (inter : list con_list) (pseudo : list Z) (dicts : list (option refdict))
      (uinv : list nat) (incombo : list row) (g ind pos : nat) (crow : row) :
  (forall ind sel d, nth_error sels ind = Some sel -> nth_error denticities ind = Some d ->
                     Forall (fun r => len r = d) sel) ->
  group_compacted ucounts denticities sels inter pseudo dicts 0 g ind ->
  nth_error ucounts g = Some (Z.of_nat (occurrences_before g uinv)) ->
  nth_error incombo pos = Some crow ->
  (forall rows, nth_error inter g = Some rows -> In crow rows) ->
  exists rows sel,
    nth_error sels ind = Some sel
    /\ List.length rows = occurrences_before g uinv
    /\ (forall r, In r rows -> In r sel)
    /\ Permutation (List.concat rows) crow
    /\ forall occ r, nth_error rows occ = Some r ->
          inv_entry incombo dicts (g, pos, occ) = Ok r.
Proof.
  intros Hw [c [sel [d [Hc [Hs [Hd Hcase]]]]]] Hcount Hcrow Hin.
  simpl in Hc. rewrite Hcount in Hc. inversion Hc; subst c; clear Hc.
  destruct Hcase as [[H1 [Hi [Hdict Hp]]] | [Hn1 [ro [rd [Hmap [Hi [Hdict Hp]]]]]]].
  - exists [crow], sel. split; [exact Hs|]. split; [simpl; lia|].
    split; [intros r [Hr|[]]; subst; apply Hin; exact Hi|].
    split; [simpl; rewrite app_nil_r; apply Permutation_refl|].
    intros [|occ] r Hr; simpl in Hr; [|destruct occ; discriminate].
    inversion Hr; subst. unfold inv_entry. rewrite Hdict. simpl.
    apply index_ok. exact Hcrow.
  - destruct (map_repeat_to_highdent_spec _ _ _ _ _ _ Hmap (Nat2Z.is_nonneg _)
                (Hw _ _ _ Hs Hd)) as [_ Hrows].
    destruct (Hrows crow (Hin _ Hi)) as [rows [Hg [Hl [Hsub [Hperm _]]]]].
    exists rows, sel. split; [exact Hs|]. split; [rewrite Hl; apply Nat2Z.id|].
    split; [exact Hsub|]. split; [exact Hperm|].
    intros occ r Hr. unfold inv_entry. rewrite Hdict. simpl.
    rewrite (proj2 (index_ok _ _ _) Hcrow). simpl. rewrite Hg. simpl.
    apply index_ok. exact Hr.
Qed.

(** The inverse map, group by group: it returns one row per ligand,
    every row admissible for its ligand, and the rows of the group placed at
    position [pos] of [dent_order] hold, in the order the ligands occur, the
    sites of the row [incombo[pos]]. *)
Lemma round_trip_groups {A : Type}
        (eq_dec : forall a b : A, {a = b} + {a <> b}) (before : A -> A -> bool)
        (strs : list A) (denticities : list Z) (sels : list con_list)
        (uinds uinv : list nat) (ucounts : list Z)
        (inv_dicts : list (option refdict)) (sel_out : list con_list)
        (out_dents : list Z) (inv_inds : list inv_ind) (incombo : list row) :
  np_unique eq_dec before strs = (uinds, uinv, ucounts) ->
  (forall ind sel d, nth_error sels ind = Some sel -> nth_error denticities ind = Some d ->
                     Forall (fun r => len r = d) sel) ->
  map_all_repeat_to_highdent uinds uinv ucounts denticities sels
  = Ok (Some inv_dicts, sel_out, out_dents, Some inv_inds) ->
  Forall2 (fun r rows => In r rows) incombo sel_out ->
  exists fixed,
    inv_map_highdent_to_repeat incombo inv_dicts inv_inds = Ok fixed
    /\ List.length fixed = List.length strs
    /\ (forall k g r, nth_error uinv k = Some g -> nth_error fixed k = Some r ->
          exists ind sel, nth_error uinds g = Some ind
                          /\ nth_error sels ind = Some sel /\ In r sel)
    /\ exists dent_order,
         Permutation dent_order (seq 0 (List.length uinds))
         /\ List.length incombo = List.length uinds
         /\ forall g, (g < List.length uinds)%nat ->
              exists pos crow,
                nth_error dent_order pos = Some g
                /\ nth_error incombo pos = Some crow
                /\ (forall k, nth_error uinv k = Some g ->
                       exists occ, nth_error inv_inds k = Some (g, pos, occ))
                /\ Permutation (group_sites g uinv fixed) crow.
Proof.
  intros Hu Hw Hm Hc.
  apply np_unique_data in Hu. destruct Hu as [Hlc [Hlv [Hgv Hcnt]]].
  unfold map_all_repeat_to_highdent in Hm.
  destruct (negb (existsb (fun c => 1 <? c) ucounts)); [discriminate|].
  inv_bind Hm. destruct a as [[inter pseudo] dicts].
  inv_bind Hm. destruct a as [ds sels']. inv_bind Hm.
  inversion Hm; subst; clear Hm. simpl in Hc.
  destruct (intermediate_loop_spec _ _ _ _ _ _ _ _ Ha) as [Hli [Hlp [Hld Hgc]]].
  pose proof (dent_order_perm pseudo) as Hperm.
  set (dent_order := rev (argsort pseudo)) in *.
  destruct (reorder_loop_spec _ _ _ _ _ Ha0) as [Hls [_ Hro]].
  destruct (inv_inds_loop_spec _ _ _ _ Ha1) as [Hlinv Hii].
  assert (Hlo : List.length dent_order = List.length uinds).
  { rewrite (Permutation_length Hperm), length_seq. exact Hlp. }
  assert (Hnd : NoDup dent_order).
  { apply (Permutation_NoDup (Permutation_sym Hperm)), seq_NoDup. }
  assert (Hfirst : firstn (List.length dent_order) dicts = dicts).
  { apply firstn_all2. lia. }
  rewrite Hfirst.
  assert (Hgrp : forall g, (g < List.length uinds)%nat ->
            exists ind pos crow rows sel,
              nth_error uinds g = Some ind
              /\ nth_error dent_order pos = Some g
              /\ nth_error incombo pos = Some crow
              /\ nth_error sels ind = Some sel
              /\ List.length rows = occurrences_before g uinv
              /\ (forall r, In r rows -> In r sel)
              /\ Permutation (List.concat rows) crow
              /\ forall k, nth_error uinv k = Some g ->
                    exists r,
                      nth_error inv_inds k = Some (g, pos, occurrences_before g (firstn k uinv))
                      /\ nth_error rows (occurrences_before g (firstn k uinv)) = Some r
                      /\ inv_entry incombo dicts
                           (g, pos, occurrences_before g (firstn k uinv)) = Ok r).
  { intros g Hg.
    destruct (nth_error uinds g) as [ind|] eqn:Hind;
      [|apply nth_error_None in Hind; lia].
    assert (Hing : In g dent_order).
    { apply (Permutation_in _ (Permutation_sym Hperm)), in_seq. lia. }
    destruct (In_nth_error _ _ Hing) as [pos Hpos].
    destruct (Hro pos g Hpos) as [sel' [d' [Hig [Hsp _]]]].
    destruct (Forall2_nth _ _ _ Hc pos sel' Hsp) as [crow [Hcrow Hin]].
    destruct (group_resolution ucounts denticities sels inter pseudo dicts uinv
                incombo g ind pos crow Hw (Hgc g ind Hind) (Hcnt g Hg) Hcrow)
      as [rows [sel [Hs [Hl [Hsub [Hp Hent]]]]]].
    { intros rows Hr. rewrite Hig in Hr. inversion Hr; subst. exact Hin. }
    exists ind, pos, crow, rows, sel. repeat split; auto.
    intros k Hk.
    destruct (Hii k g Hk) as [pos' [Hn Ho]]. simpl in Hn.
    assert (pos' = pos).
    { apply (proj1 (NoDup_nth_error dent_order) Hnd).
      - apply nth_error_Some. rewrite Ho. discriminate.
      - rewrite Ho, Hpos. reflexivity. }
    subst pos'.
    pose proof (occurrences_before_member g uinv k Hk) as Hlt.
    destruct (nth_error rows (occurrences_before g (firstn k uinv))) as [r|] eqn:Hr;
      [|apply nth_error_None in Hr; lia].
    exists r. repeat split; [exact Hn | apply Hent; exact Hr]. }
  assert (Htot : exists fixed, inv_map_highdent_to_repeat incombo dicts inv_inds = Ok fixed).
  { apply inv_map_total. intros e He.
    destruct (In_nth_error _ _ He) as [k Hk].
    destruct (nth_error uinv k) as [g|] eqn:Hgk.
    - destruct (Hgrp g (Hgv g (nth_error_In _ _ Hgk)))
        as [ind [pos [crow [rows [sel [_ [_ [_ [_ [_ [_ [_ Hmem]]]]]]]]]]]].
      destruct (Hmem k Hgk) as [r [Hn [_ He']]].
      rewrite Hn in Hk. inversion Hk; subst. exists r. exact He'.
    - apply nth_error_None in Hgk.
      assert (k < List.length inv_inds)%nat by (apply nth_error_Some; rewrite Hk; discriminate).
      lia. }
  destruct Htot as [fixed Hfixed]. exists fixed.
  destruct (inv_map_spec _ _ _ _ Hfixed) as [Hlf Hnth].
  split; [exact Hfixed|]. split; [lia|]. split.
  - intros k g r Hk Hr.
    destruct (Hgrp g (Hgv g (nth_error_In _ _ Hk)))
      as [ind [pos [crow [rows [sel [Hind [_ [_ [Hs [_ [Hsub [_ Hmem]]]]]]]]]]]].
    destruct (Hmem k Hk) as [r' [Hn [Hrow He']]].
    destruct (Hnth k _ Hn) as [r'' [Hf He'']].
    rewrite Hr in Hf. inversion Hf; subst r''. rewrite He' in He''.
    inversion He''; subst r'.
    exists ind, sel. repeat split; auto. apply Hsub. apply (nth_error_In _ _ Hrow).
  - exists dent_order. split; [rewrite <- Hlp; exact Hperm|].
    split; [rewrite (Forall2_length Hc); lia|].
    intros g Hg.
    destruct (Hgrp g Hg)
      as [ind [pos [crow [rows [sel [Hind [Hdo [Hcrow [Hs [Hl [Hsub [Hp Hmem]]]]]]]]]]]].
    exists pos, crow. split; [exact Hdo|]. split; [exact Hcrow|]. split.
    + intros k Hk. destruct (Hmem k Hk) as [r [Hn _]]. eexists. exact Hn.
    + unfold group_sites.
      rewrite (group_rows rows g uinv [] fixed).
      * unfold occurrences_before at 2. simpl. rewrite <- Hl, firstn_all. exact Hp.
      * lia.
      * intros k Hk. destruct (Hmem k Hk) as [r [Hn [Hrow He']]].
        destruct (Hnth k _ Hn) as [r'' [Hf He'']].
        rewrite He' in He''. inversion He''; subst r''. simpl. rewrite Hf, Hrow.
        reflexivity.
      * unfold occurrences_before at 1. simpl. lia.
Qed.

(** C6.  Round trip of the repeat-ligand compaction.  [uinds], [uinv]
    and [ucounts] are what [np.unique] found for the ligands; every pattern of
    a ligand has as many sites as its denticity.  Take any choice [incombo] of
    one row from each list [map_all_repeat_to_highdent] returned.  Then
    [inv_map_highdent_to_repeat] returns one row per original ligand, in the
    order the ligands occur; each is a row of the pattern list of that
    ligand's group; and the rows of the ligands of one group, put together,
    hold exactly the sites of the row chosen for the group. *)
Theorem repeat_compaction_round_trip {A : Type}
        (eq_dec : forall a b : A, {a = b} + {a <> b}) (before : A -> A -> bool)
        (strs : list A) (denticities : list Z) (sels : list con_list)
        (uinds uinv : list nat) (ucounts : list Z)
        (inv_dicts : list (option refdict)) (sel_out : list con_list)
        (out_dents : list Z) (inv_inds : list inv_ind) (incombo : list row) :
  np_unique eq_dec before strs = (uinds, uinv, ucounts) ->
  (forall ind sel d, nth_error sels ind = Some sel -> nth_error denticities ind = Some d ->
                     Forall (fun r => len r = d) sel) ->
  map_all_repeat_to_highdent uinds uinv ucounts denticities sels
  = Ok (Some inv_dicts, sel_out, out_dents, Some inv_inds) ->
  Forall2 (fun r rows => In r rows) incombo sel_out ->
  exists fixed,
    inv_map_highdent_to_repeat incombo inv_dicts inv_inds = Ok fixed
    /\ List.length fixed = List.length strs
    /\ (forall k g r, nth_error uinv k = Some g -> nth_error fixed k = Some r ->
          exists ind sel, nth_error uinds g = Some ind
                          /\ nth_error sels ind = Some sel /\ In r sel)
    /\ (forall g, (g < List.length uinds)%nat ->
          exists pos crow,
            nth_error incombo pos = Some crow
            /\ (forall k, nth_error uinv k = Some g ->
                   exists occ, nth_error inv_inds k = Some (g, pos, occ))
            /\ Permutation (group_sites g uinv fixed) crow).
Proof.
  intros Hu Hw Hm Hc.
  destruct (round_trip_groups eq_dec before strs denticities sels uinds uinv ucounts
              inv_dicts sel_out out_dents inv_inds incombo Hu Hw Hm Hc)
    as [fixed [H1 [H2 [H3 [dent_order [_ [_ H4]]]]]]].
  exists fixed. split; [exact H1|]. split; [exact H2|]. split; [exact H3|].
  intros g Hg. destruct (H4 g Hg) as [pos [crow [_ [Ha [Hb Hp]]]]].
  exists pos, crow. split; [exact Ha|]. split; [exact Hb | exact Hp].
Qed.

(** *** The recursive search *)

Lemma nested_induction (P : nested -> Prop) :
  (forall rows, P (Leaf rows)) ->
  (forall ch, Forall P ch -> P (Node ch)) ->
  forall t, P t.
Proof.
  intros HL HN. fix IH 1. intros [rows|ch]; [apply HL|].
  apply HN. induction ch as [|x r IHr]; constructor; [apply IH | exact IHr].
Qed.

Lemma leaves_Node ch : leaves (Node ch) = flat_map leaves ch.
Proof.
  induction ch as [|x r IH]; [reflexivity|].
  simpl in *. rewrite IH. reflexivity.
Qed.

Lemma flatten_Node ch : flatten (Node ch) = flat_map flatten ch.
Proof.
  induction ch as [|x r IH]; [reflexivity|].
  simpl in *. rewrite IH. reflexivity.
Qed.

Lemma flatten_leaves t :
  flatten t = List.concat (map (@List.concat Z) (leaves t)).
Proof.
  induction t as [rows|ch IH] using nested_induction.
  - simpl. rewrite app_nil_r. reflexivity.
  - rewrite flatten_Node, leaves_Node.
    induction IH as [|x r Hx Hr IHr]; [reflexivity|].
    simpl. rewrite map_app, concat_app, Hx, IHr. reflexivity.
Qed.

Lemma occupied_of_ok prev occ : occupied_of prev = Ok occ -> occ = List.concat prev.
Proof.
  unfold occupied_of. destruct prev as [|r p]; intros H; [inversion H; reflexivity|].
  destruct (forallb _ _); inversion H. reflexivity.
Qed.

Lemma test_combos_ok combs occ res :
  test_combos combs occ = Ok res ->
  forall r, In r res -> In r combs /\ forall x, In x r -> ~ In x occ.
Proof.
  unfold test_combos. destruct combs as [|c0 cs]; intros H; [discriminate|].
  remember (c0 :: cs) as combs eqn:Hcombs. clear Hcombs.
  inversion H; subst; clear H. intros r Hr.
  apply filter_In in Hr. destruct Hr as [Hin Hf]. split; [exact Hin|].
  intros x Hx Hocc. apply negb_true_iff in Hf.
  assert (Ht : existsb (fun x => mem x occ) r = true).
  { apply existsb_exists. exists x. split; [exact Hx | apply mem_In; exact Hocc]. }
  congruence.
Qed.

Lemma combos_loop_children recurse : forall res all_lig,
  combos_loop recurse res = Ok all_lig ->
  forall child, In child all_lig -> exists r, In r res /\ recurse r = Ok child.
Proof.
  induction res as [|r rs IH]; intros all_lig H child Hc; simpl in H.
  - inversion H; subst. destruct Hc.
  - inv_bind H. inv_bind H. inversion H; subst; clear H.
    destruct (0 <? nested_len a).
    + destruct Hc as [Hc|Hc].
      * subst. exists r. split; [left; reflexivity | exact Ha].
      * destruct (IH _ Ha0 child Hc) as [r' [Hr Hrec]].
        exists r'. split; [right; exact Hr | exact Hrec].
    + destruct (IH _ Ha0 child Hc) as [r' [Hr Hrec]].
      exists r'. split; [right; exact Hr | exact Hrec].
Qed.

(** Every leaf the search returns is a valid pick. *)
Lemma good_combos_leaves cn : forall rest prev t,
  good_combos_from rest prev cn = Ok t ->
  forall L, In L (leaves t) -> picked cn rest prev L.
Proof.
  induction rest as [|combs rest IH]; intros prev t H L HL; simpl in H.
  - inv_bind H. apply occupied_of_ok in Ha. subst a.
    destruct (len (List.concat prev) <? cn) eqn:Hlt; [discriminate|].
    inversion H; subst. destruct HL as [HL|[]]. subst.
    apply picked_done. apply Z.ltb_ge. exact Hlt.
  - inv_bind H. apply occupied_of_ok in Ha. subst a.
    destruct (len (List.concat prev) <? cn) eqn:Hlt.
    + inv_bind H. inv_bind H. inversion H; subst; clear H.
      rewrite leaves_Node in HL. apply in_flat_map in HL.
      destruct HL as [child [Hc HLc]].
      destruct (combos_loop_children _ _ _ Ha0 child Hc) as [r [Hr Hrec]].
      destruct (test_combos_ok _ _ _ Ha r Hr) as [Hin Hfree].
      apply (picked_step cn combs rest prev r L).
      * apply Z.ltb_lt. exact Hlt.
      * exact Hin.
      * exact Hfree.
      * apply (IH _ _ Hrec L HLc).
    + inversion H; subst. destruct HL as [HL|[]]. subst.
      apply picked_done. apply Z.ltb_ge. exact Hlt.
Qed.


Lemma len_app {A} (a b : list A) : len (a ++ b) = len a + len b.
Proof. unfold len. rewrite length_app. lia. Qed.

Lemma len_nonneg {A} (a : list A) : 0 <= len a.
Proof. unfold len. lia. Qed.

Lemma patterns_fit_sum rest dents : patterns_fit rest dents -> 0 <= sumZ dents.
Proof.
  induction 1 as [|sel d rest dents [Hd _] _ IH]; simpl; lia.
Qed.

(** When the denticities add up to the sites still free, a leaf holds one
    row of every ligand, the rows are disjoint and [cn] sites are taken. *)
Lemma picked_full cn rest prev L :
  picked cn rest prev L ->
  forall dents,
    patterns_fit rest dents ->
    len (List.concat prev) + sumZ dents = cn ->
    exists picks,
      L = prev ++ picks
      /\ Forall2 (fun r sel => In r sel) picks rest
      /\ len (List.concat L) = cn
      /\ (forall A r C, picks = A ++ r :: C ->
             forall x, In x r -> ~ In x (List.concat (prev ++ A)))
      /\ (NoDup (List.concat prev) -> Forall (Forall (@NoDup Z)) rest ->
          NoDup (List.concat L)).
Proof.
  induction 1 as [rest prev Hge | combs rest prev r L Hlt Hin Hfree Hp IH];
    intros dents Hfit Hsum.
  - pose proof (patterns_fit_sum _ _ Hfit) as Hs.
    revert Hsum Hs Hge.
    inversion Hfit as [|sel d rest' dents' [Hd _] Hfit' E1 E2]; subst;
      intros Hsum Hs Hge.
    + exists []. rewrite app_nil_r. simpl in Hsum. repeat split.
      * constructor.
      * lia.
      * intros A r C Heq. destruct A; discriminate.
      * intros Hnd _. exact Hnd.
    + pose proof (patterns_fit_sum _ _ Hfit') as Hs'. simpl in Hsum, Hs. lia.
  - revert Hsum Hlt IH.
    inversion Hfit as [|sel d rest' dents' [Hd Hrows] Hfit' E1 E2]; subst;
      intros Hsum Hlt IH.
    assert (Hr : len r = d).
    { rewrite Forall_forall in Hrows. apply Hrows. exact Hin. }
    simpl in Hsum.
    destruct (IH dents' Hfit') as [picks [HL [HF [Hlen [Hdis Hnd]]]]].
    { rewrite concat_app, len_app. simpl. rewrite app_nil_r. lia. }
    exists (r :: picks). split; [rewrite HL, <- app_assoc; reflexivity|].
    split; [constructor; assumption|]. split; [exact Hlen|]. split.
    + intros A r0 C Heq x Hx. destruct A as [|a A].
      * simpl in Heq. inversion Heq; subst. rewrite app_nil_r. apply Hfree. exact Hx.
      * simpl in Heq. inversion Heq; subst.
        specialize (Hdis A r0 C eq_refl x Hx).
        rewrite <- app_assoc in Hdis. exact Hdis.
    + intros Hnd0 Hall. inversion Hall as [|? ? Hc Hrest]; subst.
      apply Hnd; [|exact Hrest].
      rewrite concat_app. simpl. rewrite app_nil_r.
      apply NoDup_app; [exact Hnd0 | | ].
      * rewrite Forall_forall in Hc. apply Hc. exact Hin.
      * intros x Hx Hxr. apply (Hfree x Hxr Hx).
Qed.

(** *** From the leaves to the candidates *)

Lemma reshape_leaves t cn tmp :
  (forall L, In L (leaves t) -> len (List.concat L) = cn) ->
  reshape (flatten t) cn = Ok tmp ->
  tmp = map (@List.concat Z) (leaves t).
Proof.
  intros Hl H. unfold reshape in H.
  destruct (cn <=? 0) eqn:Hw; [discriminate|]. apply Z.leb_gt in Hw.
  match type of H with context [if ?c then _ else _] => destruct c eqn:Hk end;
    [|discriminate].
  inversion H; subst tmp; clear H. rewrite flatten_leaves.
  assert (Hc : Forall (fun c => List.length c = Z.to_nat cn)
                      (map (@List.concat Z) (leaves t))).
  { apply Forall_forall. intros c Hc. apply in_map_iff in Hc.
    destruct Hc as [L [Hc HL]]. subst c. specialize (Hl L HL). unfold len in Hl. lia. }
  rewrite <- (rows_of_concat _ _ Hc) at 3. f_equal.
  unfold len. rewrite (concat_length_uniform _ _ Hc).
  rewrite Nat2Z.inj_mul, Z2Nat.id by lia.
  rewrite Z.div_mul by lia. rewrite Nat2Z.id. reflexivity.
Qed.

Lemma split_by_concat : forall picks dents,
  Forall2 (fun (r : row) d => len r = d) picks dents ->
  split_by dents (List.concat picks) = picks.
Proof.
  induction 1 as [|r d picks dents Hr _ IH]; [reflexivity|].
  simpl. unfold len in Hr.
  rewrite firstn_app, skipn_app.
  replace (Z.to_nat d - List.length r)%nat with 0%nat by lia.
  rewrite firstn_O, app_nil_r, skipn_O.
  rewrite firstn_all2 by lia. rewrite skipn_all2 by lia.
  simpl. rewrite IH. reflexivity.
Qed.

Lemma mapM_In {A C} (f : A -> result C) : forall l l',
  mapM f l = Ok l' -> forall y, In y l' -> exists x, In x l /\ f x = Ok y.
Proof.
  induction l as [|x r IH]; intros l' H y Hy; simpl in H.
  - inversion H; subst. destruct Hy.
  - inv_bind H. inv_bind H. inversion H; subst; clear H.
    destruct Hy as [Hy|Hy].
    + subst. exists x. split; [left; reflexivity | exact Ha].
    + destruct (IH _ Ha0 y Hy) as [x' [Hx Hf]]. exists x'. split; [right|]; assumption.
Qed.

Lemma mapM_id {A} (f : A -> result A) : forall l l',
  (forall x y, f x = Ok y -> y = x) -> mapM f l = Ok l' -> l' = l.
Proof.
  induction l as [|x r IH]; intros l' Hf H; simpl in H.
  - inversion H; reflexivity.
  - inv_bind H. inv_bind H. inversion H; subst; clear H.
    rewrite (Hf _ _ Ha), (IH _ Hf Ha0). reflexivity.
Qed.

Lemma reorder_In {A} (l : list A) order x : In x (reorder l order) -> In x l.
Proof.
  unfold reorder. intros H. apply in_flat_map in H. destruct H as [i [_ Hi]].
  destruct (nth_error l i) eqn:Hn; [|destruct Hi].
  destruct Hi as [Hi|[]]. subst. apply (nth_error_In _ _ Hn).
Qed.

(** The sites of a ligand's entries are the sites of its row. *)
Lemma pair_up_sites coords : forall selected i entries,
  pair_up coords i selected = Ok entries ->
  flat_map entry_sites entries = selected
  /\ (forall e, In e entries -> exists a x, e = AtomSite a x).
Proof.
  induction selected as [|x r IH]; intros i entries H; simpl in H.
  - inversion H; subst. split; [reflexivity | intros e []].
  - inv_bind H. inv_bind H. inversion H; subst; clear H.
    destruct (IH _ _ Ha0) as [Hs He]. split; [simpl; rewrite Hs; reflexivity|].
    intros e [Hin|Hin]; [subst; eauto | apply He; exact Hin].
Qed.

Lemma expand_sites ligs : forall out_combo j cand,
  (forall lig, In lig ligs -> coordList lig <> []) ->
  expand ligs j out_combo = Ok cand ->
  claimed_sites cand = List.concat out_combo.
Proof.
  induction out_combo as [|selected r IH]; intros j cand Hne H; simpl in H.
  - inversion H; subst. reflexivity.
  - inv_bind H. inv_bind H. inv_bind H. inversion H; subst; clear H.
    unfold claimed_sites in *. simpl. rewrite (IH _ _ Hne Ha1). f_equal.
    apply index_ok in Ha. pose proof (Hne _ (nth_error_In _ _ Ha)) as Hc.
    destruct (is_sandwich a).
    + inversion Ha0; subst. destruct (coordList a); [contradiction|]. reflexivity.
    + destruct (pair_up_sites _ _ _ _ Ha0) as [Hs He].
      unfold ligand_sites. destruct a0 as [|e es]; [exact Hs|].
      destruct (He e (or_introl eq_refl)) as [at0 [x He']]. subst e. exact Hs.
Qed.

Section Kept.

Variable B : SymBoundary.

(** Every combination [score_loop] keeps comes from a row of the
    enumerated array: it is that row cut by the denticities, mapped back to
    the original ligands when ligands were compacted. *)
Lemma score_loop_kept coreType dents inverse charges natoms :
  forall combos oc oe oc' oe',
    score_loop B coreType dents inverse charges natoms combos oc oe = Ok (oc', oe') ->
    forall c, In c oc' ->
      In c oc
      \/ exists c0, In c0 combos
                    /\ match inverse with
                       | Some (d, i) =>
                           inv_map_highdent_to_repeat (split_by dents c0) d i = Ok c
                       | None => c = split_by dents c0
                       end.
Proof.
  induction combos as [|c0 r IH]; intros oc oe oc' oe' H c Hc; simpl in H.
  - inversion H; subst. left. exact Hc.
  - inv_bind H.
    assert (Ha' : match inverse with
                  | Some (d, i) =>
                      inv_map_highdent_to_repeat (split_by dents c0) d i = Ok a
                  | None => a = split_by dents c0
                  end).
    { destruct inverse as [[d i]|]; [exact Ha | inversion Ha; reflexivity]. }
    destruct (existsb _ oe).
    + destruct (IH _ _ _ _ H c Hc) as [Hin | [c1 [Hin Hm]]]; [left; exact Hin|].
      right. exists c1. split; [right; exact Hin | exact Hm].
    + destruct (IH _ _ _ _ H c Hc) as [Hin | [c1 [Hin Hm]]].
      * apply in_app_or in Hin. destruct Hin as [Hin|[Hin|[]]]; [left; exact Hin|].
        subst a. right. exists c0. split; [left; reflexivity | exact Ha'].
      * right. exists c1. split; [right; exact Hin | exact Hm].
Qed.

End Kept.

(** *** The resolution of the ligands *)

Lemma mapM_length {A C} (f : A -> result C) : forall l l',
  mapM f l = Ok l' -> List.length l' = List.length l.
Proof.
  induction l as [|x r IH]; intros l' H; simpl in H.
  - inversion H; reflexivity.
  - inv_bind H. inv_bind H. inversion H; subst. simpl. rewrite (IH _ Ha0). reflexivity.
Qed.

Lemma first_row_len_ok c d : first_row_len c = Ok d -> d = first_row_len' c /\ c <> [].
Proof.
  destruct c as [|r c']; simpl; intros H; inversion H. split; [reflexivity | discriminate].
Qed.

(** The patterns and the denticity the loop resolves are those read off
    the ligand as the loop leaves it. *)
Lemma resolve_ligand_determined geo ct cn ps t l l' possible d good t' :
  resolve_ligand geo ct cn ps t l = Ok (l', possible, d, good, t') ->
  possible = patterns_of geo ct cn l'
  /\ d = denticity_of geo ct cn l'
  /\ coordList l' <> [].
Proof.
  unfold resolve_ligand. intros H.
  destruct ((1 <? len (coordList l))
            && present (assoc (ligType l) (liglist_geo_map_dict geo))) eqn:Ht.
  - (* a ligand class of the template *)
    assert (Hne : coordList l <> []).
    { apply andb_true_iff in Ht. destruct Ht as [Ht _]. apply Z.ltb_lt in Ht.
      intros E. rewrite E in Ht. unfold len in Ht. simpl in Ht. lia. }
    destruct (assoc (ligType l) (liglist_geo_map_dict geo)) as [per_core|] eqn:Hm;
      [|discriminate].
    destruct (assoc ct per_core) as [p0|] eqn:Hc.
    + inv_bind H. inversion H; subst; clear H.
      apply first_row_len_ok in Ha. destruct Ha as [Ha _].
      unfold denticity_of, patterns_of, uses_template. rewrite Hm, Ht, Hc.
      repeat split; auto.
    + inversion H; subst; clear H.
      unfold denticity_of, patterns_of, uses_template. rewrite Hm, Ht, Hc.
      repeat split; auto.
  - destruct (len (coordList l) =? 1) eqn:H1.
    + (* a monodentate ligand *)
      assert (Hne : coordList l <> []).
      { apply Z.eqb_eq in H1. intros E. rewrite E in H1. discriminate. }
      assert (Hkeep : forall cl c, List.length cl = List.length (coordList l) ->
                uses_template geo (set_coordList (set_possible_core_cons l c) cl) = false
                /\ (len cl =? 1) = true).
      { intros cl c Hl. unfold uses_template. simpl.
        unfold len in *. rewrite Hl. split; [exact Ht | exact H1]. }
      assert (Hkeep' : forall c,
                uses_template geo (set_possible_core_cons l c) = false).
      { intros c. exact Ht. }
      assert (Hu0 : uses_template geo l = false) by exact Ht.
      destruct (coordList l) as [|[i|i st] rest] eqn:Hcl; [contradiction| |].
      * destruct ((smiles l =? "[O-2]")%string && force_trans_oxos ps).
        -- destruct (t =? 0); [|destruct (0 <? t); [|discriminate]];
             inversion H; subst; clear H;
             unfold denticity_of, patterns_of; rewrite Hkeep'; simpl; rewrite Hcl;
             fold (len (Atom i :: rest)); rewrite H1; repeat split; discriminate.
        -- destruct (possible_core_cons l) as [p0|] eqn:Hp;
             inversion H; subst; clear H;
             unfold denticity_of, patterns_of; rewrite Hu0, Hcl, H1, Hp;
             repeat split; discriminate.
      * inv_bind H. inversion H; subst; clear H.
        pose proof (mapM_length _ _ _ Ha) as Hl.
        destruct (Hkeep a [[st]] Hl) as [Hu Hn].
        unfold denticity_of, patterns_of. rewrite Hu. simpl. rewrite Hn.
        repeat split. intros E. rewrite E in Hl. discriminate.
    + destruct ((ligType l =? "mono")%string && (1 <? len (coordList l))) eqn:Hmono;
        [|discriminate].
      (* a 'mono' ligand with several atoms *)
      assert (Hne : coordList l <> []).
      { apply andb_true_iff in Hmono. destruct Hmono as [_ Hn]. apply Z.ltb_lt in Hn.
        intros E. rewrite E in Hn. unfold len in Hn. simpl in Hn. lia. }
      assert (Hu0 : uses_template geo l = false) by exact Ht.
      inv_bind H. inv_bind H. inversion H; subst; clear H.
      apply first_row_len_ok in Ha0. destruct Ha0 as [Hd _].
      destruct (coordList l) as [|[i|i st] rest] eqn:Hcl; [contradiction| |].
      * destruct (possible_core_cons l) as [p0|] eqn:Hp; [|discriminate].
        inversion Ha; subst; clear Ha. cbn [fst snd] in *.
        unfold denticity_of, patterns_of. rewrite Hu0, Hcl, H1, Hp.
        repeat split; discriminate.
      * inv_bind Ha. inv_bind Ha. inversion Ha; subst; clear Ha. cbn [fst snd] in *.
        pose proof (mapM_length _ _ _ Ha1) as Hl.
        assert (Hu : uses_template geo
                       (set_coordList (set_possible_core_cons l [a0]) a1) = false).
        { unfold uses_template. simpl. unfold len in *. rewrite Hl. exact Ht. }
        assert (Hn : (len a1 =? 1) = false).
        { unfold len in *. rewrite Hl. exact H1. }
        unfold denticity_of, patterns_of. rewrite Hu. simpl. rewrite Hn.
        repeat split. intros E. rewrite E in Hl. discriminate.
Qed.

Section Resolved.

Variable B : SymBoundary.

Lemma resolve_loop_determined geo ct cn ps : forall ligs t res,
  resolve_loop B geo ct cn ps t ligs = Ok res ->
  Forall (fun r => r_cons r = patterns_of geo ct cn (r_lig r)
                   /\ r_denticity r = denticity_of geo ct cn (r_lig r)
                   /\ coordList (r_lig r) <> []) res.
Proof.
  induction ligs as [|l r IH]; intros t res H; simpl in H.
  - inversion H; subst. constructor.
  - inv_bind H. destruct a as [[[[l' possible] d] good] t'].
    inv_bind H. inversion H; subst; clear H.
    constructor; [|apply (IH _ _ Ha0)].
    simpl. apply (resolve_ligand_determined _ _ _ _ _ _ _ _ _ _ _ Ha).
Qed.

End Resolved.

Lemma reorder_identity {A} (l : list A) :
  reorder l (seq 0 (List.length l)) = l.
Proof.
  unfold reorder.
  assert (H : forall suf pre,
             l = pre ++ suf ->
             flat_map (fun i => match nth_error l i with
                                | Some x => [x]
                                | None => []
                                end) (seq (List.length pre) (List.length suf)) = suf).
  { induction suf as [|x r IH]; intros pre Hl; [reflexivity|].
    simpl. rewrite Hl at 1. rewrite nth_error_app2 by lia.
    rewrite Nat.sub_diag. simpl. f_equal.
    specialize (IH (pre ++ [x])). rewrite length_app in IH. simpl in IH.
    rewrite Nat.add_1_r in IH. apply IH. rewrite <- app_assoc. exact Hl. }
  apply (H l []). reflexivity.
Qed.

Lemma reorder_perm {A} (l : list A) order :
  Permutation order (seq 0 (List.length l)) -> Permutation (reorder l order) l.
Proof.
  intros H. rewrite <- (reorder_identity l) at 2.
  unfold reorder. apply Permutation_flat_map. exact H.
Qed.

Lemma sumZ_perm a b : Permutation a b -> sumZ a = sumZ b.
Proof.
  induction 1; simpl; lia.
Qed.

(** *** Sums over groups *)

Lemma sumZ_pointwise (h : nat -> Z) : forall l off,
  (forall i x, nth_error l i = Some x -> x = h (off + i)%nat) ->
  sumZ l = sumZ (map h (seq off (List.length l))).
Proof.
  induction l as [|x r IH]; intros off H; [reflexivity|].
  simpl. rewrite (H 0%nat x eq_refl), Nat.add_0_r. f_equal.
  apply IH. intros i y Hy. rewrite (H (S i) y Hy). f_equal. lia.
Qed.

Lemma indicator_sum (f : nat -> Z) x : forall G off,
  (off <= x < off + G)%nat ->
  sumZ (map (fun g => (if Nat.eqb g x then 1 else 0) * f g) (seq off G)) = f x.
Proof.
  induction G as [|G IH]; intros off Hx; [lia|].
  simpl. destruct (Nat.eqb off x) eqn:He.
  - apply Nat.eqb_eq in He. subst off.
    assert (Hz : forall n o, (x < o)%nat ->
              sumZ (map (fun g => (if Nat.eqb g x then 1 else 0) * f g) (seq o n)) = 0).
    { induction n as [|n IHn]; intros o Ho; [reflexivity|]. simpl.
      replace (Nat.eqb o x) with false by (symmetry; apply Nat.eqb_neq; lia).
      rewrite IHn by lia. lia. }
    rewrite Hz by lia. lia.
  - apply Nat.eqb_neq in He. rewrite IH by lia. lia.
Qed.

Lemma sumZ_map_add (f h : nat -> Z) l :
  sumZ (map (fun g => f g + h g) l) = sumZ (map f l) + sumZ (map h l).
Proof. induction l as [|x r IH]; simpl; [reflexivity | rewrite IH; lia]. Qed.

Lemma sumZ_map_ext (f h : nat -> Z) l :
  (forall g, In g l -> f g = h g) -> sumZ (map f l) = sumZ (map h l).
Proof.
  induction l as [|x r IH]; intros H; simpl; [reflexivity|].
  rewrite (H x (or_introl eq_refl)), IH; [reflexivity|].
  intros g Hg. apply H. right. exact Hg.
Qed.

(** The sum over the ligands is the sum over the groups, each counted as
    often as it has ligands. *)
Lemma sum_by_key (G : nat) (f : nat -> Z) : forall uinv,
  (forall g, In g uinv -> (g < G)%nat) ->
  sumZ (map f uinv)
  = sumZ (map (fun g => Z.of_nat (occurrences_before g uinv) * f g) (seq 0 G)).
Proof.
  induction uinv as [|x r IH]; intros H.
  - simpl. induction (seq 0 G) as [|g l IHl]; simpl; [reflexivity | lia].
  - simpl. rewrite IH by (intros g Hg; apply H; right; exact Hg).
    rewrite <- (indicator_sum f x G 0) at 1
      by (specialize (H x (or_introl eq_refl)); lia).
    rewrite <- sumZ_map_add. apply sumZ_map_ext. intros g _.
    unfold occurrences_before. cbn [filter].
    destruct (Nat.eqb g x); cbn [List.length]; [rewrite Nat2Z.inj_succ|]; ring.
Qed.

Lemma Forall2_intro {A C} (R : A -> C -> Prop) : forall l l',
  List.length l = List.length l' ->
  (forall p x y, nth_error l p = Some x -> nth_error l' p = Some y -> R x y) ->
  Forall2 R l l'.
Proof.
  induction l as [|x r IH]; intros [|y t] Hl H; simpl in Hl; try discriminate.
  - constructor.
  - constructor; [apply (H 0%nat); reflexivity|].
    apply IH; [lia|]. intros p a b Ha Hb. apply (H (S p)); assumption.
Qed.

Lemma Forall2_nth_both {A C} (R : A -> C -> Prop) l l' :
  Forall2 R l l' ->
  forall i x y, nth_error l i = Some x -> nth_error l' i = Some y -> R x y.
Proof.
  induction 1 as [|a b l l' Hab H IH]; intros [|i] x y Hx Hy; simpl in *;
    try discriminate.
  - inversion Hx; inversion Hy; subst. exact Hab.
  - apply (IH i); assumption.
Qed.

Lemma Forall_intro_nth {A} (P : A -> Prop) (l : list A) :
  (forall p x, nth_error l p = Some x -> P x) -> Forall P l.
Proof.
  intros H. apply Forall_forall. intros x Hx.
  destruct (In_nth_error _ _ Hx) as [p Hp]. apply (H p x Hp).
Qed.

Lemma reorder_loop_reorder pseudo inter : forall order ds sels',
  reorder_loop pseudo inter order = Ok (ds, sels') ->
  ds = reorder pseudo order.
Proof.
  induction order as [|j r IH]; intros ds sels' H; simpl in H.
  - inversion H; reflexivity.
  - inv_bind H. inv_bind H. inv_bind H. inv_bind H.
    destruct a2 as [ds0 sels0]. inversion H; subst; clear H. simpl.
    apply index_ok in Ha. unfold reorder in *. simpl. rewrite Ha. simpl.
    rewrite (IH _ _ Ha2). reflexivity.
Qed.

Section UniqueFirst.

Context {A : Type}.
Variable eq_dec : forall a b : A, {a = b} + {a <> b}.
Variable before : A -> A -> bool.

(** The representative [uinds[g]] of the group of the [k]-th string holds
    the same string. *)
Lemma np_unique_first keys uinds uinv ucounts :
  np_unique eq_dec before keys = (uinds, uinv, ucounts) ->
  forall k g, nth_error uinv k = Some g ->
    exists ind x, nth_error uinds g = Some ind
                  /\ nth_error keys ind = Some x /\ nth_error keys k = Some x.
Proof.
  unfold np_unique. intros H. inversion H; subst; clear H.
  destruct (unique_sorted_spec eq_dec before keys) as [Hnd Hin].
  set (u := unique_sorted eq_dec before keys) in *.
  intros k g Hk. rewrite nth_error_map in Hk.
  destruct (nth_error keys k) as [x|] eqn:Hx; [|discriminate].
  simpl in Hk. inversion Hk; subst g; clear Hk.
  assert (Hxk : In x keys) by apply (nth_error_In _ _ Hx).
  assert (Hxu : In x u) by (apply Hin; exact Hxk).
  exists (first_index eq_dec x keys), x.
  rewrite nth_error_map, (first_index_nth eq_dec x u Hxu). simpl.
  split; [reflexivity|]. split; [apply first_index_nth; exact Hxk | reflexivity].
Qed.

End UniqueFirst.

(** *** The compacted lists fit their pseudo-denticities *)

Lemma map_repeat_positive sel nlig D ro rd pd :
  map_repeat_to_highdent sel nlig D = Ok (ro, rd, pd) -> 0 < pd.
Proof.
  unfold map_repeat_to_highdent. intros H.
  inv_bind H. inv_bind H. inversion H; subst; clear H.
  unfold reshape in Ha. destruct (nlig * D <=? 0) eqn:Hw; [discriminate|].
  apply Z.leb_gt in Hw. exact Hw.
Qed.

Lemma patterns_fit_nth rest dents :
  patterns_fit rest dents ->
  forall i sel d, nth_error rest i = Some sel -> nth_error dents i = Some d ->
    0 < d /\ Forall (fun r => len r = d) sel.
Proof.
  intros H i sel d Hs Hd. apply (Forall2_nth_both _ _ _ H i sel d Hs Hd).
Qed.

Lemma Forall_nth {A} (P : A -> Prop) (l : list A) i x :
  Forall P l -> nth_error l i = Some x -> P x.
Proof.
  intros H Hx. rewrite Forall_forall in H. apply H. apply (nth_error_In _ _ Hx).
Qed.

(** What the first loop leaves fits: group [j] has rows of
    [count * denticity] sites, none of them listing a site twice when the
    original rows list none twice. *)
Lemma intermediate_fit ucounts dents sels uinds uinv inter pseudo dicts :
  (forall g, (g < List.length uinds)%nat ->
             nth_error ucounts g = Some (Z.of_nat (occurrences_before g uinv))) ->
  patterns_fit sels dents ->
  intermediate_loop ucounts dents sels 0 uinds = Ok (inter, pseudo, dicts) ->
  patterns_fit inter pseudo
  /\ (Forall (Forall (@NoDup Z)) sels -> Forall (Forall (@NoDup Z)) inter)
  /\ forall g ind, nth_error uinds g = Some ind ->
       exists d, nth_error dents ind = Some d
                 /\ nth_error pseudo g = Some (Z.of_nat (occurrences_before g uinv) * d).
Proof.
  intros Hcnt Hfit H.
  destruct (intermediate_loop_spec _ _ _ _ _ _ _ _ H) as [Hl1 [Hl2 [Hl3 Hg]]].
  assert (Hall : forall g ind, nth_error uinds g = Some ind ->
            exists sel' d d',
              nth_error inter g = Some sel' /\ nth_error pseudo g = Some d'
              /\ nth_error dents ind = Some d
              /\ d' = Z.of_nat (occurrences_before g uinv) * d
              /\ 0 < d' /\ Forall (fun r => len r = d') sel'
              /\ (Forall (Forall (@NoDup Z)) sels -> Forall (@NoDup Z) sel')).
  { intros g ind Hind.
    assert (Hlt : (g < List.length uinds)%nat).
    { apply nth_error_Some. rewrite Hind. discriminate. }
    destruct (Hg g ind Hind) as [c [sel [d [Hc [Hs [Hd Hcase]]]]]].
    simpl in Hc. rewrite (Hcnt g Hlt) in Hc. inversion Hc; subst c; clear Hc.
    destruct (patterns_fit_nth _ _ Hfit ind sel d Hs Hd) as [Hpos Hrows].
    destruct Hcase as [[H1 [Hi [_ Hp]]] | [Hn1 [ro [rd [Hmap [Hi [_ Hp]]]]]]].
    - exists sel, d, d. rewrite H1, Z.mul_1_l.
      repeat (split; [assumption || reflexivity|]).
      intros Hnd. apply (Forall_nth _ _ _ _ Hnd Hs).
    - exists ro, d, (Z.of_nat (occurrences_before g uinv) * d).
      pose proof (map_repeat_positive _ _ _ _ _ _ Hmap) as Hpd.
      destruct (map_repeat_to_highdent_spec _ _ _ _ _ _ Hmap (Nat2Z.is_nonneg _) Hrows)
        as [_ Hro].
      split; [exact Hi|]. split; [exact Hp|]. split; [exact Hd|].
      split; [reflexivity|]. split; [exact Hpd|]. split.
      + apply Forall_forall. intros crow Hin.
        destruct (Hro crow Hin) as [rows [_ [_ [_ [_ [_ Hlen]]]]]]. exact Hlen.
      + intros _. apply Forall_forall. intros crow Hin.
        destruct (Hro crow Hin) as [rows [_ [_ [_ [_ [Hnd _]]]]]]. exact Hnd. }
  assert (Hind : forall g, (g < List.length uinds)%nat ->
                           exists ind, nth_error uinds g = Some ind).
  { intros g Hlt. destruct (nth_error uinds g) eqn:E; [eauto|].
    apply nth_error_None in E. lia. }
  split; [|split].
  - apply Forall2_intro; [congruence|].
    intros p x y Hx Hy.
    assert (Hlt : (p < List.length uinds)%nat).
    { rewrite <- Hl1. apply nth_error_Some. rewrite Hx. discriminate. }
    destruct (Hind p Hlt) as [ind Hi].
    destruct (Hall p ind Hi) as [sel' [d [d' [Hs [Hp [_ [_ [Hpos [Hrows _]]]]]]]]].
    rewrite Hs in Hx. rewrite Hp in Hy. inversion Hx; inversion Hy; subst.
    split; assumption.
  - intros Hnd. apply Forall_intro_nth. intros p x Hx.
    assert (Hlt : (p < List.length uinds)%nat).
    { rewrite <- Hl1. apply nth_error_Some. rewrite Hx. discriminate. }
    destruct (Hind p Hlt) as [ind Hi].
    destruct (Hall p ind Hi) as [sel' [d [d' [Hs [_ [_ [_ [_ [_ Hn]]]]]]]]].
    rewrite Hs in Hx. inversion Hx; subst. apply Hn. exact Hnd.
  - intros g ind Hi.
    destruct (Hall g ind Hi) as [sel' [d [d' [_ [Hp [Hd [He _]]]]]]].
    exists d. subst d'. split; assumption.
Qed.


(** The compaction keeps the lists fit for the search: the rows match the
    new denticities, the denticities still add up to the same number of
    sites, and no row lists a site twice. *)
Lemma map_all_fit sels dents uinds uinv ucounts invd sel' dents' invi :
  unique_data (List.length dents) uinds uinv ucounts ->
  (forall k g, nth_error uinv k = Some g ->
     exists ind, nth_error uinds g = Some ind
                 /\ nth_error dents ind = nth_error dents k) ->
  patterns_fit sels dents ->
  map_all_repeat_to_highdent uinds uinv ucounts dents sels
  = Ok (invd, sel', dents', invi) ->
  patterns_fit sel' dents'
  /\ sumZ dents' = sumZ dents
  /\ (Forall (Forall (@NoDup Z)) sels -> Forall (Forall (@NoDup Z)) sel')
  /\ ((invd = None /\ invi = None /\ sel' = sels)
      \/ exists d i, invd = Some d /\ invi = Some i).
Proof.
  intros [Hlc [Hlv [Hgv Hcnt]]] Hsame Hfit H.
  unfold map_all_repeat_to_highdent in H.
  destruct (negb (existsb (fun c => 1 <? c) ucounts)).
  { inversion H; subst; clear H.
    split; [exact Hfit|]. split; [reflexivity|]. split; [tauto|].
    left. repeat split. }
  inv_bind H. destruct a as [[inter pseudo] dicts].
  inv_bind H. destruct a as [ds sels0]. inv_bind H.
  cbn [fst snd] in H. inversion H; subst invd sel' dents' invi; clear H.
  destruct (intermediate_fit _ _ _ _ uinv _ _ _ Hcnt Hfit Ha) as [Hif [Hnd Hps]].
  destruct (intermediate_loop_spec _ _ _ _ _ _ _ _ Ha) as [Hl1 [Hl2 [Hl3 _]]].
  destruct (reorder_loop_spec _ _ _ _ _ Ha0) as [Hr1 [Hr2 Hr]].
  pose proof (reorder_loop_reorder _ _ _ _ _ Ha0) as Hds.
  pose proof (dent_order_perm pseudo) as Hperm.
  set (order := rev (argsort pseudo)) in *.
  assert (Hord : forall p, (p < List.length order)%nat ->
                           exists j, nth_error order p = Some j).
  { intros p Hp. destruct (nth_error order p) eqn:E; [eauto|].
    apply nth_error_None in E. lia. }
  split; [|split; [|split]].
  - apply Forall2_intro; [congruence|].
    intros p x y Hx Hy.
    assert (Hp : (p < List.length order)%nat).
    { rewrite <- Hr1. apply nth_error_Some. rewrite Hx. discriminate. }
    destruct (Hord p Hp) as [j Hj].
    destruct (Hr p j Hj) as [sel [d [Hi [Hs [Hpj Hd]]]]].
    rewrite Hs in Hx. rewrite Hd in Hy. inversion Hx; inversion Hy; subst.
    apply (patterns_fit_nth _ _ Hif j x y Hi Hpj).
  - assert (Hsum1 : sumZ ds = sumZ pseudo).
    { subst ds. apply sumZ_perm, reorder_perm. exact Hperm. }
    rewrite Hsum1.
    set (f := fun g => nth (nth g uinds 0%nat) dents 0).
    assert (Hd : dents = map f uinv).
    { apply nth_error_ext. intros n. rewrite nth_error_map.
      destruct (nth_error uinv n) as [g|] eqn:Hg; simpl.
      - destruct (Hsame n g Hg) as [ind [Hi He]].
        assert (Hn : (n < List.length dents)%nat).
        { rewrite <- Hlv. apply nth_error_Some. rewrite Hg. discriminate. }
        destruct (nth_error dents n) as [d|] eqn:Hdn;
          [|apply nth_error_None in Hdn; lia].
        f_equal. unfold f. rewrite (nth_error_nth _ _ 0%nat Hi).
        symmetry. apply (nth_error_nth _ _ 0 He).
      - apply nth_error_None. apply nth_error_None in Hg. lia. }
    replace (sumZ dents) with (sumZ (map f uinv)) by (rewrite <- Hd; reflexivity).
    rewrite (sum_by_key (List.length uinds) f uinv Hgv).
    rewrite <- Hl2. apply sumZ_pointwise. intros i x Hx. simpl.
    assert (Hi : (i < List.length uinds)%nat).
    { rewrite <- Hl2. apply nth_error_Some. rewrite Hx. discriminate. }
    destruct (nth_error uinds i) as [ind|] eqn:Hind;
      [|apply nth_error_None in Hind; lia].
    destruct (Hps i ind Hind) as [d [Hdi Hpi]].
    rewrite Hpi in Hx. inversion Hx; subst x. f_equal.
    unfold f. rewrite (nth_error_nth _ _ 0%nat Hind).
    symmetry. apply (nth_error_nth _ _ 0 Hdi).
  - intros Hn. specialize (Hnd Hn). apply Forall_intro_nth. intros p x Hx.
    assert (Hp : (p < List.length order)%nat).
    { rewrite <- Hr1. apply nth_error_Some. rewrite Hx. discriminate. }
    destruct (Hord p Hp) as [j Hj].
    destruct (Hr p j Hj) as [sel [d [Hi [Hs _]]]].
    rewrite Hs in Hx. inversion Hx; subst.
    apply (Forall_nth _ _ _ _ Hnd Hi).
  - right. eauto.
Qed.


(** *** The inverse map keeps the sites *)

Lemma flat_map_app_perm {A C} (a b : A -> list C) (l : list A) :
  Permutation (flat_map (fun g => a g ++ b g) l) (flat_map a l ++ flat_map b l).
Proof.
  induction l as [|x r IH]; simpl; [apply Permutation_refl|].
  rewrite <- !app_assoc. apply Permutation_app_head.
  eapply Permutation_trans; [apply Permutation_app_head, IH|].
  rewrite !app_assoc. apply Permutation_app_tail, Permutation_app_comm.
Qed.

Lemma indicator_flat {C} (r : list C) x : forall G off,
  (off <= x < off + G)%nat ->
  flat_map (fun g => if Nat.eqb x g then r else []) (seq off G) = r.
Proof.
  assert (Hz : forall n o, (x < o)%nat ->
            flat_map (fun g => if Nat.eqb x g then r else []) (seq o n) = []).
  { induction n as [|n IHn]; intros o Ho; [reflexivity|]. simpl.
    replace (Nat.eqb x o) with false by (symmetry; apply Nat.eqb_neq; lia).
    apply IHn. lia. }
  induction G as [|G IH]; intros off Hx; [lia|].
  simpl. destruct (Nat.eqb x off) eqn:He.
  - apply Nat.eqb_eq in He. subst off. rewrite Hz by lia. apply app_nil_r.
  - apply Nat.eqb_neq in He. apply IH. lia.
Qed.

Lemma group_sites_cons g x uinv (r : row) fixed :
  group_sites g (x :: uinv) (r :: fixed)
  = (if Nat.eqb x g then r else []) ++ group_sites g uinv fixed.
Proof.
  unfold group_sites. simpl. destruct (Nat.eqb x g); reflexivity.
Qed.

(** The rows of all ligands are the rows of all groups. *)
Lemma partition_by_key (G : nat) : forall uinv fixed,
  (forall g, In g uinv -> (g < G)%nat) ->
  List.length uinv = List.length fixed ->
  Permutation (List.concat fixed)
              (flat_map (fun g => group_sites g uinv fixed) (seq 0 G)).
Proof.
  induction uinv as [|x uinv IH]; intros [|r fixed] Hlt Hlen; simpl in Hlen;
    try discriminate.
  - simpl. induction (seq 0 G) as [|g l IHl]; simpl; [constructor | exact IHl].
  - rewrite (flat_map_ext _ (fun g => (fun g => if Nat.eqb x g then r else []) g
                                      ++ (fun g => group_sites g uinv fixed) g)).
    + eapply Permutation_trans; [|apply Permutation_sym, flat_map_app_perm].
      rewrite indicator_flat by (specialize (Hlt x (or_introl eq_refl)); lia).
      simpl. apply Permutation_app_head. apply IH; [|lia].
      intros g Hg. apply Hlt. right. exact Hg.
    + intros g. apply group_sites_cons.
Qed.

Lemma Forall2_perm_concat {A} (H : A -> list Z) : forall l (incombo : list row),
  Forall2 (fun g crow => Permutation (H g) crow) l incombo ->
  Permutation (flat_map H l) (List.concat incombo).
Proof.
  induction 1 as [|g crow l incombo Hp _ IH]; simpl; [constructor|].
  apply Permutation_app; assumption.
Qed.

(** The rows the inverse map returns hold, together, exactly the sites of
    the rows it was given. *)
Lemma inverse_same_sites {A : Type}
      (eq_dec : forall a b : A, {a = b} + {a <> b}) (before : A -> A -> bool)
      (strs : list A) (denticities : list Z) (sels : list con_list)
      (uinds uinv : list nat) (ucounts : list Z)
      (inv_dicts : list (option refdict)) (sel_out : list con_list)
      (out_dents : list Z) (inv_inds : list inv_ind) (incombo fixed : list row) :
  np_unique eq_dec before strs = (uinds, uinv, ucounts) ->
  (forall ind sel d, nth_error sels ind = Some sel -> nth_error denticities ind = Some d ->
                     Forall (fun r => len r = d) sel) ->
  map_all_repeat_to_highdent uinds uinv ucounts denticities sels
  = Ok (Some inv_dicts, sel_out, out_dents, Some inv_inds) ->
  Forall2 (fun r rows => In r rows) incombo sel_out ->
  inv_map_highdent_to_repeat incombo inv_dicts inv_inds = Ok fixed ->
  Permutation (List.concat fixed) (List.concat incombo).
Proof.
  intros Hu Hw Hm Hc Hinv.
  destruct (round_trip_groups eq_dec before strs denticities sels uinds uinv ucounts
              inv_dicts sel_out out_dents inv_inds incombo Hu Hw Hm Hc)
    as [fixed' [H1 [H2 [_ [order [Hperm [Hlen Hg]]]]]]].
  rewrite H1 in Hinv. inversion Hinv; subst fixed'; clear Hinv.
  destruct (np_unique_data eq_dec before _ _ _ _ Hu) as [_ [Hlv [Hgv _]]].
  eapply Permutation_trans;
    [apply (partition_by_key (List.length uinds) uinv fixed Hgv); congruence|].
  eapply Permutation_trans;
    [apply Permutation_flat_map, Permutation_sym, Hperm|].
  apply Forall2_perm_concat.
  assert (Hnd : NoDup order).
  { apply (Permutation_NoDup (Permutation_sym Hperm)), seq_NoDup. }
  pose proof (Permutation_length Hperm) as Hlo. rewrite length_seq in Hlo.
  apply Forall2_intro; [congruence|].
  intros p g crow' Hp Hcrow'.
  assert (Hlt : (g < List.length uinds)%nat).
  { apply nth_error_In in Hp. apply (Permutation_in _ Hperm) in Hp.
    apply in_seq in Hp. lia. }
  destruct (Hg g Hlt) as [pos [crow [Hpos [Hcrow [_ Hpm]]]]].
  assert (Epos : pos = p).
  { apply (proj1 (NoDup_nth_error order) Hnd).
    - apply nth_error_Some. rewrite Hpos. discriminate.
    - congruence. }
  subst pos. rewrite Hcrow in Hcrow'. inversion Hcrow'; subst. exact Hpm.
Qed.


(** *** The placement order *)

Lemma ordered_perm (res : list resolved) :
  Permutation (reorder res (rev (argsort (map r_denticity res)))) res.
Proof.
  apply reorder_perm. rewrite <- (length_map r_denticity). apply dent_order_perm.
Qed.

Lemma Forall_perm {A} (P : A -> Prop) (l l' : list A) :
  Permutation l l' -> Forall P l -> Forall P l'.
Proof.
  intros Hp H. apply Forall_forall. intros x Hx.
  rewrite Forall_forall in H. apply H. apply (Permutation_in _ (Permutation_sym Hp) Hx).
Qed.

Lemma coordinated_perm cn (res res' : list resolved) :
  Permutation res res' -> coordinated cn res -> coordinated cn res'.
Proof.
  intros Hp [Hrows Hsum]. split; [apply (Forall_perm _ _ _ Hp Hrows)|].
  rewrite <- Hsum. apply sumZ_perm, Permutation_map, Permutation_sym, Hp.
Qed.

Lemma coordinated_fit cn (res : list resolved) :
  coordinated cn res -> patterns_fit (map r_cons res) (map r_denticity res).
Proof.
  intros [Hrows _]. unfold patterns_fit.
  induction Hrows as [|r l Hr _ IH]; simpl; constructor; assumption.
Qed.

Lemma patterns_of_charge geo ct cn l c :
  patterns_of geo ct cn (set_ligCharge l c) = patterns_of geo ct cn l.
Proof. reflexivity. Qed.

Lemma denticity_of_charge geo ct cn l c :
  denticity_of geo ct cn (set_ligCharge l c) = denticity_of geo ct cn l.
Proof. reflexivity. Qed.

(** Ligands with the same dictionary have the same patterns and the same
    denticity. *)
Lemma same_key_same_patterns {B : SymBoundary} geo ct cn (ordered : list resolved)
      uinds uinv ucounts :
  Forall (determined geo ct cn) ordered ->
  np_unique LigInput_eq_dec (str_before B)
            (map (fun r => set_ligCharge (r_lig r) (r_charge r)) ordered)
  = (uinds, uinv, ucounts) ->
  forall k g, nth_error uinv k = Some g ->
    exists ind, nth_error uinds g = Some ind
                /\ nth_error (map r_cons ordered) ind = nth_error (map r_cons ordered) k
                /\ nth_error (map r_denticity ordered) ind
                   = nth_error (map r_denticity ordered) k.
Proof.
  intros Hdet Hu k g Hk.
  destruct (np_unique_first _ _ _ _ _ _ Hu k g Hk) as [ind [x [Hi [Hx1 Hx2]]]].
  exists ind. split; [exact Hi|].
  rewrite nth_error_map in Hx1, Hx2. rewrite !nth_error_map.
  destruct (nth_error ordered ind) as [r1|] eqn:H1; [|discriminate].
  destruct (nth_error ordered k) as [r2|] eqn:H2; [|discriminate].
  simpl in *. inversion Hx1 as [E1]. inversion Hx2 as [E2].
  destruct (Forall_nth _ _ _ _ Hdet H1) as [Hc1 [Hd1 _]].
  destruct (Forall_nth _ _ _ _ Hdet H2) as [Hc2 [Hd2 _]].
  rewrite Hc1, Hc2, Hd1, Hd2.
  rewrite <- (patterns_of_charge geo ct cn (r_lig r1) (r_charge r1)).
  rewrite <- (patterns_of_charge geo ct cn (r_lig r2) (r_charge r2)).
  rewrite <- (denticity_of_charge geo ct cn (r_lig r1) (r_charge r1)).
  rewrite <- (denticity_of_charge geo ct cn (r_lig r2) (r_charge r2)).
  rewrite E1, E2. split; reflexivity.
Qed.

Lemma mapM_np_array (l sels : list con_list) :
  mapM np_array l = Ok sels -> sels = l.
Proof.
  apply mapM_id. intros x y H. apply (np_array_ok _ _ H).
Qed.


(** *** The candidates *)

Lemma firstn_In {A} (x : A) n l : In x (firstn n l) -> In x l.
Proof.
  intros H. rewrite <- (firstn_skipn n l). apply in_or_app. left. exact H.
Qed.

Lemma picks_fit (L : list row) sel' dents' :
  Forall2 (fun r sel => In r sel) L sel' ->
  patterns_fit sel' dents' ->
  Forall2 (fun (r : row) d => len r = d) L dents'.
Proof.
  intros HL. revert dents'.
  induction HL as [|r sel L sel' Hin _ IH]; intros dents' Hfit;
    inversion Hfit as [|? d ? ds [_ Hrows] Hfit']; subst; constructor.
  - rewrite Forall_forall in Hrows. apply Hrows. exact Hin.
  - apply IH. exact Hfit'.
Qed.

(** The leaves of the search over lists that fit: one row of every list,
    no site twice, [cn] sites in all. *)
Lemma search_leaves cn sel' dents' t :
  patterns_fit sel' dents' ->
  sumZ dents' = cn ->
  generate_good_combos sel' 0 [] cn = Ok t ->
  forall L, In L (leaves t) ->
    Forall2 (fun r sel => In r sel) L sel'
    /\ len (List.concat L) = cn
    /\ (forall A r C, L = A ++ r :: C ->
          forall x, In x r -> ~ In x (List.concat A))
    /\ (Forall (Forall (@NoDup Z)) sel' -> NoDup (List.concat L)).
Proof.
  intros Hfit Hsum Ht L HL. unfold generate_good_combos in Ht. simpl in Ht.
  pose proof (good_combos_leaves cn sel' [] t Ht L HL) as Hp.
  destruct (picked_full cn sel' [] L Hp dents' Hfit) as [picks [E [HF [Hlen [Hdis Hnd]]]]].
  { simpl. unfold len. simpl. lia. }
  simpl in E. subst picks.
  split; [exact HF|]. split; [exact Hlen|]. split.
  - intros A r C Heq. apply (Hdis A r C Heq).
  - intros Hall. apply Hnd; [constructor | exact Hall].
Qed.


Section Placement.

Variable B : SymBoundary.

(** Every candidate [place_ligands] returns comes from a leaf of the
    search: one row of every compacted list, the rows apart from each other,
    [cn] sites in all, and the candidate claims exactly the sites of the
    leaf. *)
Lemma place_ligands_leaf geo ct ps cn res l cands good :
  Forall (determined geo ct cn) res ->
  coordinated cn res ->
  place_ligands B ct ps cn res = Ok (l, cands, good) ->
  forall cand, In cand cands ->
    exists ordered uinds uinv ucounts invd sel' dents' invi (L : list row),
      placement B res ordered uinds uinv ucounts invd sel' dents' invi
      /\ Forall2 (fun r sel => In r sel) L sel'
      /\ len (List.concat L) = cn
      /\ (forall A r C, L = A ++ r :: C ->
            forall x, In x r -> ~ In x (List.concat A))
      /\ (Forall (Forall (@NoDup Z)) sel' -> NoDup (List.concat L))
      /\ Permutation (claimed_sites cand) (List.concat L).
Proof.
  intros Hdet Hco H cand Hcand. unfold place_ligands in H.
  pose proof (ordered_perm res) as Hperm.
  set (ordered := reorder res (rev (argsort (map r_denticity res)))) in *.
  apply Permutation_sym in Hperm.
  pose proof (Forall_perm _ _ _ Hperm Hdet) as Hdet'.
  pose proof (coordinated_perm _ _ _ Hperm Hco) as Hco'.
  inv_bind H. apply mapM_np_array in Ha. subst a.
  destruct (np_unique LigInput_eq_dec (str_before B)
              (map (fun r => set_ligCharge (r_lig r) (r_charge r)) ordered))
    as [[uinds uinv] ucounts] eqn:Hu.
  inv_bind H. destruct a as [[[invd sel'] dents'] invi].
  pose proof (coordinated_fit _ _ Hco') as Hfit.
  pose proof (np_unique_data _ _ _ _ _ _ Hu) as Hud.
  rewrite length_map, <- (length_map r_denticity) in Hud.
  pose proof (same_key_same_patterns geo ct cn ordered uinds uinv ucounts Hdet' Hu)
    as Hsame.
  destruct (map_all_fit _ _ _ _ _ _ _ _ _ Hud
              (fun k g Hk => match Hsame k g Hk with
                             | ex_intro _ ind (conj Hi (conj _ Hd)) =>
                                 ex_intro _ ind (conj Hi Hd)
                             end) Hfit Ha)
    as [Hfit' [Hsum [_ Hcase]]].
  assert (Hcn : sumZ dents' = cn) by (rewrite Hsum; apply Hco').
  destruct (forallb r_good res); [|inversion H; subst; destruct Hcand].
  inv_bind H. rename a into t, Ha0 into Ht.
  destruct (0 <? nested_len t); [|inversion H; subst; destruct Hcand].
  inv_bind H. rename a into tmp, Ha0 into Htmp.
  inv_bind H. destruct a as [oc oe]. rename Ha0 into Hkept.
  destruct oc as [|c1 oc']; [inversion H; subst; destruct Hcand|].
  inv_bind H. inversion H; subst l cands good; clear H.
  pose proof (search_leaves cn sel' dents' t Hfit' Hcn Ht) as Hleaf.
  rewrite Hcn in Htmp.
  apply reshape_leaves in Htmp; [|intros L HL; apply (Hleaf L HL)].
  destruct (mapM_In _ _ _ Ha0 cand Hcand) as [c [Hc Hexp]].
  apply reorder_In in Hc.
  destruct (score_loop_kept B _ _ _ _ _ _ _ _ _ _ Hkept c Hc) as [[]|[c0 [Hc0 Hm]]].
  apply firstn_In in Hc0. rewrite Htmp in Hc0. apply in_map_iff in Hc0.
  destruct Hc0 as [L [E HL]]. subst c0.
  destruct (Hleaf L HL) as [HF [Hlen [Hdis HndL]]].
  rewrite (split_by_concat L dents' (picks_fit _ _ _ HF Hfit')) in Hm.
  assert (Hsites : Permutation (List.concat c) (List.concat L)).
  { destruct Hcase as [[E1 [E2 E3]] | [d [i [E1 E2]]]]; subst invd invi.
    - subst c. apply Permutation_refl.
    - apply (inverse_same_sites LigInput_eq_dec (str_before B) _ _ _ _ _ _ _ _ _ _ _ _
               Hu (fun ind sel d0 Hs Hd => proj2 (patterns_fit_nth _ _ Hfit ind sel d0 Hs Hd))
               Ha HF Hm). }
  assert (Hne : forall lig,
             In lig (map (fun r => set_ligCharge (r_lig r) (r_charge r)) ordered) ->
             coordList lig <> []).
  { intros lig Hin. apply in_map_iff in Hin. destruct Hin as [r [E Hr]]. subst lig.
    simpl. rewrite Forall_forall in Hdet'. apply (Hdet' r Hr). }
  exists ordered, uinds, uinv, ucounts, invd, sel', dents', invi, L.
  split; [split; assumption|]. split; [exact HF|]. split; [exact Hlen|].
  split; [exact Hdis|]. split; [exact HndL|].
  rewrite (expand_sites _ _ _ _ Hne Hexp). exact Hsites.
Qed.

(** What holds of a placement of ligands that fit the core. *)
Lemma placement_fit geo ct cn res ordered uinds uinv ucounts invd sel' dents' invi :
  Forall (determined geo ct cn) res ->
  coordinated cn res ->
  placement B res ordered uinds uinv ucounts invd sel' dents' invi ->
  unique_data (List.length (map r_denticity ordered)) uinds uinv ucounts
  /\ (forall k g, nth_error uinv k = Some g ->
        exists ind, nth_error uinds g = Some ind
                    /\ nth_error (map r_cons ordered) ind
                       = nth_error (map r_cons ordered) k)
  /\ patterns_fit (map r_cons ordered) (map r_denticity ordered)
  /\ (Forall (Forall (@NoDup Z)) (map r_cons ordered) ->
      Forall (Forall (@NoDup Z)) sel').
Proof.
  intros Hdet Hco [Hperm Hu Hm].
  pose proof (Forall_perm _ _ _ Hperm Hdet) as Hdet'.
  pose proof (coordinated_perm _ _ _ Hperm Hco) as Hco'.
  pose proof (coordinated_fit _ _ Hco') as Hfit.
  pose proof (np_unique_data _ _ _ _ _ _ Hu) as Hud.
  rewrite length_map, <- (length_map r_denticity) in Hud.
  pose proof (same_key_same_patterns geo ct cn ordered uinds uinv ucounts Hdet' Hu)
    as Hsame.
  destruct (map_all_fit _ _ _ _ _ _ _ _ _ Hud
              (fun k g Hk => match Hsame k g Hk with
                             | ex_intro _ ind (conj Hi (conj _ Hd)) =>
                                 ex_intro _ ind (conj Hi Hd)
                             end) Hfit Hm)
    as [_ [_ [Hnd _]]].
  split; [exact Hud|]. split; [|split; [exact Hfit | exact Hnd]].
  intros k g Hk. destruct (Hsame k g Hk) as [ind [Hi [Hs _]]]. eauto.
Qed.

(** Every candidate [place_ligands] returns claims each site at most once,
    and [cn] sites in all, when the resolved ligands fit the core and list no
    site twice in a pattern. *)
Lemma place_ligands_sites geo ct ps cn res l cands good :
  Forall (determined geo ct cn) res ->
  coordinated cn res ->
  duplicate_free res ->
  place_ligands B ct ps cn res = Ok (l, cands, good) ->
  forall cand, In cand cands ->
    NoDup (claimed_sites cand) /\ len (claimed_sites cand) = cn.
Proof.
  intros Hdet Hco Hdf H cand Hcand.
  destruct (place_ligands_leaf _ _ _ _ _ _ _ _ Hdet Hco H cand Hcand)
    as [ordered [uinds [uinv [ucounts [invd [sel' [dents' [invi [L
         [Hpl [_ [Hlen [_ [HndL Hsites]]]]]]]]]]]]]].
  destruct (placement_fit _ _ _ _ _ _ _ _ _ _ _ _ Hdet Hco Hpl) as [_ [_ [_ Hnd]]].
  assert (Hnd' : Forall (Forall (@NoDup Z)) sel').
  { apply Hnd. apply Forall_forall. intros c Hc. apply in_map_iff in Hc.
    destruct Hc as [r [E Hr]]. subst c.
    pose proof (Forall_perm _ _ _ (placed_perm B _ _ _ _ _ _ _ _ _ Hpl) Hdf) as Hdf'.
    rewrite Forall_forall in Hdf'. apply Hdf'. exact Hr. }
  split.
  - apply (Permutation_NoDup (Permutation_sym Hsites)). apply HndL. exact Hnd'.
  - unfold len. rewrite (Permutation_length Hsites). exact Hlen.
Qed.

End Placement.


(** *** Two ligands with the same single one-site pattern *)










(** *** The force-trans rule for oxos *)




Section Oxos.

Variable B : SymBoundary.


End Oxos.



Section Twins.

Variable B : SymBoundary.



End Twins.


(** *** Site disjointness of the candidates (C3) *)

(** C3 fails for a 'mono' ligand whose two atoms the caller pinned to the
    same site: the only pattern is [[1, 1]], the search takes it, and the
    candidate returned claims site 1 twice. *)
Lemma sites_disjoint_counterexample :
  ~ sites_disjoint example_sym_boundary [pinned_twice] "linear" example_geometry
      (example_sym_params false).
Proof.
  intros H.
  destruct (H _ _ _ _ eq_refl (or_introl eq_refl)) as [Hnd _].
  vm_compute in Hnd. inversion Hnd as [|? ? Hnin _]; subst.
  apply Hnin. left. reflexivity.
Qed.

(** C3, amended.  When the resolved ligands fit the core (every pattern
    has as many sites as its ligand's denticity, which is positive, and the
    denticities add up to the coordination number [cn] of the core) and no
    pattern lists a site twice, every candidate [select_cons] returns claims
    no site twice and [cn] sites in all. *)
Theorem select_cons_sites_disjoint (B : SymBoundary) (ligs : list LigInput) (ct : string)
        (geo : Geometry) (ps : SymParams) (cn : Z) (res : list resolved)
        (l : list LigInput) (cands : list (list (list tlig_entry))) (good : bool)
        (cand : list (list tlig_entry)) :
  resolved_ligands B ligs ct geo ps = Ok (cn, res) ->
  coordinated cn res ->
  duplicate_free res ->
  select_cons B ligs ct geo ps = Ok (l, cands, good) ->
  In cand cands ->
  NoDup (claimed_sites cand)
  /\ len (claimed_sites cand) = cn
  /\ assoc ct (geo_cn_dict geo) = Some cn.
Proof.
  intros Hres Hco Hdf Hsel Hcand.
  unfold select_cons in Hsel. rewrite Hres in Hsel. cbn [bind fst snd] in Hsel.
  unfold resolved_ligands in Hres.
  inv_bind Hres. inv_bind Hres. inv_bind Hres. inversion Hres; subst a a1; clear Hres.
  pose proof (resolve_loop_determined B _ _ _ _ _ _ _ Ha1) as Hdet.
  destruct (place_ligands_sites B geo ct ps cn res l cands good Hdet Hco Hdf Hsel
              cand Hcand) as [Hnd Hlen].
  split; [exact Hnd|]. split; [exact Hlen|].
  destruct (assoc ct (geo_cn_dict geo)); inversion Ha; reflexivity.
Qed.

(** C3 amended, at two chlorides on a linear core: the candidate puts one
    at site 0 and the other at site 1. *)
Lemma select_cons_sites_disjoint_witness :
  NoDup (claimed_sites [[AtomSite (Atom 0) 0]; [AtomSite (Atom 0) 1]])
  /\ len (claimed_sites [[AtomSite (Atom 0) 0]; [AtomSite (Atom 0) 1]]) = 2
  /\ assoc "linear" (geo_cn_dict example_geometry) = Some 2.
Proof.
  eapply (select_cons_sites_disjoint example_sym_boundary [chloride; chloride] "linear"
            example_geometry (example_sym_params false)).
  - vm_compute. reflexivity.
  - split; [|reflexivity].
    repeat (constructor; try reflexivity).
  - repeat (constructor; try (intros [])).
  - vm_compute. reflexivity.
  - left. reflexivity.
Defined.


(** C6, at two chlorides on a linear core: the compacted row [[0, 1]]
    goes back to the rows [[0]] and [[1]], one per chloride. *)
Lemma repeat_compaction_round_trip_witness :
  exists fixed,
    inv_map_highdent_to_repeat [[0; 1]] [Some [([0; 1], [[0]; [1]])]]
                               [(0, 0, 0); (0, 0, 1)]%nat = Ok fixed
    /\ List.length fixed = 2%nat
    /\ (forall k g r, nth_error [0; 0]%nat k = Some g -> nth_error fixed k = Some r ->
          exists ind sel, nth_error [0%nat] g = Some ind
                          /\ nth_error [[[0]; [1]]; [[0]; [1]]] ind = Some sel
                          /\ In r sel)
    /\ (forall g, (g < 1)%nat ->
          exists pos crow,
            nth_error [[0; 1]] pos = Some crow
            /\ (forall k, nth_error [0; 0]%nat k = Some g ->
                   exists occ, nth_error [(0, 0, 0); (0, 0, 1)]%nat k = Some (g, pos, occ))
            /\ Permutation (group_sites g [0; 0]%nat fixed) crow).
Proof.
  apply (repeat_compaction_round_trip LigInput_eq_dec (str_before example_sym_boundary)
           [chloride; chloride] [1; 1] [[[0]; [1]]; [[0]; [1]]]
           [0%nat] [0; 0]%nat [2] _ [[[0; 1]]] [2] _ [[0; 1]]).
  - vm_compute. reflexivity.
  - intros [|[|ind]] sel d Hs Hd; simpl in Hs, Hd.
    + inversion Hs; inversion Hd; subst. repeat constructor.
    + inversion Hs; inversion Hd; subst. repeat constructor.
    + destruct ind; discriminate.
  - vm_compute. reflexivity.
  - repeat constructor.
Defined.

(** *** Oxos under [force_trans_oxos] (C10) *)





End SymProps.

(** ** More on the calculation executor *)
Module CalcFacts.
Import IoCalc CalcProps.

Section Runs.

Variable B : Boundary.

(** The protocol never changes [relax]: only the engine selection does. *)
Lemma run_protocol_relax s c : relax (run_protocol B s c) = relax s.
Proof.
  unfold run_protocol. destruct c as [cl|].
  - change (relax (attach s cl)) with (relax s). destruct (relax s) eqn:Hrs.
    + unfold engine_relax.
      destruct (try_except_cases (engine_relax_try B (freeze_first_component B (attach s cl)))
                                 engine_handler) as [[s1 [e [Hb Ht]]] | [s1 [Hb Ht]]];
        rewrite Ht;
        assert (Hr : relax s1 = relax s)
          by (assert (E : s1 = fst (engine_relax_try B (freeze_first_component B (attach s cl))))
                by (rewrite Hb; reflexivity);
              rewrite E; unfold engine_relax_try, freeze_first_component;
              repeat break_match; reflexivity);
        break_match; simpl; congruence.
    + unfold engine_single_point, engine_single_point_try.
      break_match; simpl; exact Hrs.
  - destruct (relax s) eqn:Hr.
    + unfold ff_relax, ff_handler. repeat break_match; simpl; exact Hr.
    + unfold ff_single_point, ff_handler. break_match; simpl; exact Hr.
Qed.

Lemma fallback_relax s : relax (fallback B s) = relax s.
Proof.
  unfold fallback. break_match; [|reflexivity].
  unfold ff_single_point, ff_handler. break_match; reflexivity.
Qed.

(** The stages of a run up to the protocol, for an executor that passes
    the distance check. *)
Lemma evaluated_stages s s' :
  evaluated B s = Ok s' ->
  dists_sane (mol (pre_checks B s)) = true ->
  exists s2 c,
    select_engine B (assign_spin B (pre_checks B s)) = Ok (s2, c)
    /\ s' = set_out (fallback B (run_protocol B s2 c))
                    (set_done (out (fallback B (run_protocol B s2 c))) true).
Proof.
  unfold evaluated, evaluate. intros H Hd. rewrite Hd in H.
  inv_bind H. destruct a as [s2 c]. inversion H; subst; clear H.
  exists s2, c. split; [exact Ha | reflexivity].
Qed.

Lemma run_protocol_relax_fallback s c :
  relax (fallback B (run_protocol B s c)) = relax s.
Proof. rewrite fallback_relax. apply run_protocol_relax. Qed.


(** A single point calls no optimizer. *)
Lemma single_point_calls s c :
  relax s = false ->
  forall k, In k (engine_calls (fallback B (run_protocol B s c))) ->
    In k (engine_calls s) \/ k = CallTotalEnergy \/ k = CallObmolEnergy.
Proof.
  intros Hr.
  assert (Hff : forall s0 k, In k (engine_calls (ff_single_point B s0)) ->
                  In k (engine_calls s0) \/ k = CallObmolEnergy).
  { intros s0 k. unfold ff_single_point, ff_handler. break_match; simpl; intros Hk;
      apply in_app_or in Hk; destruct Hk as [Hk|[Hk|[]]]; auto. }
  assert (Hp : forall k, In k (engine_calls (run_protocol B s c)) ->
                 In k (engine_calls s) \/ k = CallTotalEnergy \/ k = CallObmolEnergy).
  { intros k. unfold run_protocol. destruct c as [cl|].
    - replace (relax (attach s cl)) with false by (symmetry; exact Hr).
      unfold engine_single_point, engine_single_point_try.
      break_match; simpl; intros Hk; apply in_app_or in Hk;
        destruct Hk as [Hk|[Hk|[]]]; auto.
    - rewrite Hr. intros Hk. destruct (Hff _ _ Hk); auto. }
  intros k. unfold fallback. break_match; [|apply Hp].
  intros Hk. destruct (Hff _ _ Hk) as [H1|H1]; [apply Hp; exact H1 | auto].
Qed.

(** What a run leaves in the executor it returns, read off the executor
    the engine selection produced. *)
Lemma calculate_stages a s :
  CalcExecutor B a = Ok s ->
  exists s0, init B a = Ok s0
    /\ ((dists_sane (mol (pre_checks B s0)) = false
         /\ out s = errors_append (out s0) (Message min_dist_message)
         /\ engine_calls s = []
         /\ relax s = relax s0)
        \/ (dists_sane (mol (pre_checks B s0)) = true
            /\ exists s2 c,
                 select_engine B (assign_spin B (pre_checks B s0)) = Ok (s2, c)
                 /\ out s = set_done (out (fallback B (run_protocol B s2 c))) true
                 /\ engine_calls s = engine_calls (fallback B (run_protocol B s2 c))
                 /\ relax s = relax s2
                 /\ out s2 = out s0
                 /\ engine_calls s2 = []
                 /\ positions (atoms s2)
                    = positions (ase_atoms (convert_io_molecule B (a_structure a))))).
Proof.
  unfold CalcExecutor, calculate. intros H.
  inv_bind H. rename a0 into s0, Ha into Hinit. inv_bind H. rename a0 into s1, Ha into Hev.
  inversion H; subst s; clear H. exists s0. split; [exact Hinit|].
  rewrite persist_out, finish_out.
  destruct (persist_keeps (finish B s1)) as [_ [Hc [_ [Hr _]]]].
  destruct (finish_keeps B s1) as [Hc' [_ [Hr' _]]].
  rewrite Hc, Hc', Hr, Hr'.
  destruct (pre_checks_keeps B s0) as [_ [Ho0 [Hc0 [Ha0 [_ Hr0]]]]].
  destruct (init_out B a s0 Hinit) as [Hout Hcalls].
  destruct (dists_sane (mol (pre_checks B s0))) eqn:Hd.
  - right. split; [reflexivity|].
    destruct (evaluated_stages s0 s1 Hev Hd) as [s2 [c [Hsel Es]]].
    exists s2, c. subst s1. cbn [out engine_calls relax set_out].
    destruct (assign_spin_keeps B (pre_checks B s0)) as [_ [Ho1 [Hc1 [Ha1 _]]]].
    destruct (select_engine_keeps B _ _ _ Hsel) as [_ [Ho2 [Hc2 Hp2]]].
    destruct (init_fields B a s0 Hinit) as [_ Hmol].
    split; [exact Hsel|]. split; [reflexivity|]. split; [reflexivity|].
    split; [rewrite run_protocol_relax_fallback; reflexivity|].
    split; [rewrite Ho2, Ho1, Ho0; reflexivity|].
    split; [rewrite Hc2, Hc1, Hc0; exact Hcalls|].
    rewrite Hp2. unfold atoms. rewrite Ha1, Ha0, Hmol. reflexivity.
  - left. split; [reflexivity|].
    unfold evaluated in Hev. rewrite Hd in Hev. inversion Hev; subst s1; clear Hev.
    cbn [out engine_calls relax set_out]. rewrite Ho0, Hc0, Hr0.
    repeat split. exact Hcalls.
Qed.

End Runs.

(** The constructor reads [assemble_method] and [full_method] as attributes
    of the executor, and only the caller's mapping can have set them: an
    assembly run whose mapping lacks 'assemble_method', and a plain run with
    a non-empty mapping that lacks 'full_method' (and asks for no force-field
    pre-optimisation), raise [AttributeError] before anything is evaluated. *)
Theorem missing_method_attribute (B : Boundary) (a : Args) :
  (a_assembly a = true ->
   p_assemble_method (a_parameters a) = None ->
   CalcExecutor B a = Raise (AttributeError "assemble_method"))
  /\ (a_assembly a = false -> a_species_run a = false ->
      parameters_nonempty (a_parameters a) = true ->
      overridden (p_ff_preopt_run (a_parameters a)) (a_ff_preopt_run a) = false ->
      p_full_method (a_parameters a) = None ->
      CalcExecutor B a = Raise (AttributeError "full_method")).
Proof.
  split.
  - intros Ha Hm. unfold CalcExecutor, init, resolve. rewrite Ha, Hm. reflexivity.
  - intros Ha Hs Hn Hff Hm. unfold CalcExecutor, init, resolve.
    rewrite Ha, Hs, Hn, Hff, Hm. reflexivity.
Qed.

Lemma missing_method_attribute_witness :
  CalcExecutor sound_engine (example_args empty_parameters false false false true "GFN2-xTB")
  = Raise (AttributeError "assemble_method")
  /\ CalcExecutor sound_engine
       (example_args debug_parameters false false false false "GFN2-xTB")
     = Raise (AttributeError "full_method").
Proof.
  split.
  - apply (proj1 (missing_method_attribute sound_engine
                    (example_args empty_parameters false false false true "GFN2-xTB")));
      reflexivity.
  - apply (proj2 (missing_method_attribute sound_engine
                    (example_args debug_parameters false false false false "GFN2-xTB")));
      reflexivity.
Defined.

(** A method that names no known engine ('gfn', 'uff' or 'mmff' in it, or
    'custom' with a calculator) makes the constructor raise [ValueError] once
    the structure has passed the distance check: unlike a failure of the
    engine, this error is not caught. *)
Theorem unknown_method_raises (B : Boundary) (a : Args) (s0 : Self) :
  init B a = Ok s0 ->
  dists_sane (mol (pre_checks B s0)) = true ->
  calculator (flags s0) && PyStr.contains "custom" (method s0) = false ->
  PyStr.contains "gfn" (PyStr.lower (method s0)) = false ->
  PyStr.contains "uff" (PyStr.lower (method s0)) = false ->
  PyStr.contains "mmff" (PyStr.lower (method s0)) = false ->
  CalcExecutor B a
  = Raise (ValueError "Warning - no known method or calculator requested.").
Proof.
  intros Hinit Hd Hc Hg Hu Hm.
  unfold CalcExecutor. rewrite Hinit. cbn [bind].
  unfold calculate, evaluated. rewrite Hd. unfold evaluate.
  destruct (pre_checks_keeps B s0) as [[Hf0 _ _] [_ [_ [_ [Hm0 _]]]]].
  destruct (assign_spin_keeps B (pre_checks B s0)) as [[Hf1 _ _] [_ [_ [_ [Hm1 _]]]]].
  unfold select_engine. rewrite Hm1, Hm0, Hf1, Hf0, Hc, Hg, Hu, Hm. reflexivity.
Qed.

Lemma unknown_method_raises_witness :
  CalcExecutor sound_engine (example_args empty_parameters false false false false "DFT")
  = Raise (ValueError "Warning - no known method or calculator requested.").
Proof.
  apply (unknown_method_raises sound_engine
           (example_args empty_parameters false false false false "DFT") _ eq_refl);
    reflexivity.
Defined.



(** A run that ends with [relax] off never moves an atom: it calls neither
    the ASE optimizer nor OpenBabel's, and the executor it returns holds the
    coordinates of the converted input. *)
Theorem unrelaxed_run_keeps_geometry (B : Boundary) (a : Args) (s : Self) :
  CalcExecutor B a = Ok s ->
  relax s = false ->
  ~ In CallOptimizer (engine_calls s)
  /\ ~ In CallObmolOpt (engine_calls s)
  /\ positions (atoms s)
     = positions (ase_atoms (convert_io_molecule B (a_structure a))).
Proof.
  intros H Hr.
  destruct (calculate_stages B a s H) as [s0 [Hinit Hcase]].
  assert (Hpos : positions (atoms s)
                 = positions (ase_atoms (convert_io_molecule B (a_structure a)))).
  { clear Hcase. unfold CalcExecutor, calculate in H. rewrite Hinit in H. cbn [bind] in H.
    inv_bind H. rename a0 into s1, Ha into Hev.
    inversion H; subst s; clear H.
    destruct (persist_keeps (finish B s1)) as [Hm [_ [_ [Hr1 _]]]].
    destruct (finish_keeps B s1) as [_ [_ [Hr2 _]]].
    unfold atoms. rewrite Hm. fold (atoms (finish B s1)). rewrite finish_positions.
    destruct (init_fields B a s0 Hinit) as [Hin Hmol].
    destruct (evaluated_same_run B s0 s1 Hev) as [_ Hin1 _].
    rewrite Hin1, Hin.
    destruct (any_isnan (positions (atoms s1))); [reflexivity|].
    rewrite Hr1, Hr2 in Hr.
    unfold evaluated in Hev.
    destruct (pre_checks_keeps B s0) as [_ [_ [_ [Ha0 _]]]].
    destruct (dists_sane (mol (pre_checks B s0))).
    - unfold evaluate in Hev. inv_bind Hev. destruct a0 as [s2 c].
      inversion Hev; subst s1; clear Hev.
      destruct (assign_spin_keeps B (pre_checks B s0)) as [_ [_ [_ [Ha1 _]]]].
      destruct (select_engine_keeps B _ _ _ Ha) as [_ [_ [_ Hp2]]].
      cbn [relax set_out] in Hr. rewrite run_protocol_relax_fallback in Hr.
      change (positions (atoms (fallback B (run_protocol B s2 c)))
              = positions (ase_atoms (convert_io_molecule B (a_structure a)))).
      rewrite (single_point_positions B s2 c Hr), Hp2.
      unfold atoms. rewrite Ha1, Ha0, Hmol. reflexivity.
    - inversion Hev; subst s1; clear Hev.
      change (positions (ase_atoms (mol (pre_checks B s0)))
              = positions (ase_atoms (convert_io_molecule B (a_structure a)))).
      rewrite Ha0, Hmol. reflexivity. }
  destruct Hcase as [[_ [_ [Hc _]]] | [_ [s2 [c [_ [_ [Hc [Hr2 [_ [Hc2 _]]]]]]]]]].
  - rewrite Hc. repeat split; auto.
  - assert (Hno : forall k, In k (engine_calls s) ->
                    k = CallTotalEnergy \/ k = CallObmolEnergy).
    { intros k Hk. rewrite Hc in Hk.
      destruct (single_point_calls B s2 c ltac:(congruence) k Hk) as [Hin|Hk'];
        [rewrite Hc2 in Hin; destruct Hin | exact Hk']. }
    split; [intros Hk; destruct (Hno _ Hk); discriminate|].
    split; [intros Hk; destruct (Hno _ Hk); discriminate | exact Hpos].
Qed.

Lemma unrelaxed_run_keeps_geometry_witness :
  exists s,
    CalcExecutor sound_engine
      (example_args empty_parameters false false false false "GFN2-xTB") = Ok s
    /\ ~ In CallOptimizer (engine_calls s)
    /\ ~ In CallObmolOpt (engine_calls s)
    /\ positions (atoms s) = [origin].
Proof.
  eexists. split; [reflexivity|].
  apply (unrelaxed_run_keeps_geometry sound_engine
           (example_args empty_parameters false false false false "GFN2-xTB") _ eq_refl).
  reflexivity.
Defined.

(** [dump_traj] writes one row per frame of the trajectory, in order: the
    row of frame [k] holds its geometry and the step number [k], and only
    the row of the last frame is marked relaxed.  An empty trajectory writes
    nothing. *)
Theorem dump_traj_rows (t : list (list position)) :
  List.length (traj_entries 0 t) = List.length t
  /\ forall k f, nth_error t k = Some f ->
       nth_error (traj_entries 0 t) k
       = Some (mkDbEntry f (Some k) (Nat.eqb (S k) (List.length t))).
Proof.
  assert (H : forall t i,
             List.length (traj_entries i t) = List.length t
             /\ forall k f, nth_error t k = Some f ->
                  nth_error (traj_entries i t) k
                  = Some (mkDbEntry f (Some (i + k)%nat) (Nat.eqb (S k) (List.length t)))).
  { clear t. induction t as [|f0 r IH]; intros i.
    - split; [reflexivity|]. intros [|k] f Hk; discriminate.
    - destruct r as [|f1 r'].
      + split; [reflexivity|]. intros [|k] f Hk; simpl in Hk.
        * inversion Hk; subst. simpl. rewrite Nat.add_0_r. reflexivity.
        * destruct k; discriminate.
      + destruct (IH (S i)) as [Hl Hn]. split.
        * change (S (List.length (traj_entries (S i) (f1 :: r')))
                  = S (List.length (f1 :: r'))).
          rewrite Hl. reflexivity.
        * intros [|k] f Hk.
          -- simpl in Hk. inversion Hk; subst. simpl. rewrite Nat.add_0_r. reflexivity.
          -- change (traj_entries i (f0 :: f1 :: r'))
               with (mkDbEntry f0 (Some i) false :: traj_entries (S i) (f1 :: r')).
             change (nth_error (traj_entries (S i) (f1 :: r')) k
                     = Some (mkDbEntry f (Some (i + S k)%nat)
                                       (Nat.eqb (S k) (List.length (f1 :: r'))))).
             replace (i + S k)%nat with (S i + k)%nat by lia.
             exact (Hn k f Hk). }
  apply (H t 0%nat).
Qed.

Lemma dump_traj_rows_witness :
  nth_error (traj_entries 0 [[origin]; [origin]]) 1
  = Some (mkDbEntry [origin] (Some 1%nat) true).
Proof.
  apply (proj2 (dump_traj_rows [[origin]; [origin]]) 1%nat [origin]). reflexivity.
Defined.


(** An assembly run never relaxes and always runs the initial checks,
    whatever [relax] and [init_sanity_check] the caller passed, as arguments
    or in the mapping. *)
Theorem assembly_never_relaxes (B : Boundary) (a : Args) (s : Self) :
  CalcExecutor B a = Ok s ->
  a_assembly a = true ->
  relax s = false /\ init_sanity_check (flags s) = true.
Proof.
  intros H Hasm.
  destruct (calculate_stages B a s H) as [s0 [Hinit Hcase]].
  assert (H0 : relax s0 = false /\ init_sanity_check (flags s0) = true).
  { unfold init, resolve in Hinit. rewrite Hasm in Hinit.
    inv_bind Hinit. inv_bind Ha. inversion Ha; subst a0; clear Ha.
    inversion Hinit; subst s0. split; reflexivity. }
  destruct H0 as [Hr0 Hi0].
  assert (Hflags : flags s = flags s0).
  { unfold CalcExecutor, calculate in H. rewrite Hinit in H. cbn [bind] in H.
    inv_bind H. inversion H; subst s; clear H.
    destruct (persist_keeps (finish B a0)) as [_ [_ [_ [_ Hf]]]].
    destruct (finish_keeps B a0) as [_ [_ [_ Hf']]].
    destruct (evaluated_same_run B s0 a0 Ha) as [Hf0 _ _].
    rewrite Hf, Hf', Hf0. reflexivity. }
  rewrite Hflags. split; [|exact Hi0].
  destruct Hcase as [[_ [_ [_ Hr]]] | [_ [s2 [c [Hsel [_ [_ [Hr _]]]]]]]].
  - rewrite Hr. exact Hr0.
  - rewrite Hr. apply (select_engine_relax B _ _ _ Hsel).
    destruct (assign_spin_keeps B (pre_checks B s0)) as [_ [_ [_ [_ [_ Hr1]]]]].
    destruct (pre_checks_keeps B s0) as [_ [_ [_ [_ [_ Hr2]]]]].
    rewrite Hr1, Hr2. exact Hr0.
Qed.

Lemma assembly_never_relaxes_witness :
  exists s,
    CalcExecutor sound_engine (example_args assembly_parameters false false true true "GFN2-xTB")
    = Ok s
    /\ relax s = false /\ init_sanity_check (flags s) = true.
Proof.
  eexists. split; [reflexivity|].
  apply (assembly_never_relaxes sound_engine
           (example_args assembly_parameters false false true true "GFN2-xTB") _ eq_refl).
  reflexivity.
Defined.

(** A force-field pre-optimisation (outside assembly and species runs) is
    a relaxation with 'UFF', whatever method was asked for, and it goes
    through OpenBabel only: the ASE calculator and optimizer are never
    called. *)
Theorem ff_preopt_uses_openbabel_only (B : Boundary) (a : Args) (s : Self) :
  CalcExecutor B a = Ok s ->
  a_assembly a = false ->
  a_species_run a = false ->
  overridden (p_ff_preopt_run (a_parameters a)) (a_ff_preopt_run a) = true ->
  method s = "UFF"
  /\ relax s = true
  /\ forall k, In k (engine_calls s) -> k = CallObmolEnergy \/ k = CallObmolOpt.
Proof.
  intros H Hasm Hsp Hff.
  unfold CalcExecutor, calculate in H. inv_bind H. rename a0 into s0, Ha into Hinit.
  inv_bind H. rename a0 into s1, Ha into Hev. inversion H; subst s; clear H.
  destruct (persist_keeps (finish B s1)) as [_ [Hc [Hm [Hr _]]]].
  destruct (finish_keeps B s1) as [Hc' [Hm' [Hr' _]]].
  rewrite Hc, Hc', Hm, Hm', Hr, Hr'.
  assert (H0 : method s0 = "UFF" /\ relax s0 = true /\ engine_calls s0 = []).
  { unfold init, resolve in Hinit. rewrite Hasm, Hsp, Hff in Hinit.
    destruct (parameters_nonempty (a_parameters a)); cbn [bind] in Hinit;
      inversion Hinit; subst s0; repeat split. }
  destruct H0 as [Hm0 [Hr0 Hc0]].
  destruct (pre_checks_keeps B s0) as [_ [_ [Hc1 [_ [Hm1 Hr1]]]]].
  unfold evaluated in Hev. destruct (dists_sane (mol (pre_checks B s0))).
  - unfold evaluate in Hev.
    destruct (assign_spin_keeps B (pre_checks B s0)) as [_ [_ [Hc2 [_ [Hm2 Hr2]]]]].
    set (s' := assign_spin B (pre_checks B s0)) in *.
    assert (Hsel : select_engine B s' = Ok (s', None)).
    { unfold select_engine. rewrite Hm2, Hm1, Hm0.
      replace (PyStr.contains "custom" "UFF") with false by reflexivity.
      rewrite andb_false_r. reflexivity. }
    rewrite Hsel in Hev. cbn [bind] in Hev. inversion Hev; subst s1; clear Hev.
    cbn [method relax engine_calls set_out].
    assert (Hs' : method s' = "UFF" /\ relax s' = true /\ engine_calls s' = []).
    { rewrite Hm2, Hm1, Hr2, Hr1, Hc2, Hc1. repeat split; assumption. }
    destruct Hs' as [Ems [Ers Ecs]].
    assert (Hrelax : method (ff_relax B s') = "UFF" /\ relax (ff_relax B s') = true
                     /\ forall k, In k (engine_calls (ff_relax B s')) ->
                                  k = CallObmolEnergy \/ k = CallObmolOpt).
    { unfold ff_relax, ff_handler.
      repeat break_match; cbn [method relax engine_calls set_out set_atoms set_mol called];
        rewrite ?Ems, ?Ers, ?Ecs; (split; [reflexivity|]); (split; [reflexivity|]);
        intros k Hk; cbn [app In] in Hk; intuition. }
    unfold run_protocol. rewrite Ers. destruct Hrelax as [Hrm [Hrr Hrc]].
    unfold fallback. break_match; [|repeat split; assumption].
    unfold ff_single_point, ff_handler.
    break_match; cbn [method relax engine_calls set_out called];
      (split; [exact Hrm|]); (split; [exact Hrr|]);
      intros k Hk; apply in_app_or in Hk;
      (destruct Hk as [Hk|[Hk|[]]]; [apply Hrc; exact Hk | left; symmetry; exact Hk]).
  - inversion Hev; subst s1; clear Hev. cbn [method relax engine_calls set_out].
    rewrite Hm1, Hr1, Hc1, Hc0. repeat split; try assumption. intros k [].
Qed.

Lemma ff_preopt_uses_openbabel_only_witness :
  exists s,
    CalcExecutor sound_engine
      (mkArgs (OfAtoms one_atom) empty_parameters false false false false "GFN2-xTB"
              true false false None false false false) = Ok s
    /\ method s = "UFF"
    /\ relax s = true
    /\ forall k, In k (engine_calls s) -> k = CallObmolEnergy \/ k = CallObmolOpt.
Proof.
  eexists. split; [reflexivity|].
  apply (ff_preopt_uses_openbabel_only sound_engine
           (mkArgs (OfAtoms one_atom) empty_parameters false false false false "GFN2-xTB"
                   true false false None false false false) _ eq_refl);
    reflexivity.
Defined.


End CalcFacts.

(** ** More on the NEB set-up *)
Module NebFacts.
Import IoCalc IoNeb CalcProps NebProps.

Lemma evaluate_images_length (B : Boundary) (m : string) : forall l l',
  evaluate_images B m l = Ok l' -> List.length l' = List.length l.
Proof.
  induction l as [|x r IH]; simpl; intros l' H.
  - inversion H; reflexivity.
  - inv_bind H. inv_bind H. inversion H; subst; clear H. simpl.
    rewrite (IH _ Ha0). reflexivity.
Qed.

(** With [nimages] at 2 or below (zero and negative numbers included) the
    band has no interior image: the path returned has exactly two images, the
    initial structure and the aligned final structure, and nothing is
    interpolated. *)
Theorem neb_two_images (B : Boundary) (NB : NebBoundary) (initial final : Structure)
        (nimages : Z) (neb_method interpolation : string) (climb0 : bool) (neb : NEB) :
  (forall a, positions (ase_atoms (convert_io_molecule B (OfAtoms a))) = positions a) ->
  nimages <= 2 ->
  NEB_setup B NB initial final nimages neb_method interpolation climb0 = Ok neb ->
  map positions (images neb)
  = [positions (ase_atoms (convert_io_molecule B initial));
     positions (neb_align NB (ase_atoms (convert_io_molecule B initial))
                          (ase_atoms (convert_io_molecule B final)))]
  /\ climb neb = climb0.
Proof.
  intros Hc Hn H. unfold NEB_setup in H.
  set (a0 := ase_atoms (convert_io_molecule B initial)) in *.
  set (b0 := neb_align NB a0 (ase_atoms (convert_io_molecule B final))) in *.
  assert (Hb : band a0 b0 nimages = [a0; b0]).
  { unfold band. replace (Z.to_nat (nimages - 2)) with 0%nat by lia. reflexivity. }
  rewrite Hb in H.
  destruct (neb_raises NB climb0 interpolation [a0; b0]); [discriminate|].
  inv_bind H. inversion H; subst neb; clear H. cbn [images climb].
  split; [|reflexivity].
  rewrite (evaluate_images_positions B neb_method Hc _ _ Ha). reflexivity.
Qed.

Lemma neb_two_images_witness :
  exists neb,
    NEB_setup sound_engine example_neb (OfAtoms one_atom) (OfAtoms far_atom) 0
              "GFN2-xTB" "idpp" true = Ok neb
    /\ map positions (images neb) = [positions one_atom; positions far_atom]
    /\ climb neb = true.
Proof.
  eexists. split; [reflexivity|].
  apply (neb_two_images sound_engine example_neb (OfAtoms one_atom) (OfAtoms far_atom) 0
           "GFN2-xTB" "idpp" true _ (fun a => eq_refl)
           ltac:(intro H; discriminate H) eq_refl).
Defined.

(** [NEB_setup] evaluates the images in order and lets the executor's
    exceptions through: a [neb_method] that names no known engine makes it
    raise [ValueError] at the first image, whatever the band looks like. *)
Theorem neb_unknown_method_raises (B : Boundary) (NB : NebBoundary)
        (initial final : Structure) (nimages : Z) (neb_method interpolation : string)
        (climb0 : bool) :
  (forall a, dists_sane (convert_io_molecule B (OfAtoms a)) = true) ->
  (forall l, neb_raises NB climb0 interpolation l = None) ->
  PyStr.contains "gfn" (PyStr.lower neb_method) = false ->
  PyStr.contains "uff" (PyStr.lower neb_method) = false ->
  PyStr.contains "mmff" (PyStr.lower neb_method) = false ->
  NEB_setup B NB initial final nimages neb_method interpolation climb0
  = Raise (ValueError "Warning - no known method or calculator requested.").
Proof.
  intros Hd Hr Hg Hu Hm. unfold NEB_setup. rewrite Hr.
  unfold band. cbn [app interpolate_from evaluate_images].
  set (image := if (0 <? 0)%nat && _ then _ else _).
  assert (He : CalcExecutor B (neb_args image neb_method)
               = Raise (ValueError "Warning - no known method or calculator requested.")).
  { unfold CalcExecutor, calculate, evaluated.
    cbn [init resolve neb_args a_parameters a_assembly a_species_run a_intermediate
         a_method a_relax a_init_sanity_check a_ff_preopt_run a_structure a_debug
         a_final_sanity_check a_fix_m_neighbors a_skip_spin_assign a_calculator
         empty_parameters parameters_nonempty is_some orb overridden bind
         p_method p_relax p_init_sanity_check p_ff_preopt_run p_force_oxo_relax
         p_debug p_assemble_sanity_checks p_freeze_molecule_add_species
         p_save_trajectories p_dump_ase_atoms p_assemble_method
         p_species_intermediate_method p_species_method p_species_intermediate_relax
         p_species_relax p_full_method p_override_oxo_opt p_calculator_kwargs
         p_ase_opt_kwargs p_final_sanity_check p_assembly p_fix_m_neighbors
         p_species_run p_skip_spin_assign p_force_generation p_calculator p_other_keys].
    unfold pre_checks. cbn [flags init_sanity_check andb mol].
    rewrite Hd. unfold evaluate.
    match goal with
    | |- context [select_engine B ?s] =>
        assert (Hs : select_engine B s
                     = Raise (ValueError "Warning - no known method or calculator requested."))
    end.
    { unfold select_engine.
      match goal with
      | |- context [assign_spin B ?s0] =>
          destruct (assign_spin_keeps B s0) as [[Hf _ _] [_ [_ [_ [Hme _]]]]];
          rewrite Hme, Hf
      end.
      cbn [flags calculator method andb]. rewrite Hg, Hu, Hm. reflexivity. }
    rewrite Hs. reflexivity. }
  rewrite He. reflexivity.
Qed.

Lemma neb_unknown_method_raises_witness :
  NEB_setup sound_engine example_neb (OfAtoms one_atom) (OfAtoms far_atom) 3
            "DFT" "idpp" true
  = Raise (ValueError "Warning - no known method or calculator requested.").
Proof.
  apply (neb_unknown_method_raises sound_engine example_neb);
    try reflexivity; intros; reflexivity.
Defined.

End NebFacts.

(** ** More on the vibrational analysis *)
Module VibFacts.
Import Vibrations.

Section Shapes.

Variable N : Numerics.

Lemma repeat3_length (v : list (F N)) : List.length (repeat3 N v) = (3 * List.length v)%nat.
Proof.
  unfold repeat3. induction v as [|x r IH]; simpl; [reflexivity|].
  simpl in IH. rewrite IH. lia.
Qed.

Lemma triples_shape : forall n (r : list (F N)),
  List.length r = (3 * n)%nat ->
  List.length (triples N n r) = n
  /\ Forall (fun t => List.length t = 3%nat) (triples N n r).
Proof.
  induction n as [|n IH]; intros r Hr.
  - split; [reflexivity | constructor].
  - change (triples N (S n) r) with (firstn 3 r :: triples N n (skipn 3 r)).
    destruct (IH (skipn 3 r)) as [Hl Hf].
    { rewrite length_skipn. lia. }
    split; [cbn [List.length]; rewrite Hl; reflexivity|].
    constructor; [|exact Hf]. rewrite length_firstn. lia.
Qed.

Lemma rows_times_shape (a : list (list (F N))) (v : list (F N)) (w : nat) :
  Forall (fun r => List.length r = w) a -> List.length v = w ->
  List.length (rows_times N a v) = List.length a
  /\ Forall (fun r => List.length r = w) (rows_times N a v).
Proof.
  intros Ha Hv. unfold rows_times. split; [apply length_map|].
  apply Forall_forall. intros r Hr. apply in_map_iff in Hr.
  destruct Hr as [r0 [E Hin]]. subst r.
  rewrite length_map, length_combine.
  rewrite Forall_forall in Ha. rewrite (Ha r0 Hin), Hv. lia.
Qed.

Lemma transpose_shape (w : nat) (a : list (list (F N))) :
  List.length (transpose N w a) = w
  /\ Forall (fun r => List.length r = List.length a) (transpose N w a).
Proof.
  unfold transpose. split; [rewrite length_map, length_seq; reflexivity|].
  apply Forall_forall. intros r Hr. apply in_map_iff in Hr.
  destruct Hr as [j [E _]]. subst r. unfold column. apply length_map.
Qed.

Lemma map_triples_shape (n : nat) (a : list (list (F N))) :
  Forall (fun r => List.length r = (3 * n)%nat) a ->
  List.length (map (triples N n) a) = List.length a
  /\ Forall (fun m => List.length m = n /\ Forall (fun t => List.length t = 3%nat) m)
            (map (triples N n) a).
Proof.
  intros Ha. split; [apply length_map|].
  apply Forall_forall. intros m Hm. apply in_map_iff in Hm.
  destruct Hm as [r [E Hin]]. subst m.
  rewrite Forall_forall in Ha. apply triples_shape. apply (Ha r Hin).
Qed.

End Shapes.

(** What a call that returns has computed. *)
Lemma analysis_returns (N : Numerics) (atoms : VAtoms N) (hess : list (list (F N)))
      (flag : bool) (mode_type : string) (r : VibResult N) :
  vibration_analysis N atoms hess flag mode_type = Ok r ->
  let n := List.length (get_masses N atoms) in
  let mw := repeat3 N (map (finv_sqrt N) (get_masses N atoms)) in
  is_square N (3 * n) hess = true
  /\ exists vals vecs,
       eigh N (rows_scaled N (times_rows N mw hess) mw) = Ok (vals, vecs)
       /\ let es := map (fun v => cscale N (unit_conversion N) (csqrt N (to_complex N v)))
                        vals in
          let mwn := transpose N (3 * n) vecs in
          let mdu := rows_times N mwn mw in
          let nf := map (fdiv N (fone N)) (column_norms N (3 * n) mdu) in
          energies N r = es
          /\ frequencies N r = map (fun e => cdiv N e (invcm N)) es
          /\ rmasses N r = map (fsq N) nf
          /\ fconstants N r
             = map (fun p => cscale N (snd p) (to_complex N (fst p)))
                   (combine vals (map (fsq N) nf))
          /\ ((mode_type = "direct_eigen_vectors"
               /\ modes N r = map (triples N n) mwn)
              \/ (mode_type = "mass_weighted_unnormalized"
                  /\ modes N r = map (triples N n) mdu)
              \/ (mode_type = "mass_weighted_normalized"
                  /\ modes N r = map (triples N n) (rows_times N mdu nf))).
Proof.
  unfold vibration_analysis. intros H.
  destruct (existsb (is_zero N) (get_masses N atoms)); [discriminate|].
  destruct (is_square N (3 * List.length (get_masses N atoms)) hess) eqn:Hsq;
    [|discriminate].
  cbn [negb] in H. inv_bind H. clear Ha a. inv_bind H. destruct a as [vals vecs].
  inv_bind H. inversion H; subst r; clear H. cbn zeta.
  split; [reflexivity|]. exists vals, vecs. split; [exact Ha|].
  cbn [energies frequencies rmasses fconstants modes].
  repeat (split; [reflexivity|]).
  destruct (mode_type =? "direct_eigen_vectors")%string eqn:E1.
  { apply String.eqb_eq in E1. inversion Ha0; subst. left. split; reflexivity. }
  destruct (mode_type =? "mass_weighted_unnormalized")%string eqn:E2.
  { apply String.eqb_eq in E2. inversion Ha0; subst. right. left. split; reflexivity. }
  destruct (mode_type =? "mass_weighted_normalized")%string eqn:E3; [|discriminate].
  apply String.eqb_eq in E3. inversion Ha0; subst. right. right. split; reflexivity.
Qed.

(** The mode type is checked last, after the eigenvalue problem is solved:
    with a mode type other than the three known ones the analysis never
    returns, whatever the atoms, the Hessian and the flag. *)
Theorem unknown_mode_type_never_returns (N : Numerics) (atoms : VAtoms N)
        (hess : list (list (F N))) (flag : bool) (mode_type : string) :
  mode_type <> "direct_eigen_vectors" ->
  mode_type <> "mass_weighted_unnormalized" ->
  mode_type <> "mass_weighted_normalized" ->
  exists e, vibration_analysis N atoms hess flag mode_type = Raise e.
Proof.
  intros H1 H2 H3.
  destruct (vibration_analysis N atoms hess flag mode_type) as [r|e] eqn:H; [|eauto].
  exfalso. apply analysis_returns in H. cbn zeta in H.
  destruct H as [_ [vals [vecs [_ [_ [_ [_ [_ Hm]]]]]]]].
  destruct Hm as [[E _] | [[E _] | [E _]]]; contradiction.
Qed.

Lemma unknown_mode_type_never_returns_witness :
  exists e,
    vibration_analysis rational_numerics resting_atom flat_hessian false "cartesian"
    = Raise e.
Proof.
  apply (unknown_mode_type_never_returns rational_numerics resting_atom flat_hessian
           false "cartesian"); intros H; discriminate H.
Defined.

(** The mode type only chooses the scaling of the modes: two calls that
    differ in nothing but the mode type (or the flag) return the same
    energies, frequencies, reduced masses and force constants. *)
Theorem mode_type_only_scales_modes (N : Numerics) (atoms : VAtoms N)
        (hess : list (list (F N))) (flag1 flag2 : bool) (m1 m2 : string)
        (r1 r2 : VibResult N) :
  vibration_analysis N atoms hess flag1 m1 = Ok r1 ->
  vibration_analysis N atoms hess flag2 m2 = Ok r2 ->
  energies N r1 = energies N r2
  /\ frequencies N r1 = frequencies N r2
  /\ rmasses N r1 = rmasses N r2
  /\ fconstants N r1 = fconstants N r2.
Proof.
  intros H1 H2. apply analysis_returns in H1, H2. cbn zeta in H1, H2.
  destruct H1 as [_ [vals [vecs [He [E1 [F1 [R1 [C1 _]]]]]]]].
  destruct H2 as [_ [vals' [vecs' [He' [E2 [F2 [R2 [C2 _]]]]]]]].
  rewrite He in He'. inversion He'; subst vals' vecs'.
  rewrite E1, E2, F1, F2, R1, R2, C1, C2. repeat split.
Qed.

Lemma mode_type_only_scales_modes_witness :
  exists r1 r2,
    vibration_analysis rational_numerics resting_atom flat_hessian false
                       "direct_eigen_vectors" = Ok r1
    /\ vibration_analysis rational_numerics resting_atom flat_hessian true
                          "mass_weighted_normalized" = Ok r2
    /\ energies _ r1 = energies _ r2
    /\ frequencies _ r1 = frequencies _ r2
    /\ rmasses _ r1 = rmasses _ r2
    /\ fconstants _ r1 = fconstants _ r2.
Proof.
  eexists. eexists. split; [vm_compute; reflexivity|]. split; [vm_compute; reflexivity|].
  eapply (mode_type_only_scales_modes rational_numerics resting_atom flat_hessian
            false true "direct_eigen_vectors" "mass_weighted_normalized");
    vm_compute; reflexivity.
Defined.

(** For [N] atoms every array the analysis returns has [3N] entries, one
    per mode, and every mode is an [N] by 3 array, provided [eigh] returns
    arrays of the shape numpy documents. *)
Theorem analysis_shapes (N : Numerics) (atoms : VAtoms N) (hess : list (list (F N)))
        (flag : bool) (mode_type : string) (r : VibResult N) :
  eigh_shaped N ->
  vibration_analysis N atoms hess flag mode_type = Ok r ->
  let n := List.length (get_masses N atoms) in
  List.length (energies N r) = (3 * n)%nat
  /\ List.length (frequencies N r) = (3 * n)%nat
  /\ List.length (rmasses N r) = (3 * n)%nat
  /\ List.length (fconstants N r) = (3 * n)%nat
  /\ List.length (modes N r) = (3 * n)%nat
  /\ Forall (fun m => List.length m = n /\ Forall (fun t => List.length t = 3%nat) m)
            (modes N r).
Proof.
  intros Hsh H. apply analysis_returns in H. cbn zeta in H. cbn zeta.
  set (n := List.length (get_masses N atoms)) in *.
  set (mw := repeat3 N (map (finv_sqrt N) (get_masses N atoms))) in *.
  destruct H as [Hsq [vals [vecs [He [E [Fq [R [Cn Hm]]]]]]]].
  assert (Hmw : List.length mw = (3 * n)%nat).
  { unfold mw. rewrite repeat3_length, length_map. reflexivity. }
  assert (Hh : List.length hess = (3 * n)%nat).
  { unfold is_square in Hsq. apply andb_true_iff in Hsq. destruct Hsq as [Hl _].
    apply Nat.eqb_eq in Hl. exact Hl. }
  assert (HH : List.length (rows_scaled N (times_rows N mw hess) mw) = (3 * n)%nat).
  { unfold rows_scaled, times_rows. rewrite length_map, length_combine, length_map. lia. }
  destruct (Hsh _ _ _ He) as [Hv [Hvl Hvr]]. rewrite HH in Hv, Hvl, Hvr.
  destruct (transpose_shape N (3 * n) vecs) as [Ht1 Ht2]. rewrite Hvl in Ht2.
  destruct (rows_times_shape N _ mw (3 * n) Ht2 Hmw) as [Hu1 Hu2]. rewrite Ht1 in Hu1.
  set (mdu := rows_times N (transpose N (3 * n) vecs) mw) in *.
  set (nf := map (fdiv N (fone N)) (column_norms N (3 * n) mdu)) in *.
  assert (Hnf : List.length nf = (3 * n)%nat).
  { unfold nf, column_norms. rewrite !length_map, length_seq. reflexivity. }
  destruct (rows_times_shape N mdu nf (3 * n) Hu2 Hnf) as [Hn1 Hn2]. rewrite Hu1 in Hn1.
  rewrite E, Fq, R, Cn. rewrite !length_map, length_combine, !length_map, Hv, Hnf.
  split; [reflexivity|]. split; [reflexivity|]. split; [reflexivity|].
  split; [lia|].
  destruct Hm as [[_ Hm] | [[_ Hm] | [_ Hm]]]; rewrite Hm.
  - destruct (map_triples_shape N n _ Ht2) as [Hl Hf]. rewrite Hl, Ht1. split; [reflexivity | exact Hf].
  - destruct (map_triples_shape N n _ Hu2) as [Hl Hf]. rewrite Hl, Hu1. split; [reflexivity | exact Hf].
  - destruct (map_triples_shape N n _ Hn2) as [Hl Hf]. rewrite Hl, Hn1. split; [reflexivity | exact Hf].
Qed.


Lemma rational_eigh_shaped : eigh_shaped rational_numerics.
Proof.
  intros m vals vecs H. cbn in H. inversion H; subst; clear H.
  unfold diagonal, identity. rewrite !length_map, !length_seq.
  split; [reflexivity|]. split; [reflexivity|].
  apply Forall_forall. intros r Hr. apply in_map_iff in Hr.
  destruct Hr as [i [E _]]. subst r. rewrite length_map, length_seq. reflexivity.
Qed.

Lemma analysis_shapes_witness :
  exists r,
    vibration_analysis rational_numerics resting_atom flat_hessian false
                       "mass_weighted_unnormalized" = Ok r
    /\ List.length (energies _ r) = 3%nat
    /\ List.length (frequencies _ r) = 3%nat
    /\ List.length (rmasses _ r) = 3%nat
    /\ List.length (fconstants _ r) = 3%nat
    /\ List.length (modes _ r) = 3%nat
    /\ Forall (fun m => List.length m = 1%nat
                        /\ Forall (fun t => List.length t = 3%nat) m) (modes _ r).
Proof.
  eexists. split; [vm_compute; reflexivity|].
  apply (analysis_shapes rational_numerics resting_atom flat_hessian false
           "mass_weighted_unnormalized" _ rational_eigh_shaped).
  vm_compute. reflexivity.
Defined.


End VibFacts.

(** ** More on the symmetry enumerator *)
Module SymFacts.
Import IoSymmetry SymProps.

(** *** [test_combos] *)

Lemma filter_all {A} (p : A -> bool) (l : list A) :
  (forall x, In x l -> p x = true) -> filter p l = l.
Proof.
  induction l as [|x r IH]; intros H; simpl; [reflexivity|].
  rewrite (H x (or_introl eq_refl)), IH; [reflexivity|].
  intros y Hy. apply H. right. exact Hy.
Qed.

(** On an array with at least one row [test_combos] never raises: it
    returns, in their order, exactly the rows that hold no occupied site --
    all of them when nothing is occupied, possibly none.  Only the empty
    array, which is one-dimensional, makes it raise. *)
Theorem test_combos_keeps_free_rows (combs : con_list) (occupied : list Z) :
  combs <> [] ->
  exists res,
    test_combos combs occupied = Ok res
    /\ (forall r, In r res <-> In r combs /\ forall x, In x r -> ~ In x occupied)
    /\ (occupied = [] -> res = combs).
Proof.
  intros Hne. destruct combs as [|c0 cs]; [contradiction|].
  remember (c0 :: cs) as combs eqn:E.
  exists (filter (fun r => negb (existsb (fun x => mem x occupied) r)) combs).
  split; [rewrite E; reflexivity|]. clear E Hne c0 cs. split.
  - intros r. rewrite filter_In. split.
    + intros [Hin Hf]. split; [exact Hin|]. intros x Hx Ho.
      apply negb_true_iff in Hf.
      assert (Ht : existsb (fun x => mem x occupied) r = true).
      { apply existsb_exists. exists x. split; [exact Hx | apply mem_In; exact Ho]. }
      congruence.
    + intros [Hin Hfree]. split; [exact Hin|]. apply negb_true_iff.
      destruct (existsb (fun x => mem x occupied) r) eqn:He; [|reflexivity].
      apply existsb_exists in He. destruct He as [x [Hx Hm]].
      apply mem_In in Hm. exfalso. apply (Hfree x Hx Hm).
  - intros Ho. subst occupied. apply filter_all. intros r _.
    apply negb_true_iff. induction r as [|x r IH]; [reflexivity | exact IH].
Qed.

Lemma test_combos_keeps_free_rows_witness :
  exists res,
    test_combos [[0]; [1]; [2]] [1] = Ok res
    /\ (forall r, In r res <-> In r [[0]; [1]; [2]] /\ forall x, In x r -> ~ In x [1])
    /\ ([1] = [] -> res = [[0]; [1]; [2]]).
Proof.
  apply (test_combos_keeps_free_rows [[0]; [1]; [2]] [1]). intros H. discriminate H.
Defined.

(** *** [flatten] *)

Lemma pyval_induction (P : pyval -> Prop) :
  (forall z, P (PInt z)) ->
  (forall l, Forall P l -> P (PList l)) ->
  forall v, P v.
Proof.
  intros HI HL. fix IH 1. intros [z|l]; [apply HI|].
  apply HL. induction l as [|x r IHr]; constructor; [apply IH | exact IHr].
Qed.

Lemma flatten_item_PList l : flatten_item (PList l) = py_flatten l.
Proof.
  unfold py_flatten. induction l as [|x r IH]; [reflexivity|].
  simpl in *. rewrite IH. reflexivity.
Qed.

(** The three cases of the source: the empty list, a first item that is a
    list, and any other first item. *)
Lemma py_flatten_cases :
  py_flatten [] = []
  /\ (forall l r, py_flatten (PList l :: r) = py_flatten l ++ py_flatten r)
  /\ (forall z r, py_flatten (PInt z :: r) = PInt z :: py_flatten r).
Proof.
  split; [reflexivity|]. split.
  - intros l r. unfold py_flatten at 1. cbn [flat_map]. rewrite flatten_item_PList.
    reflexivity.
  - intros z r. reflexivity.
Qed.

Lemma py_flatten_app a b : py_flatten (a ++ b) = py_flatten a ++ py_flatten b.
Proof. unfold py_flatten. apply flat_map_app. Qed.

Lemma flatten_item_flat v : Forall (fun x => exists z, x = PInt z) (flatten_item v).
Proof.
  induction v as [z|l IH] using pyval_induction.
  - constructor; [eauto | constructor].
  - rewrite flatten_item_PList. unfold py_flatten.
    induction IH as [|x r Hx _ IHr]; [constructor|].
    cbn [flat_map]. apply Forall_app. split; assumption.
Qed.

Lemma py_flatten_of_flat l :
  Forall (fun x => exists z, x = PInt z) l -> py_flatten l = l.
Proof.
  induction 1 as [|x r [z Hx] _ IH]; [reflexivity|].
  subst x. unfold py_flatten in *. cbn [flat_map flatten_item app]. rewrite IH. reflexivity.
Qed.

(** [flatten] returns a list without lists in it, flattening it again
    changes nothing, and it goes through concatenation. *)
Theorem flatten_is_flat (S S' : list pyval) :
  Forall (fun x => exists z, x = PInt z) (py_flatten S)
  /\ py_flatten (py_flatten S) = py_flatten S
  /\ py_flatten (S ++ S') = py_flatten S ++ py_flatten S'.
Proof.
  assert (Hf : Forall (fun x => exists z, x = PInt z) (py_flatten S)).
  { rewrite <- flatten_item_PList. apply flatten_item_flat. }
  split; [exact Hf|]. split; [apply py_flatten_of_flat; exact Hf | apply py_flatten_app].
Qed.

Lemma as_pylist_Node ch : as_pylist (Node ch) = map (fun c => PList (as_pylist c)) ch.
Proof.
  induction ch as [|x r IH]; [reflexivity|].
  simpl in *. rewrite IH. reflexivity.
Qed.

(** On the nested list [generate_good_combos] returns, [flatten] gives the
    sites of the leaves, leaf after leaf and row after row. *)
Theorem flatten_search_result (t : nested) :
  py_flatten (as_pylist t)
  = map PInt (List.concat (map (@List.concat Z) (leaves t))).
Proof.
  rewrite <- flatten_leaves.
  induction t as [rows|ch IH] using nested_induction.
  - cbn [as_pylist flatten]. induction rows as [|r rows IHr]; [reflexivity|].
    cbn [map List.concat]. rewrite map_app, <- IHr.
    change (py_flatten (PList (map PInt r) :: map (fun r0 => PList (map PInt r0)) rows)
            = map PInt r ++ py_flatten (map (fun r0 => PList (map PInt r0)) rows)).
    rewrite (proj1 (proj2 py_flatten_cases)). f_equal.
    apply py_flatten_of_flat. apply Forall_forall. intros x Hx.
    apply in_map_iff in Hx. destruct Hx as [z [E _]]. eauto.
  - rewrite as_pylist_Node, flatten_Node.
    induction IH as [|x r Hx _ IHr]; [reflexivity|].
    cbn [map flat_map]. rewrite (proj1 (proj2 py_flatten_cases)), Hx, IHr, map_app.
    reflexivity.
Qed.


(** *** The recursive search *)

Lemma combos_loop_all recurse : forall res all_lig,
  combos_loop recurse res = Ok all_lig ->
  forall r, In r res ->
    exists lst, recurse r = Ok lst /\ (0 < nested_len lst -> In lst all_lig).
Proof.
  induction res as [|r0 rs IH]; intros all_lig H r Hr; simpl in H; [destruct Hr|].
  inv_bind H. inv_bind H. inversion H; subst all_lig; clear H.
  destruct Hr as [Hr|Hr].
  - subst r0. exists a. split; [exact Ha|]. intros Hl.
    apply Z.ltb_lt in Hl. rewrite Hl. left. reflexivity.
  - destruct (IH _ Ha0 r Hr) as [lst [Hrec Hin]]. exists lst. split; [exact Hrec|].
    intros Hl. specialize (Hin Hl). destruct (0 <? nested_len a); [right|]; exact Hin.
Qed.

Lemma combos_loop_total recurse : forall res,
  (forall r, In r res -> exists lst, recurse r = Ok lst) ->
  exists all_lig, combos_loop recurse res = Ok all_lig.
Proof.
  induction res as [|r0 rs IH]; intros H; simpl; [eauto|].
  destruct (H r0 (or_introl eq_refl)) as [lst Hl]. rewrite Hl. cbn [bind].
  destruct IH as [tl Ht]; [intros r Hr; apply H; right; exact Hr|].
  rewrite Ht. cbn [bind]. eauto.
Qed.

Lemma occupied_of_rows prev :
  prev = [] \/ (exists r : row, In r prev /\ r <> []) ->
  occupied_of prev = Ok (List.concat prev).
Proof.
  intros H. unfold occupied_of. destruct prev as [|r0 p]; [reflexivity|].
  destruct H as [H|[r [Hin Hne]]]; [discriminate|].
  destruct (forallb (fun r => Nat.eqb (List.length r) 0) (r0 :: p)) eqn:Hf; [|reflexivity].
  exfalso. rewrite forallb_forall in Hf. specialize (Hf r Hin).
  apply Nat.eqb_eq in Hf. destruct r; [contradiction | discriminate].
Qed.

Lemma search_unfold rest prev cn t :
  good_combos_from rest prev cn = Ok t ->
  exists occ, occupied_of prev = Ok occ
    /\ (((len occ <? cn) = false /\ t = Leaf prev)
        \/ ((len occ <? cn) = true
            /\ exists combs rest' res all_lig,
                 rest = combs :: rest'
                 /\ test_combos combs occ = Ok res
                 /\ combos_loop (fun r => good_combos_from rest' (prev ++ [r]) cn) res
                    = Ok all_lig
                 /\ t = Node all_lig)).
Proof.
  intros H. destruct rest as [|combs rest']; simpl in H; inv_bind H; exists a;
    (split; [exact Ha|]); destruct (len a <? cn) eqn:Hlt.
  - discriminate.
  - left. inversion H. split; reflexivity.
  - right. split; [reflexivity|]. inv_bind H. inv_bind H. inversion H; subst t.
    exists combs, rest', a0, a1. repeat split; assumption.
  - left. inversion H. split; reflexivity.
Qed.

Lemma leaf_has_rows t L : In L (leaves t) -> L <> [] -> 0 < nested_len t.
Proof.
  destruct t as [rows|ch]; intros HL Hne.
  - destruct HL as [E|[]]. subst L. simpl. unfold len.
    destruct rows; [contradiction | simpl; lia].
  - rewrite leaves_Node in HL. simpl. unfold len.
    destruct ch; [destruct HL | simpl; lia].
Qed.

Lemma picked_extends cn rest prev L : picked cn rest prev L -> exists tl, L = prev ++ tl.
Proof.
  induction 1 as [rest prev _ | combs rest prev r L _ _ _ _ [tl IH]].
  - exists []. rewrite app_nil_r. reflexivity.
  - exists (r :: tl). rewrite IH, <- app_assoc. reflexivity.
Qed.

(** The search misses nothing: every valid pick is a leaf. *)
Lemma picked_is_leaf cn rest prev L :
  picked cn rest prev L ->
  forall t, good_combos_from rest prev cn = Ok t -> In L (leaves t).
Proof.
  induction 1 as [rest prev Hge | combs rest prev r L Hlt Hin Hfree Hp IH]; intros t Ht;
    destruct (search_unfold _ _ _ _ Ht) as [occ [Hocc Hcase]];
    apply occupied_of_ok in Hocc; subst occ.
  - destruct Hcase as [[_ E] | [Hl _]]; [subst t; left; reflexivity|].
    apply Z.ltb_lt in Hl. lia.
  - destruct Hcase as [[Hl _] | [_ [combs' [rest' [res [all_lig [E [Htest [Hloop Et]]]]]]]]].
    { apply Z.ltb_ge in Hl. lia. }
    inversion E; subst combs' rest' t; clear E.
    assert (Hres : In r res).
    { assert (Er : res = filter (fun r => negb (existsb (fun x => mem x (List.concat prev)) r))
                                combs).
      { unfold test_combos in Htest. destruct combs as [|c0 cs]; [destruct Hin|].
        inversion Htest. reflexivity. }
      rewrite Er. apply filter_In. split; [exact Hin|].
      apply negb_true_iff.
      destruct (existsb (fun x => mem x (List.concat prev)) r) eqn:He; [|reflexivity].
      apply existsb_exists in He. destruct He as [x [Hx Hm]]. apply mem_In in Hm.
      exfalso. apply (Hfree x Hx Hm). }
    destruct (combos_loop_all _ _ _ Hloop r Hres) as [lst [Hrec Hkeep]].
    specialize (IH lst Hrec).
    rewrite leaves_Node. apply in_flat_map. exists lst. split; [|exact IH].
    apply Hkeep. apply (leaf_has_rows lst L IH).
    destruct (picked_extends _ _ _ _ Hp) as [tl E]. rewrite E.
    destruct prev; discriminate.
Qed.

(** The leaves of [generate_good_combos] are exactly the valid picks: one
    row from each list in turn, starting at [sel_ind], every row free of the
    sites taken before it, until [occupied_max] sites are taken. *)
Theorem search_leaves_are_the_picks (sel_input_lst : list con_list) (sel_ind : nat)
        (prev_lig : list row) (occupied_max : Z) (t : nested) (L : list row) :
  generate_good_combos sel_input_lst sel_ind prev_lig occupied_max = Ok t ->
  (In L (leaves t) <-> picked occupied_max (skipn sel_ind sel_input_lst) prev_lig L).
Proof.
  unfold generate_good_combos. intros H. split.
  - apply (good_combos_leaves _ _ _ _ H).
  - intros Hp. apply (picked_is_leaf _ _ _ _ Hp _ H).
Qed.

Lemma search_leaves_are_the_picks_witness :
  In [[0]; [1]] (leaves (Node [Node [Leaf [[0]; [1]]]; Node [Leaf [[1]; [0]]]]))
  <-> picked 2 (skipn 0 [[[0]; [1]]; [[0]; [1]]]) [] [[0]; [1]].
Proof.
  apply (search_leaves_are_the_picks [[[0]; [1]]; [[0]; [1]]] 0 [] 2).
  vm_compute. reflexivity.
Defined.

(** On lists that fit -- none empty, the rows of each as long as its
    positive denticity, the denticities adding up to the sites to fill -- the
    search returns: it meets neither an empty array nor the end of the
    lists. *)
Theorem search_returns (sel_input_lst : list con_list) (denticities : list Z)
        (occupied_max : Z) :
  patterns_fit sel_input_lst denticities ->
  Forall (fun c => c <> []) sel_input_lst ->
  sumZ denticities = occupied_max ->
  exists t, generate_good_combos sel_input_lst 0 [] occupied_max = Ok t.
Proof.
  intros Hfit Hne Hsum. unfold generate_good_combos. cbn [skipn].
  assert (H : forall rest dents, patterns_fit rest dents -> Forall (fun c => c <> []) rest ->
            forall prev,
              prev = [] \/ (exists r : row, In r prev /\ r <> []) ->
              len (List.concat prev) + sumZ dents = occupied_max ->
              exists t, good_combos_from rest prev occupied_max = Ok t).
  { clear. induction 1 as [|combs d rest dents [Hd Hrows] Hfit IH];
      intros Hne prev Hprev Hsum.
    - simpl. rewrite (occupied_of_rows prev Hprev). cbn [bind].
      simpl in Hsum. replace (len (List.concat prev) <? occupied_max) with false
        by (symmetry; apply Z.ltb_ge; lia).
      eauto.
    - apply Forall_cons_iff in Hne. destruct Hne as [Hc Hne'].
      pose proof (patterns_fit_sum _ _ Hfit) as Hs. simpl in Hsum.
      simpl. rewrite (occupied_of_rows prev Hprev). cbn [bind].
      replace (len (List.concat prev) <? occupied_max) with true
        by (symmetry; apply Z.ltb_lt; lia).
      destruct combs as [|c0 cs]; [contradiction|].
      remember (c0 :: cs) as combs eqn:E.
      assert (Ht : test_combos combs (List.concat prev)
                   = Ok (filter (fun r => negb (existsb (fun x => mem x (List.concat prev)) r))
                                combs)) by (rewrite E; reflexivity).
      rewrite Ht. cbn [bind].
      destruct (combos_loop_total
                  (fun r => good_combos_from rest (prev ++ [r]) occupied_max)
                  (filter (fun r => negb (existsb (fun x => mem x (List.concat prev)) r))
                          combs)) as [all_lig Hall].
      + intros r Hr. apply filter_In in Hr. destruct Hr as [Hr _].
        rewrite Forall_forall in Hrows. specialize (Hrows r Hr).
        apply (IH Hne').
        * right. exists r. split; [apply in_or_app; right; left; reflexivity|].
          intros Er. subst r. unfold len in Hrows. simpl in Hrows. lia.
        * rewrite concat_app, len_app. simpl. rewrite app_nil_r. lia.
      + rewrite Hall. cbn [bind]. eauto. }
  apply (H _ _ Hfit Hne []); [left; reflexivity | simpl; exact Hsum].
Qed.

Lemma search_returns_witness :
  exists t, generate_good_combos [[[0]; [1]]; [[0]; [1]]] 0 [] 2 = Ok t.
Proof.
  apply (search_returns [[[0]; [1]]; [[0]; [1]]] [1; 1] 2).
  - repeat (constructor; try reflexivity).
  - repeat constructor; discriminate.
  - reflexivity.
Defined.


(** *** The compaction of one group *)

Lemma insert_sorted_sorted x l : Sorted Z.le l -> Sorted Z.le (insert_sorted x l).
Proof.
  induction 1 as [|y r Hr IH Hy]; simpl; [repeat constructor|].
  destruct (x <=? y) eqn:Hxy.
  - apply Z.leb_le in Hxy. repeat constructor; assumption.
  - apply Z.leb_gt in Hxy. constructor; [exact IH|].
    destruct r as [|z r']; simpl; [constructor; lia|].
    destruct (x <=? z); constructor; [lia|].
    inversion Hy; subst. assumption.
Qed.

Lemma sort_sorted l : StronglySorted Z.le (sort l).
Proof.
  apply Sorted_StronglySorted; [intros a b c; apply Z.le_trans|].
  induction l as [|x r IH]; simpl; [constructor | apply insert_sorted_sorted, IH].
Qed.

Lemma highdent_loop_complete highdents : forall out i ro d ro' d',
  highdent_loop highdents i out ro d = Ok (ro', d') ->
  (forall r, In r ro -> In r ro')
  /\ (forall item0, In item0 out -> no_repeats (sort item0) = true ->
        In (sort item0) ro').
Proof.
  induction out as [|x out IH]; intros i ro d ro' d' H; simpl in H.
  - inversion H; subst. split; [auto | intros item0 []].
  - destruct (no_repeats (sort x)) eqn:Hn.
    + inv_bind H. destruct (IH _ _ _ _ _ H) as [Hsub Hall]. split.
      * intros r Hr. apply Hsub. apply in_or_app. left. exact Hr.
      * intros item0 [E|Hin] Hi.
        -- subst item0. apply Hsub. apply in_or_app. right. left. reflexivity.
        -- apply Hall; assumption.
    + destruct (IH _ _ _ _ _ H) as [Hsub Hall]. split; [exact Hsub|].
      intros item0 [E|Hin] Hi; [subst item0; congruence | apply Hall; assumption].
Qed.

(** The reshaped array of [map_repeat_to_highdent] has one row per
    combination: its flattened rows. *)
Lemma reshape_combos (sel : con_list) (nlig D : Z) out :
  reshape (List.concat (map (@List.concat Z) (combinations (Z.to_nat nlig) sel)))
          (nlig * D) = Ok out ->
  0 <= nlig ->
  Forall (fun r => len r = D) sel ->
  out = map (@List.concat Z) (combinations (Z.to_nat nlig) sel).
Proof.
  intros H Hn Hrows. unfold reshape in H.
  destruct (nlig * D <=? 0) eqn:Hw; [discriminate|]. apply Z.leb_gt in Hw.
  match type of H with context [if ?c then _ else _] => destruct c eqn:Hk end;
    [|discriminate].
  inversion H; subst out; clear H.
  set (combos := combinations (Z.to_nat nlig) sel) in *.
  assert (Hc : Forall (fun c => List.length c = Z.to_nat (nlig * D))
                      (map (@List.concat Z) combos)).
  { apply Forall_forall. intros x Hx. apply in_map_iff in Hx.
    destruct Hx as [c [Hx Hin]]. subst x.
    destruct (combinations_spec _ _ _ Hin) as [Hl Hs].
    rewrite (concat_length_uniform (Z.to_nat D)).
    - rewrite Hl. nia.
    - apply Forall_forall. intros r Hr. apply Hs in Hr.
      rewrite Forall_forall in Hrows. specialize (Hrows r Hr). unfold len in Hrows. lia. }
  rewrite <- (rows_of_concat _ _ Hc) at 3. f_equal.
  unfold len. rewrite (concat_length_uniform _ _ Hc).
  rewrite Nat2Z.inj_mul, Z2Nat.id by lia.
  rewrite Z.div_mul by lia. rewrite Nat2Z.id. reflexivity.
Qed.

(** The compacted list of a group holds exactly the site lists, sorted,
    of the [nlig]-combinations of the group's rows that use no site twice;
    and the pseudo-denticity is [nlig * denticity]. *)
Theorem compacted_rows_are_the_free_combinations (sel_con_list : con_list)
        (nlig denticity : Z) (reshape_out : list row) (rd : refdict) (pseudo_dent : Z) :
  map_repeat_to_highdent sel_con_list nlig denticity = Ok (reshape_out, rd, pseudo_dent) ->
  0 <= nlig ->
  Forall (fun r => len r = denticity) sel_con_list ->
  pseudo_dent = nlig * denticity
  /\ Forall (StronglySorted Z.le) reshape_out
  /\ forall crow,
       In crow reshape_out
       <-> exists v, In v (combinations (Z.to_nat nlig) sel_con_list)
                     /\ NoDup (List.concat v)
                     /\ crow = sort (List.concat v).
Proof.
  intros H Hn Hrows. unfold map_repeat_to_highdent in H.
  inv_bind H. inv_bind H. destruct a0 as [ro' rd']. inversion H; subst; clear H.
  cbn [fst snd] in *.
  apply (reshape_combos _ _ _ _) in Ha; [|exact Hn | exact Hrows]. subst a.
  set (combos := combinations (Z.to_nat nlig) sel_con_list) in *.
  destruct (highdent_loop_spec combos [] [] [] reshape_out rd Ha0) as [Hs Hm];
    [intros k v [] | intros r [] |].
  destruct (highdent_loop_complete _ _ _ _ _ _ _ Ha0) as [_ Hall].
  assert (Hiff : forall crow,
             In crow reshape_out
             <-> exists v, In v combos /\ NoDup (List.concat v)
                           /\ crow = sort (List.concat v)).
  { intros crow. split.
    - intros Hin. destruct (Hm crow Hin) as [v Hv].
      destruct (Hs _ _ Hv) as [Hc [Hk Hnd]]. exists v. split; [exact Hc|].
      split; [|exact Hk].
      rewrite Hk in Hnd. apply (Permutation_NoDup (sort_perm _) Hnd).
    - intros [v [Hv [Hnd E]]]. subst crow. apply Hall.
      + apply in_map. exact Hv.
      + apply no_repeats_NoDup.
        apply (Permutation_NoDup (Permutation_sym (sort_perm _)) Hnd). }
  split; [reflexivity|]. split; [|exact Hiff].
  apply Forall_forall. intros crow Hin. apply Hiff in Hin.
  destruct Hin as [v [_ [_ E]]]. subst crow. apply sort_sorted.
Qed.

Lemma compacted_rows_are_the_free_combinations_witness :
  2 = 2 * 1
  /\ Forall (StronglySorted Z.le) [[0; 1]]
  /\ forall crow,
       In crow [[0; 1]]
       <-> exists v, In v (combinations (Z.to_nat 2) [[0]; [1]])
                     /\ NoDup (List.concat v)
                     /\ crow = sort (List.concat v).
Proof.
  apply (compacted_rows_are_the_free_combinations [[0]; [1]] 2 1 [[0; 1]]
           [([0; 1], [[0]; [1]])] 2).
  - vm_compute. reflexivity.
  - lia.
  - repeat constructor.
Defined.


(** *** The compaction of all groups *)

Lemma argsort_insert_sorted (key : nat -> Z) i l :
  Sorted (fun a b => key a <= key b) l ->
  Sorted (fun a b => key a <= key b) (argsort_insert (fun a b => key a <? key b) i l).
Proof.
  induction 1 as [|y r Hr IH Hy]; simpl; [repeat constructor|].
  destruct (key i <? key y) eqn:Hxy.
  - apply Z.ltb_lt in Hxy. repeat constructor; [assumption | assumption | lia].
  - apply Z.ltb_ge in Hxy. constructor; [exact IH|].
    destruct r as [|z r']; simpl; [constructor; lia|].
    destruct (key i <? key z); constructor; [lia|].
    inversion Hy; subst. assumption.
Qed.

Lemma argsort_sorted (keys : list Z) :
  StronglySorted (fun a b => nth a keys 0 <= nth b keys 0) (argsort keys).
Proof.
  apply Sorted_StronglySorted; [intros a b c; apply Z.le_trans|].
  unfold argsort, argsort_by.
  assert (H : forall l acc,
             Sorted (fun a b => nth a keys 0 <= nth b keys 0) acc ->
             Sorted (fun a b => nth a keys 0 <= nth b keys 0)
                    (fold_left (fun acc i =>
                                  argsort_insert (fun i j => nth i keys 0 <? nth j keys 0)
                                                 i acc) l acc)).
  { induction l as [|x r IH]; intros acc Hacc; simpl; [exact Hacc|].
    apply IH. apply (argsort_insert_sorted (fun a => nth a keys 0)). exact Hacc. }
  apply H. constructor.
Qed.

Lemma StronglySorted_snoc {A} (R : A -> A -> Prop) l x :
  StronglySorted R l -> Forall (fun y => R y x) l -> StronglySorted R (l ++ [x]).
Proof.
  induction 1 as [|y r Hr IH Hy]; intros Hall; simpl; [repeat constructor|].
  inversion Hall; subst. constructor; [apply IH; assumption|].
  apply Forall_app. split; [exact Hy | repeat constructor; assumption].
Qed.

Lemma StronglySorted_rev {A} (R : A -> A -> Prop) l :
  StronglySorted R l -> StronglySorted (fun a b => R b a) (rev l).
Proof.
  induction 1 as [|x r Hr IH Hx]; simpl; [constructor|].
  apply StronglySorted_snoc; [exact IH|].
  apply Forall_forall. intros y Hy. apply in_rev in Hy.
  rewrite Forall_forall in Hx. apply Hx. exact Hy.
Qed.

Lemma StronglySorted_map {A C} (R : C -> C -> Prop) (f : A -> C) l :
  StronglySorted (fun a b => R (f a) (f b)) l -> StronglySorted R (map f l).
Proof.
  induction 1 as [|x r Hr IH Hx]; simpl; constructor; [exact IH|].
  apply Forall_forall. intros y Hy. apply in_map_iff in Hy.
  destruct Hy as [a [E Ha]]. subst y. rewrite Forall_forall in Hx. apply Hx. exact Ha.
Qed.

Lemma StronglySorted_impl {A} (R R' : A -> A -> Prop) l :
  (forall a b, R a b -> R' a b) -> StronglySorted R l -> StronglySorted R' l.
Proof.
  intros HR. induction 1 as [|x r Hr IH Hx]; constructor; [exact IH|].
  apply Forall_forall. intros y Hy. rewrite Forall_forall in Hx. apply HR, Hx, Hy.
Qed.

Lemma reorder_map (l : list Z) (order : list nat) :
  Forall (fun i => (i < List.length l)%nat) order ->
  reorder l order = map (fun i => nth i l 0) order.
Proof.
  unfold reorder. induction 1 as [|i r Hi _ IH]; simpl; [reflexivity|].
  rewrite IH. rewrite (nth_error_nth' l 0 Hi). reflexivity.
Qed.

(** [keys[np.argsort(keys)[::-1]]] runs from the highest key to the lowest
    and holds the same keys. *)
Lemma highest_first (keys : list Z) :
  StronglySorted Z.ge (reorder keys (rev (argsort keys)))
  /\ Permutation (reorder keys (rev (argsort keys))) keys.
Proof.
  pose proof (dent_order_perm keys) as Hperm.
  split; [|apply reorder_perm; exact Hperm].
  rewrite reorder_map.
  - apply StronglySorted_map.
    apply (StronglySorted_impl (fun a b => nth b keys 0 <= nth a keys 0));
      [intros a b Hab; lia|].
    apply (StronglySorted_rev (fun a b => nth a keys 0 <= nth b keys 0)).
    apply argsort_sorted.
  - apply Forall_forall. intros i Hi. apply (Permutation_in _ Hperm) in Hi.
    apply in_seq in Hi. lia.
Qed.

(** When ligands repeat, [map_all_repeat_to_highdent] returns the
    pseudo-denticities from the highest to the lowest, with one list of rows
    for each, so that the search places the largest group first. *)
Theorem compaction_puts_highest_first (uinds uinv : list nat) (ucounts denticities : list Z)
        (selected_con_lists : list con_list) (inv_dicts : list (option refdict))
        (sel_out : list con_list) (out_dents : list Z) (inv_inds : option (list inv_ind)) :
  map_all_repeat_to_highdent uinds uinv ucounts denticities selected_con_lists
  = Ok (Some inv_dicts, sel_out, out_dents, inv_inds) ->
  StronglySorted Z.ge out_dents
  /\ List.length out_dents = List.length uinds
  /\ List.length sel_out = List.length uinds.
Proof.
  intros H. unfold map_all_repeat_to_highdent in H.
  destruct (negb (existsb (fun c => 1 <? c) ucounts)); [discriminate|].
  inv_bind H. destruct a as [[inter pseudo] dicts].
  inv_bind H. destruct a as [ds sels0]. inv_bind H.
  cbn [fst snd] in H. inversion H; subst; clear H.
  destruct (intermediate_loop_spec _ _ _ _ _ _ _ _ Ha) as [_ [Hl2 _]].
  destruct (reorder_loop_spec _ _ _ _ _ Ha0) as [Hr1 [Hr2 _]].
  pose proof (Permutation_length (dent_order_perm pseudo)) as Hlo.
  rewrite length_seq in Hlo.
  split; [|split; congruence].
  rewrite (reorder_loop_reorder _ _ _ _ _ Ha0). apply highest_first.
Qed.

Lemma compaction_puts_highest_first_witness :
  StronglySorted Z.ge [2; 1]
  /\ List.length [2; 1] = List.length [0%nat; 2%nat]
  /\ List.length [[[0; 1]]; [[2]]] = List.length [0%nat; 2%nat].
Proof.
  apply (compaction_puts_highest_first [0%nat; 2%nat] [0%nat; 0%nat; 1%nat] [2; 1]
           [1; 1; 1] [[[0]; [1]]; [[0]; [1]]; [[2]]]
           [Some [([0; 1], [[0]; [1]])]; None] [[[0; 1]]; [[2]]] [2; 1]
           (Some [(0, 0, 0); (0, 0, 1); (1, 1, 0)]%nat)).
  vm_compute. reflexivity.
Defined.

(** The compaction keeps the number of sites asked for: the
    pseudo-denticities add up to what the denticities of the ligands add up
    to, and every row of a returned list has as many sites as its
    pseudo-denticity, which is positive. *)
Theorem compaction_keeps_total {A : Type}
        (eq_dec : forall a b : A, {a = b} + {a <> b}) (before : A -> A -> bool)
        (strs : list A) (denticities : list Z) (selected_con_lists : list con_list)
        (uinds uinv : list nat) (ucounts : list Z)
        (inv_dicts : option (list (option refdict))) (sel_out : list con_list)
        (out_dents : list Z) (inv_inds : option (list inv_ind)) :
  np_unique eq_dec before strs = (uinds, uinv, ucounts) ->
  List.length strs = List.length denticities ->
  (forall i j x, nth_error strs i = Some x -> nth_error strs j = Some x ->
                 nth_error denticities i = nth_error denticities j) ->
  patterns_fit selected_con_lists denticities ->
  map_all_repeat_to_highdent uinds uinv ucounts denticities selected_con_lists
  = Ok (inv_dicts, sel_out, out_dents, inv_inds) ->
  sumZ out_dents = sumZ denticities
  /\ patterns_fit sel_out out_dents.
Proof.
  intros Hu Hlen Hsame Hfit H.
  pose proof (np_unique_data eq_dec before _ _ _ _ Hu) as Hud. rewrite Hlen in Hud.
  assert (Hkey : forall k g, nth_error uinv k = Some g ->
            exists ind, nth_error uinds g = Some ind
                        /\ nth_error denticities ind = nth_error denticities k).
  { intros k g Hk.
    destruct (np_unique_first eq_dec before _ _ _ _ Hu k g Hk) as [ind [x [Hi [H1 H2]]]].
    exists ind. split; [exact Hi | apply (Hsame ind k x H1 H2)]. }
  destruct (map_all_fit selected_con_lists denticities uinds uinv ucounts inv_dicts
              sel_out out_dents inv_inds Hud Hkey Hfit H) as [Hfit' [Hsum _]].
  split; assumption.
Qed.

Lemma compaction_keeps_total_witness :
  sumZ [2; 1] = sumZ [1; 1; 1]
  /\ patterns_fit [[[0; 1]]; [[2]]] [2; 1].
Proof.
  apply (compaction_keeps_total Nat.eq_dec Nat.ltb [5%nat; 5%nat; 7%nat] [1; 1; 1]
           [[[0]; [1]]; [[0]; [1]]; [[2]]] [0%nat; 2%nat] [0%nat; 0%nat; 1%nat] [2; 1]
           (Some [Some [([0; 1], [[0]; [1]])]; None]) [[[0; 1]]; [[2]]] [2; 1]
           (Some [(0, 0, 0); (0, 0, 1); (1, 1, 0)]%nat)).
  - vm_compute. reflexivity.
  - reflexivity.
  - intros [|[|[|i]]] [|[|[|j]]] x Hi Hj; simpl in Hi, Hj; try discriminate;
      try reflexivity; try (destruct i; discriminate); try (destruct j; discriminate);
      inversion Hi; inversion Hj; subst; discriminate.
  - repeat (constructor; try reflexivity).
  - vm_compute. reflexivity.
Defined.


(** *** [select_cons]: the fill ligands *)



Lemma sites_needed_split ligs :
  sites_needed ligs
  = sumZ (map (fun x => len (coordList x)) (filter (fun x => negb (is_sandwich x)) ligs))
    + 3 * len (filter is_sandwich ligs).
Proof.
  unfold sites_needed, len. induction ligs as [|x r IH]; [reflexivity|].
  cbn [map sumZ filter]. rewrite IH.
  destruct (is_sandwich x); cbn [negb map sumZ List.length]; lia.
Qed.

Lemma sites_needed_plain ligs :
  filter is_sandwich ligs = [] ->
  sites_needed ligs = sumZ (map (fun x => len (coordList x)) ligs).
Proof.
  unfold sites_needed. induction ligs as [|x r IH]; [reflexivity|].
  cbn [map sumZ filter]. destruct (is_sandwich x); [discriminate|].
  intros H. rewrite (IH H). reflexivity.
Qed.

(** The number of fill sites of lines 265-269 is the coordination number
    less the sites the ligands ask for. *)
Lemma add_fill_ligands_needed ligs cn ps :
  add_fill_ligands ligs cn ps
  = let n := cn - sites_needed ligs in
    let f := len (coordList (fill_ligand ps)) in
    if n <? 0
    then Raise (ValueError "Error - the requested complex is over-coordinated!")
    else if 0 <? n then
      if f =? 0 then Raise OverflowError
      else Ok (ligs ++ repeat (fill_ligand ps) (Z.to_nat (n / f))
                    ++ repeat (secondary_fill_ligand ps) (Z.to_nat (n mod f)))
    else Ok ligs.
Proof.
  unfold add_fill_ligands. cbn zeta.
  assert (E : (if 0 <? len (filter is_sandwich ligs)
               then cn - sumZ (map (fun x => len (coordList x))
                                   (filter (fun x => negb (is_sandwich x)) ligs))
                    - 3 * len (filter is_sandwich ligs)
               else cn - sumZ (map (fun x => len (coordList x)) ligs))
              = cn - sites_needed ligs).
  { destruct (0 <? len (filter is_sandwich ligs)) eqn:Hs.
    - rewrite sites_needed_split. lia.
    - rewrite sites_needed_plain; [reflexivity|].
      apply Z.ltb_ge in Hs. unfold len in Hs.
      destruct (filter is_sandwich ligs); [reflexivity | simpl in Hs; lia]. }
  rewrite E. reflexivity.
Qed.

Section Fill.

Variable B : SymBoundary.

(** A complex that asks for more sites than the core has -- three for
    each sandwich or haptic ligand, one per coordinating atom of the others --
    makes [select_cons] raise [ValueError], whatever the ligands are. *)
Theorem over_coordinated_raises (ligInputDicts : list LigInput) (coreType : string)
        (core_geo_class : Geometry) (params : SymParams) (cn : Z) :
  assoc coreType (geo_cn_dict core_geo_class) = Some cn ->
  cn < sites_needed ligInputDicts ->
  select_cons B ligInputDicts coreType core_geo_class params
  = Raise (ValueError "Error - the requested complex is over-coordinated!").
Proof.
  intros Hcn Hlt. unfold select_cons, resolved_ligands. rewrite Hcn. cbn [bind].
  rewrite add_fill_ligands_needed. cbn zeta.
  replace (cn - sites_needed ligInputDicts <? 0) with true
    by (symmetry; apply Z.ltb_lt; lia).
  reflexivity.
Qed.


End Fill.

Lemma over_coordinated_raises_witness :
  select_cons example_sym_boundary [chloride; chloride; ammonia] "linear" example_geometry
              (example_sym_params false)
  = Raise (ValueError "Error - the requested complex is over-coordinated!").
Proof.
  apply (over_coordinated_raises example_sym_boundary [chloride; chloride; ammonia]
           "linear" example_geometry (example_sym_params false) 2); reflexivity.
Defined.



(** *** [select_cons]: what it returns *)

Lemma split_by_length : forall dents combo,
  List.length (split_by dents combo) = List.length dents.
Proof.
  induction dents as [|d r IH]; intros combo; simpl; [reflexivity|].
  rewrite IH. reflexivity.
Qed.

Lemma expand_length ligs : forall out_combo j cand,
  expand ligs j out_combo = Ok cand -> List.length cand = List.length out_combo.
Proof.
  induction out_combo as [|x r IH]; intros j cand H; simpl in H.
  - inversion H; reflexivity.
  - inv_bind H. inv_bind H. inv_bind H. inversion H; subst; clear H.
    simpl. rewrite (IH _ _ Ha1). reflexivity.
Qed.

Lemma reorder_length_le {A} (l : list A) order :
  (List.length (reorder l order) <= List.length order)%nat.
Proof.
  unfold reorder. induction order as [|i r IH]; simpl; [lia|].
  rewrite length_app. destruct (nth_error l i); simpl; lia.
Qed.

Lemma reorder_length {A} (l : list A) order :
  Forall (fun i => (i < List.length l)%nat) order ->
  List.length (reorder l order) = List.length order.
Proof.
  unfold reorder. induction 1 as [|i r Hi _ IH]; simpl; [reflexivity|].
  rewrite length_app, IH.
  destruct (nth_error l i) eqn:E; [reflexivity|].
  apply nth_error_None in E. lia.
Qed.

(** What the compaction returns: nothing to invert and the denticities as
    they were, or the inverse data with one index entry per ligand. *)
Lemma map_all_shape uinds uinv ucounts dents sels invd sel' dents' invi :
  map_all_repeat_to_highdent uinds uinv ucounts dents sels = Ok (invd, sel', dents', invi) ->
  (invd = None /\ invi = None /\ dents' = dents)
  \/ (exists d i, invd = Some d /\ invi = Some i /\ List.length i = List.length uinv).
Proof.
  unfold map_all_repeat_to_highdent. intros H.
  destruct (negb (existsb (fun c => 1 <? c) ucounts)).
  - inversion H; subst. left. repeat split.
  - inv_bind H. destruct a as [[inter pseudo] dicts]. inv_bind H. inv_bind H.
    inversion H; subst; clear H. right.
    destruct (inv_inds_loop_spec _ _ _ _ Ha1) as [Hl _].
    eexists. eexists. split; [reflexivity|]. split; [reflexivity | exact Hl].
Qed.

Section Returned.

Variable B : SymBoundary.

Lemma score_loop_lengths coreType dents inverse charges natoms :
  forall combos oc oe oc' oe',
    score_loop B coreType dents inverse charges natoms combos oc oe = Ok (oc', oe') ->
    List.length oc = List.length oe -> List.length oc' = List.length oe'.
Proof.
  induction combos as [|c0 r IH]; intros oc oe oc' oe' H Hl; simpl in H.
  - inversion H; subst. exact Hl.
  - inv_bind H. destruct (existsb _ oe).
    + apply (IH _ _ _ _ H Hl).
    + apply (IH _ _ _ _ H). rewrite !length_app. simpl. lia.
Qed.

(** The cases in which [place_ligands] returns. *)
Lemma place_ligands_returns coreType params cn res l cands good :
  place_ligands B coreType params cn res = Ok (l, cands, good) ->
  l = map (fun r => set_ligCharge (r_lig r) (r_charge r))
          (reorder res (rev (argsort (map r_denticity res))))
  /\ ((cands = [] /\ good = false)
      \/ (good = true
          /\ exists (oc : list (list row)) (oe : list Q),
               oc <> []
               /\ List.length oc = List.length oe
               /\ (forall c, In c oc -> List.length c = List.length l)
               /\ mapM (expand l 0)
                       (reorder oc (firstn (n_symmetries params) (argsort_energies oe)))
                  = Ok cands)).
Proof.
  unfold place_ligands. intros H.
  set (ordered := reorder res (rev (argsort (map r_denticity res)))) in *.
  inv_bind H. apply mapM_np_array in Ha. subst a.
  destruct (np_unique LigInput_eq_dec (str_before B)
              (map (fun r => set_ligCharge (r_lig r) (r_charge r)) ordered))
    as [[uinds uinv] ucounts] eqn:Hu.
  inv_bind H. destruct a as [[[invd sel'] dents'] invi].
  pose proof (map_all_shape _ _ _ _ _ _ _ _ _ Ha) as Hshape.
  assert (Hluinv : List.length uinv = List.length ordered).
  { unfold np_unique in Hu. inversion Hu; subst. rewrite !length_map. reflexivity. }
  destruct (forallb r_good res);
    [|inversion H; subst; split; [reflexivity | left; split; reflexivity]].
  inv_bind H. destruct (0 <? nested_len a);
    [|inversion H; subst; split; [reflexivity | left; split; reflexivity]].
  inv_bind H. inv_bind H. destruct a1 as [oc oe].
  destruct oc as [|c1 oc'];
    [inversion H; subst; split; [reflexivity | left; split; reflexivity]|].
  inv_bind H. inversion H; subst l cands good; clear H.
  split; [reflexivity|]. right. split; [reflexivity|].
  exists (c1 :: oc'), oe. split; [discriminate|].
  split; [apply (score_loop_lengths _ _ _ _ _ _ _ _ _ _ Ha2); reflexivity|].
  split; [|exact Ha3].
  intros c Hc. rewrite length_map.
  destruct (score_loop_kept B _ _ _ _ _ _ _ _ _ _ Ha2 c Hc) as [[]|[c0 [_ Hm]]].
  destruct Hshape as [[E1 [E2 E3]] | [d [i [E1 [E2 Hl]]]]]; subst invd invi.
  - subst c dents'. rewrite split_by_length, length_map. reflexivity.
  - destruct (inv_map_spec _ _ _ _ Hm) as [Hlc _]. congruence.
Qed.

End Returned.


Lemma resolve_ligand_smiles geo ct cn ps t l l' possible d good t' :
  resolve_ligand geo ct cn ps t l = Ok (l', possible, d, good, t') ->
  smiles l' = smiles l.
Proof.
  unfold resolve_ligand. intros H. run_inv; reflexivity.
Qed.

Section Ligands.

Variable B : SymBoundary.

Lemma resolve_loop_smiles geo ct cn ps : forall ligs t res,
  resolve_loop B geo ct cn ps t ligs = Ok res ->
  map (fun r => smiles (r_lig r)) res = map smiles ligs
  /\ Forall (fun r => r_charge r = get_total_charge B (smiles (r_lig r))) res.
Proof.
  induction ligs as [|l r IH]; intros t res H; simpl in H.
  - inversion H; subst. split; [reflexivity | constructor].
  - inv_bind H. destruct a as [[[[l' possible] d] good] t'].
    inv_bind H. inversion H; subst; clear H.
    destruct (IH _ _ Ha0) as [Hs Hc]. split.
    + cbn [map r_lig]. rewrite Hs, (resolve_ligand_smiles _ _ _ _ _ _ _ _ _ _ _ Ha).
      reflexivity.
    + constructor; [reflexivity | exact Hc].
Qed.

(** [select_cons] returns at most [n_symmetries] candidates; [good] is
    false exactly when it returns none, unless no symmetry was asked for. *)
Theorem candidates_within_n_symmetries (ligInputDicts : list LigInput)
        (coreType : string) (core_geo_class : Geometry) (params : SymParams)
        (l : list LigInput) (cands : list (list (list tlig_entry))) (good : bool) :
  select_cons B ligInputDicts coreType core_geo_class params = Ok (l, cands, good) ->
  (List.length cands <= n_symmetries params)%nat
  /\ (good = false -> cands = [])
  /\ (good = true -> (0 < n_symmetries params)%nat -> cands <> []).
Proof.
  unfold select_cons. intros H. inv_bind H.
  destruct (place_ligands_returns B _ _ _ _ _ _ _ H)
    as [_ [[Hc Hg] | [Hg [oc [oe [Hne [Hlen [_ Hm]]]]]]]].
  - subst. split; [simpl; lia|]. split; [reflexivity | discriminate].
  - pose proof (mapM_length _ _ _ Hm) as Hl.
    set (order := firstn (n_symmetries params) (argsort_energies oe)) in *.
    assert (Hlo : (List.length order <= n_symmetries params)%nat)
      by apply firstn_le_length.
    split; [rewrite Hl; pose proof (reorder_length_le oc order); lia|].
    split; [intros E; congruence|].
    intros _ Hn Hnil. subst cands. simpl in Hl.
    assert (Hperm : Permutation (argsort_energies oe) (seq 0 (List.length oe)))
      by apply argsort_by_perm.
    assert (Hvalid : Forall (fun i => (i < List.length oc)%nat) order).
    { apply Forall_forall. intros i Hi. apply firstn_In in Hi.
      apply (Permutation_in _ Hperm) in Hi. apply in_seq in Hi. lia. }
    rewrite (reorder_length oc order Hvalid) in Hl.
    unfold order in Hl. rewrite length_firstn, (Permutation_length Hperm), length_seq in Hl.
    destruct oc; [contradiction | simpl in Hlen; lia].
Qed.

(** Every candidate [select_cons] returns goes with the ligand list
    returned beside it: it has one list of entries per ligand, in the same
    order. *)
Theorem candidate_has_entry_per_ligand (ligInputDicts : list LigInput)
        (coreType : string) (core_geo_class : Geometry) (params : SymParams)
        (l : list LigInput) (cands : list (list (list tlig_entry))) (good : bool)
        (cand : list (list tlig_entry)) :
  select_cons B ligInputDicts coreType core_geo_class params = Ok (l, cands, good) ->
  In cand cands ->
  List.length cand = List.length l.
Proof.
  unfold select_cons. intros H Hcand. inv_bind H.
  destruct (place_ligands_returns B _ _ _ _ _ _ _ H)
    as [_ [[Hc Hg] | [Hg [oc [oe [Hne [Hlen [Hrow Hm]]]]]]]].
  - subst cands. destruct Hcand.
  - destruct (mapM_In _ _ _ Hm cand Hcand) as [c [Hc Hexp]].
    apply reorder_In in Hc. rewrite (expand_length _ _ _ _ Hexp). apply Hrow. exact Hc.
Qed.

(** The ligand list [select_cons] returns is the input with the fill
    ligands, reordered: it has the same SMILES strings, and every ligand in
    it carries the total charge OpenBabel finds for its SMILES string. *)
Theorem returned_ligands_are_the_filled_input (ligInputDicts : list LigInput)
        (coreType : string) (core_geo_class : Geometry) (params : SymParams)
        (l : list LigInput) (cands : list (list (list tlig_entry))) (good : bool) :
  select_cons B ligInputDicts coreType core_geo_class params = Ok (l, cands, good) ->
  exists cn all,
    assoc coreType (geo_cn_dict core_geo_class) = Some cn
    /\ add_fill_ligands ligInputDicts cn params = Ok all
    /\ Permutation (map smiles l) (map smiles all)
    /\ Forall (fun lig => ligCharge lig = Some (get_total_charge B (smiles lig))) l.
Proof.
  unfold select_cons. intros H. inv_bind H.
  destruct (place_ligands_returns B _ _ _ _ _ _ _ H) as [El _].
  unfold resolved_ligands in Ha.
  inv_bind Ha. inv_bind Ha. inv_bind Ha. inversion Ha; subst a; clear Ha.
  cbn [fst snd] in *.
  destruct (resolve_loop_smiles _ _ _ _ _ _ _ Ha2) as [Hs Hc].
  pose proof (ordered_perm a2) as Hperm.
  set (ordered := reorder a2 (rev (argsort (map r_denticity a2)))) in *.
  exists a0, a1.
  split; [destruct (assoc coreType (geo_cn_dict core_geo_class)); inversion Ha0; reflexivity|].
  split; [exact Ha1|]. subst l. split.
  - rewrite map_map. cbn [smiles set_ligCharge]. rewrite <- Hs.
    apply (Permutation_map (fun r => smiles (r_lig r)) Hperm).
  - apply Forall_forall. intros lig Hin. apply in_map_iff in Hin.
    destruct Hin as [r [E Hr]]. subst lig. cbn [ligCharge smiles set_ligCharge].
    apply (Permutation_in _ Hperm) in Hr.
    rewrite Forall_forall in Hc. rewrite (Hc r Hr). reflexivity.
Qed.

End Ligands.

Lemma candidates_within_n_symmetries_witness :
  (List.length [[[AtomSite (Atom 0) 0]; [AtomSite (Atom 0) 1]]] <= 10)%nat
  /\ (true = false -> [[[AtomSite (Atom 0) 0]; [AtomSite (Atom 0) 1]]] = [])
  /\ (true = true -> (0 < 10)%nat ->
      [[[AtomSite (Atom 0) 0]; [AtomSite (Atom 0) 1]]] <> []).
Proof.
  eapply (candidates_within_n_symmetries example_sym_boundary [chloride; chloride]
            "linear" example_geometry (example_sym_params false)).
  vm_compute. reflexivity.
Defined.

Lemma candidate_has_entry_per_ligand_witness :
  List.length [[AtomSite (Atom 0) 0]; [AtomSite (Atom 0) 1]]
  = List.length [set_ligCharge chloride 0; set_ligCharge chloride 0].
Proof.
  eapply (candidate_has_entry_per_ligand example_sym_boundary [chloride; chloride]
            "linear" example_geometry (example_sym_params false)).
  - vm_compute. reflexivity.
  - left. reflexivity.
Defined.

Lemma returned_ligands_are_the_filled_input_witness :
  exists cn all,
    assoc "linear" (geo_cn_dict example_geometry) = Some cn
    /\ add_fill_ligands [chloride] cn (example_sym_params false) = Ok all
    /\ Permutation (map smiles [set_ligCharge water 0; set_ligCharge chloride 0])
                   (map smiles all)
    /\ Forall (fun lig => ligCharge lig
                          = Some (get_total_charge example_sym_boundary (smiles lig)))
              [set_ligCharge water 0; set_ligCharge chloride 0].
Proof.
  eapply (returned_ligands_are_the_filled_input example_sym_boundary [chloride]
            "linear" example_geometry (example_sym_params false)).
  vm_compute. reflexivity.
Defined.


End SymFacts.
